(** * js-redis-lock: the locking protocol of [lib/LockingMechanism.js]

    A shallow embedding of the [LockingMechanism] class.  Every method is a
    program over the commands it sends to the key-value store; a program is
    run against any implementation of the store interface, and a model of
    the store (a single Redis-like node with connection-scoped watches) is
    given to run programs on concrete states and to interleave several
    callers. *)

From Stdlib Require Import ZArith String Ascii List Lia Bool.
From Stdlib Require Import DecimalString DecimalPos DecimalZ.
From stdpp Require Import base gmap sets strings list.

Import ListNotations.
Local Open Scope string_scope.
Local Open Scope list_scope.
Local Open Scope Z_scope.

(** ** JavaScript values that flow through the class

    Numbers are the integer-valued ones (timestamps in milliseconds, reply
    counts), on which the arithmetic of doubles is exact; an object is a
    plain record of string fields, which covers the key-error literal and the
    error objects of the store client. *)

Inductive jsval : Type :=
| JUndefined
| JNull
| JBool (b : bool)
| JNum (n : Z)
| JStr (s : string)
| JObj (fields : list (string * string)).

(** [typeof v] *)
Definition typeof (v : jsval) : string :=
  match v with
  | JUndefined => "undefined"
  | JNull => "object"
  | JBool _ => "boolean"
  | JNum _ => "number"
  | JStr _ => "string"
  | JObj _ => "object"
  end.

(** Truthiness, as tested by [if (v)] and [v && ...]. *)
Definition truthy (v : jsval) : bool :=
  match v with
  | JUndefined | JNull => false
  | JBool b => b
  | JNum n => negb (n =? 0)
  | JStr s => negb (String.eqb s EmptyString)
  | JObj _ => true
  end.

(** [v === n] for a number literal [n]. *)
Definition strict_eq_num (v : jsval) (n : Z) : bool :=
  match v with
  | JNum m => m =? n
  | _ => false
  end.

(** [String(n)] for an integer: its decimal rendering, which is what the
    store client sends for a number argument. *)
Definition String_ (n : Z) : string := NilZero.string_of_int (Z.to_int n).

(** [Number(s)], the coercion applied by [s >= n], on the strings the
    protocol stores: a decimal integer literal, with a minus sign when
    negative, is its value, and the empty string is 0.  Every other string is
    taken to be NaN ([None]); the literals with blanks, a fraction, an
    exponent or a radix prefix, which JavaScript also reads as numbers, are
    never written by the protocol and are not modelled. *)
Definition ToNumber (s : string) : option Z :=
  match s with
  | EmptyString => Some 0
  | _ => option_map Z.of_int (NilZero.int_of_string s)
  end.

Arguments String_ : simpl never.
Arguments ToNumber : simpl never.

(** [v >= n] for a number [n]: [v] is coerced to a number, and the comparison
    is false when the coercion gives NaN. *)
Definition ge_num (v : jsval) (n : Z) : bool :=
  match v with
  | JUndefined => false
  | JNull => n <=? 0
  | JBool b => n <=? (if b then 1 else 0)
  | JNum m => n <=? m
  | JStr s => match ToNumber s with Some m => n <=? m | None => false end
  | JObj _ => false
  end.

(** ** Outcome of a call that returns a promise *)

Inductive outcome : Type :=
| Resolved (v : jsval)
| Rejected (reason : jsval)
| Pending.   (* the promise is never settled *)

(** ** Programs over the store commands *)

(** A command queued in a [multi()] transaction. *)
Inductive op : Type :=
| OpGet (key : string)
| OpDel (key : string).

(** One constructor per command the class issues.  The continuation of a
    command with a callback receives [(err, reply)]; [watch] is sent without
    a callback.  [Now] is [new Date().getTime()], [Sleep] is the timer of
    [_sleep], and [MultiExec ops] is [multi()...exec(callback)], whose
    result is [null] ([None]) or the array of the commands' results. *)
Inductive prog (A : Type) : Type :=
| Ret (a : A)
| Now (k : Z -> prog A)
| Setnx (key : string) (value : Z) (k : jsval -> jsval -> prog A)
| Get (key : string) (k : jsval -> jsval -> prog A)
| Getset (key : string) (value : Z) (k : jsval -> jsval -> prog A)
| Watch (key : string) (k : prog A)
| MultiExec (ops : list op) (k : jsval -> option (list jsval) -> prog A)
| Sleep (ms : Z) (k : prog A).

Arguments Ret {A} a.
Arguments Now {A} k.
Arguments Setnx {A} key value k.
Arguments Get {A} key k.
Arguments Getset {A} key value k.
Arguments Watch {A} key k.
Arguments MultiExec {A} ops k.
Arguments Sleep {A} ms k.

Fixpoint bind {A B : Type} (p : prog A) (f : A -> prog B) : prog B :=
  match p with
  | Ret a => f a
  | Now k => Now (fun n => bind (k n) f)
  | Setnx key v k => Setnx key v (fun e r => bind (k e r) f)
  | Get key k => Get key (fun e r => bind (k e r) f)
  | Getset key v k => Getset key v (fun e r => bind (k e r) f)
  | Watch key k => Watch key (bind k f)
  | MultiExec ops k => MultiExec ops (fun e r => bind (k e r) f)
  | Sleep ms k => Sleep ms (bind k f)
  end.

(** What a caller or an observer sees of one command. *)
Inductive event : Type :=
| ENow (n : Z)
| ESetnx (key : string) (value : Z) (err reply : jsval)
| EGet (key : string) (err reply : jsval)
| EGetset (key : string) (value : Z) (err reply : jsval)
| EWatch (key : string)
| EExec (ops : list op) (err : jsval) (result : option (list jsval))
| ESleep (ms : Z).

(** ** The store interface, and running a program against it *)

Record Store (W : Type) : Type := {
  st_now : W -> Z * W;
  st_setnx : string -> Z -> W -> jsval * jsval * W;
  st_get : string -> W -> jsval * jsval * W;
  st_getset : string -> Z -> W -> jsval * jsval * W;
  st_watch : string -> W -> W;
  st_exec : list op -> W -> jsval * option (list jsval) * W;
  st_sleep : Z -> W -> W
}.

Arguments st_now {W} _ _.
Arguments st_setnx {W} _ _ _ _.
Arguments st_get {W} _ _ _.
Arguments st_getset {W} _ _ _ _.
Arguments st_watch {W} _ _ _.
Arguments st_exec {W} _ _ _.
Arguments st_sleep {W} _ _ _.

Section Run.
Context {W : Type} (h : Store W).

(** One command of [p]: the rest of the program, the new store, and the
    event (none when [p] has returned). *)
Definition step {A : Type} (p : prog A) (w : W) : prog A * W * option event :=
  match p with
  | Ret a => (Ret a, w, None)
  | Now k => let '(n, w') := st_now h w in (k n, w', Some (ENow n))
  | Setnx key v k =>
      let '(e, r, w') := st_setnx h key v w in (k e r, w', Some (ESetnx key v e r))
  | Get key k =>
      let '(e, r, w') := st_get h key w in (k e r, w', Some (EGet key e r))
  | Getset key v k =>
      let '(e, r, w') := st_getset h key v w in (k e r, w', Some (EGetset key v e r))
  | Watch key k => (k, st_watch h key w, Some (EWatch key))
  | MultiExec ops k =>
      let '(e, r, w') := st_exec h ops w in (k e r, w', Some (EExec ops e r))
  | Sleep ms k => (k, st_sleep h ms w, Some (ESleep ms))
  end.

(** The whole program: its result, the final store and the events. *)
Fixpoint run {A : Type} (p : prog A) (w : W) : A * W * list event :=
  match p with
  | Ret a => (a, w, [])
  | Now k =>
      let '(n, w1) := st_now h w in
      let '(a, w2, tr) := run (k n) w1 in (a, w2, ENow n :: tr)
  | Setnx key v k =>
      let '(e, r, w1) := st_setnx h key v w in
      let '(a, w2, tr) := run (k e r) w1 in (a, w2, ESetnx key v e r :: tr)
  | Get key k =>
      let '(e, r, w1) := st_get h key w in
      let '(a, w2, tr) := run (k e r) w1 in (a, w2, EGet key e r :: tr)
  | Getset key v k =>
      let '(e, r, w1) := st_getset h key v w in
      let '(a, w2, tr) := run (k e r) w1 in (a, w2, EGetset key v e r :: tr)
  | Watch key k =>
      let '(a, w2, tr) := run k (st_watch h key w) in (a, w2, EWatch key :: tr)
  | MultiExec ops k =>
      let '(e, r, w1) := st_exec h ops w in
      let '(a, w2, tr) := run (k e r) w1 in (a, w2, EExec ops e r :: tr)
  | Sleep ms k =>
      let '(a, w2, tr) := run k (st_sleep h ms w) in (a, w2, ESleep ms :: tr)
  end.
End Run.

(** ** The class [LockingMechanism] *)

(** [_makeKey] *)
Definition _makeKey (key : string) : string := String.append "lock-" key.

Arguments _makeKey : simpl never.

(** [{name: "key error", message: "key must be string"}] *)
Definition key_error : jsval :=
  JObj [("name", "key error"); ("message", "key must be string")].

(** [v && v >= new Date().getTime()]: the clock is read only when [v] is
    truthy. *)
Definition still_valid {A : Type} (v : jsval) (k : bool -> prog A) : prog A :=
  if truthy v then Now (fun now => k (ge_num v now)) else k false.

(** [await] of a promisified command inside the [async] executor of
    [new Promise(...)]: when the command fails the executor throws, nothing
    calls [resolve] or [reject], and the promise stays pending. *)
Definition await (err : jsval) (k : prog outcome) : prog outcome :=
  if truthy err then Ret Pending else k.

(** [_getTimeOut(ttl)]: the clock read, plus [ttl]. *)
Definition _getTimeOut {A : Type} (ttl : Z) (k : Z -> prog A) : prog A :=
  Now (fun now => k (now + ttl)).

(** [_sleep(milliseconds)] *)
Definition _sleep {A : Type} (milliseconds : Z) (k : prog A) : prog A :=
  Sleep milliseconds k.

(** [lock(key, ttl = 300)]; an omitted argument is [None]. *)
Definition lock (key : jsval) (ttl : option Z) : prog outcome :=
  let ttl := default 300 ttl in
  match key with
  | JStr key =>
      let lockKey := _makeKey key in
      _getTimeOut ttl (fun lockTimeOut =>
      Setnx lockKey lockTimeOut (fun err tryToLock =>
      await err (
      if strict_eq_num tryToLock 1 then
        Watch lockKey (Ret (Resolved (JNum 1)))
      else
        Get lockKey (fun err currentLockTimestamp =>
        await err (
        still_valid currentLockTimestamp (fun held =>
        if held then Ret (Resolved (JNum 0))
        else
          _getTimeOut ttl (fun lockTimeOut =>
          Getset lockKey lockTimeOut (fun err prevLockTimeStamp =>
          await err (
          still_valid prevLockTimeStamp (fun held =>
          if held then Ret (Resolved (JNum 0))
          else Watch lockKey (Ret (Resolved (JNum 1)))))))))))))
  | _ => Ret (Rejected key_error)
  end.

(** [retryableLock(key, ttl = 500, retryAfter = 150, maxAttempts = 0)].
    The [while] loop is unrolled [fuel] times; [None] means the loop is still
    running when the fuel is spent.  [attempts] is the loop counter. *)
Fixpoint retryableLock_loop (fuel : nat) (key : jsval) (ttl retryAfter maxAttempts : Z)
    (attempts : Z) : prog (option outcome) :=
  match fuel with
  | O => Ret None
  | S fuel' =>
      let keepRetrying := maxAttempts <? 1 in
      if keepRetrying || (attempts <? maxAttempts) then
        bind (lock key (Some ttl)) (fun result =>
        match result with
        | Rejected err => Ret (Some (Rejected err))
        | Pending => Ret (Some Pending)
        | Resolved result =>
            if strict_eq_num result 1 then Ret (Some (Resolved (JNum 1)))
            else
              _sleep retryAfter
                (retryableLock_loop fuel' key ttl retryAfter maxAttempts (attempts + 1))
        end)
      else Ret (Some (Resolved (JNum 0)))
  end.

Definition retryableLock (fuel : nat) (key : jsval) (ttl retryAfter maxAttempts : option Z)
    : prog (option outcome) :=
  retryableLock_loop fuel key (default 500 ttl) (default 150 retryAfter)
    (default 0 maxAttempts) 0.

(** [unlock(key)] *)
Definition unlock (key : jsval) : prog outcome :=
  match key with
  | JStr key =>
      let lockKey := _makeKey key in
      MultiExec [OpDel lockKey] (fun err result =>
      if truthy err then Ret (Rejected err)
      else
        match result with
        | None => Ret (Resolved (JNum 0))
        | Some result => Ret (Resolved (nth 0 result JUndefined))
        end)
  | _ => Ret (Rejected key_error)
  end.

(** [readWithLock(key)] *)
Definition readWithLock (key : jsval) : prog outcome :=
  match key with
  | JStr key =>
      let lockKey := _makeKey key in
      MultiExec [OpGet lockKey; OpGet key] (fun err result =>
      if truthy err then Ret (Rejected err)
      else
        match result with
        | None => Ret (Rejected (JNum 0))
        | Some result =>
            let currentLockTimestamp := nth 0 result JUndefined in
            let value := nth 1 result JUndefined in
            still_valid currentLockTimestamp (fun held =>
            if held then Ret (Rejected (JNum 0)) else Ret (Resolved value))
        end)
  | _ => Ret (Rejected key_error)
  end.

(** [readWithRetryableLock(key, retryAfter = 150, maxAttempts = 0)] *)
Fixpoint readWithRetryableLock_loop (fuel : nat) (key : jsval) (retryAfter maxAttempts : Z)
    (attempts : Z) : prog (option outcome) :=
  match fuel with
  | O => Ret None
  | S fuel' =>
      let keepRetrying := maxAttempts <? 1 in
      if keepRetrying || (attempts <? maxAttempts) then
        bind (readWithLock key) (fun result =>
        match result with
        | Rejected err =>
            if negb (strict_eq_num err 0) then Ret (Some (Rejected err))
            else
              _sleep retryAfter
                (readWithRetryableLock_loop fuel' key retryAfter maxAttempts (attempts + 1))
        | Pending => Ret (Some Pending)
        | Resolved result => Ret (Some (Resolved result))
        end)
      else Ret (Some (Rejected (JNum 0)))
  end.

Definition readWithRetryableLock (fuel : nat) (key : jsval) (retryAfter maxAttempts : option Z)
    : prog (option outcome) :=
  readWithRetryableLock_loop fuel key (default 150 retryAfter) (default 0 maxAttempts) 0.

(** ** A model of the store *)

(** Modelled from the spec: the key-value store, an external service that is
    not part of the repository.  This is its contract as the class uses it
    (spec sections 2 and 6): string values, [SETNX], [GET], [GETSET], and
    [WATCH] / [MULTI ... EXEC] with connection-scoped watches.  A write to a
    key marks every connection watching it; [EXEC] on a marked connection
    aborts (a null result); [EXEC] clears the connection's watches either
    way.  Commands of this model never fail ([err] is null). *)
Record redis : Type := {
  db : gmap string string;
  clock : Z;
  watching : gmap nat (gset string);
  dirty : gset nat
}.

(** The connections that watch [k]. *)
Definition watchers (k : string) (s : redis) : gset nat :=
  dom (filter (fun cw => k ∈ cw.2) (watching s)).

(** [k] has been written. *)
Definition touch (k : string) (s : redis) : redis :=
  {| db := db s; clock := clock s; watching := watching s;
     dirty := dirty s ∪ watchers k s |}.

Definition write (k : string) (v : string) (s : redis) : redis :=
  touch k {| db := <[k := v]> (db s); clock := clock s; watching := watching s;
             dirty := dirty s |}.

Definition remove (k : string) (s : redis) : redis :=
  touch k {| db := delete k (db s); clock := clock s; watching := watching s;
             dirty := dirty s |}.

Definition bulk (v : option string) : jsval :=
  match v with
  | Some s => JStr s
  | None => JNull
  end.

Definition redis_setnx (k : string) (v : Z) (s : redis) : jsval * jsval * redis :=
  match db s !! k with
  | Some _ => (JNull, JNum 0, s)
  | None => (JNull, JNum 1, write k (String_ v) s)
  end.

Definition redis_get (k : string) (s : redis) : jsval * jsval * redis :=
  (JNull, bulk (db s !! k), s).

Definition redis_getset (k : string) (v : Z) (s : redis) : jsval * jsval * redis :=
  (JNull, bulk (db s !! k), write k (String_ v) s).

Definition redis_watch (c : nat) (k : string) (s : redis) : redis :=
  {| db := db s; clock := clock s;
     watching := <[c := {[k]} ∪ default ∅ (watching s !! c)]> (watching s);
     dirty := dirty s |}.

Definition unwatch (c : nat) (s : redis) : redis :=
  {| db := db s; clock := clock s; watching := delete c (watching s);
     dirty := dirty s ∖ {[c]} |}.

Definition redis_op (o : op) (s : redis) : jsval * redis :=
  match o with
  | OpGet k => (bulk (db s !! k), s)
  | OpDel k =>
      match db s !! k with
      | Some _ => (JNum 1, remove k s)
      | None => (JNum 0, s)
      end
  end.

Fixpoint redis_ops (ops : list op) (s : redis) : list jsval * redis :=
  match ops with
  | [] => ([], s)
  | o :: ops' =>
      let '(r, s1) := redis_op o s in
      let '(rs, s2) := redis_ops ops' s1 in
      (r :: rs, s2)
  end.

Definition redis_exec (c : nat) (ops : list op) (s : redis)
    : jsval * option (list jsval) * redis :=
  if decide (c ∈ dirty s) then (JNull, None, unwatch c s)
  else let '(rs, s') := redis_ops ops s in (JNull, Some rs, unwatch c s').

Definition advance (d : Z) (s : redis) : redis :=
  {| db := db s; clock := clock s + Z.max 0 d; watching := watching s;
     dirty := dirty s |}.

(** The store as seen from connection [c]. *)
Definition redis_conn (c : nat) : Store redis := {|
  st_now := fun s => (clock s, s);
  st_setnx := redis_setnx;
  st_get := redis_get;
  st_getset := redis_getset;
  st_watch := redis_watch c;
  st_exec := redis_exec c;
  st_sleep := advance
|}.

Arguments write : simpl never.
Arguments remove : simpl never.
Arguments redis_watch : simpl never.
Arguments unwatch : simpl never.
Arguments advance : simpl never.

(** ** Several callers, each on its own connection

    Thread [i] runs its program on connection [i]; a schedule says which
    thread sends its next command, or that time passes. *)

Record thread : Type := {
  code : prog outcome;
  seen : list event
}.

Inductive sched : Type :=
| Go (i : nat)
| Tick (d : Z).

Definition pool_step (e : sched) (ts : list thread) (s : redis) : list thread * redis :=
  match e with
  | Tick d => (ts, advance d s)
  | Go i =>
      match ts !! i with
      | None => (ts, s)
      | Some t =>
          let '(p, s', ev) := step (redis_conn i) (code t) s in
          (<[i := {| code := p; seen := seen t ++ option_list ev |}]> ts, s')
      end
  end.

Fixpoint pool_run (sc : list sched) (ts : list thread) (s : redis) : list thread * redis :=
  match sc with
  | [] => (ts, s)
  | e :: sc' => let '(ts', s') := pool_step e ts s in pool_run sc' ts' s'
  end.

Definition spawn (p : prog outcome) : thread := {| code := p; seen := [] |}.

(** The outcome of a thread that has returned. *)
Definition result_of (t : thread) : option outcome :=
  match code t with
  | Ret o => Some o
  | _ => None
  end.



(** ** Vocabulary of the statements *)

(** [v && v >= now] *)
Definition valid_at (v : jsval) (now : Z) : bool := truthy v && ge_num v now.

(** The clock read of [v && v >= new Date().getTime()]. *)
Definition clock_read (v : jsval) (now : Z) : list event :=
  if truthy v then [ENow now] else [].

(** What a lock key holds under the protocol: nothing, or an expiry
    timestamp in decimal. *)
Definition expiry_reply (v : jsval) : Prop :=
  v = JNull ∨ ∃ t : Z, v = JStr (String_ t).

(** The stored expiry is absent or [< now]. *)
Definition absent_or_before (v : jsval) (now : Z) : Prop :=
  v = JNull ∨ ∃ t : Z, v = JStr (String_ t) ∧ t < now.

(** The stored expiry is present and [>= now]. *)
Definition present_and_live (v : jsval) (now : Z) : Prop :=
  ∃ t : Z, v = JStr (String_ t) ∧ now <= t.

(** The [err] a command's callback received. *)
Definition err_of (e : event) : jsval :=
  match e with
  | ESetnx _ _ err _ | EGet _ err _ | EGetset _ _ err _ | EExec _ err _ => err
  | ENow _ | EWatch _ | ESleep _ => JNull
  end.

(** No command of the trace failed. *)
Definition store_ok (tr : list event) : Prop :=
  Forall (fun e => truthy (err_of e) = false) tr.

(** Every value read from a key by [GET] or [GETSET] is an expiry reply. *)
Definition expiries_ok (tr : list event) : Prop :=
  Forall (fun e => match e with
                   | EGet _ _ v | EGetset _ _ _ v => expiry_reply v
                   | _ => True
                   end) tr.

(** The writes a trace performed: a [SETNX] that replied 1 and every
    [GETSET] that did not fail. *)
Definition writes_of (tr : list event) : list (string * Z) :=
  flat_map (fun e => match e with
                     | ESetnx k v err r =>
                         if truthy err then []
                         else if strict_eq_num r 1 then [(k, v)] else []
                     | EGetset k v err _ => if truthy err then [] else [(k, v)]
                     | _ => []
                     end) tr.

(** The events of one [lock] call on lock key [lk], with its outcome. *)
Inductive lock_path (lk : string) (ttl : Z) : list event -> outcome -> Prop :=
| lp_setnx_failed now0 e1 r :
    truthy e1 = true ->
    lock_path lk ttl [ENow now0; ESetnx lk (now0 + ttl) e1 r] Pending
| lp_setnx_won now0 e1 r :
    truthy e1 = false -> strict_eq_num r 1 = true ->
    lock_path lk ttl [ENow now0; ESetnx lk (now0 + ttl) e1 r; EWatch lk]
      (Resolved (JNum 1))
| lp_get_failed now0 e1 r e2 cur :
    truthy e1 = false -> strict_eq_num r 1 = false -> truthy e2 = true ->
    lock_path lk ttl [ENow now0; ESetnx lk (now0 + ttl) e1 r; EGet lk e2 cur] Pending
| lp_held now0 e1 r e2 cur now1 :
    truthy e1 = false -> strict_eq_num r 1 = false -> truthy e2 = false ->
    valid_at cur now1 = true ->
    lock_path lk ttl
      [ENow now0; ESetnx lk (now0 + ttl) e1 r; EGet lk e2 cur; ENow now1]
      (Resolved (JNum 0))
| lp_getset_failed now0 e1 r e2 cur now1 now2 e3 prev :
    truthy e1 = false -> strict_eq_num r 1 = false -> truthy e2 = false ->
    valid_at cur now1 = false -> truthy e3 = true ->
    lock_path lk ttl
      ([ENow now0; ESetnx lk (now0 + ttl) e1 r; EGet lk e2 cur]
         ++ clock_read cur now1
         ++ [ENow now2; EGetset lk (now2 + ttl) e3 prev])
      Pending
| lp_lost now0 e1 r e2 cur now1 now2 e3 prev now3 :
    truthy e1 = false -> strict_eq_num r 1 = false -> truthy e2 = false ->
    valid_at cur now1 = false -> truthy e3 = false ->
    valid_at prev now3 = true ->
    lock_path lk ttl
      ([ENow now0; ESetnx lk (now0 + ttl) e1 r; EGet lk e2 cur]
         ++ clock_read cur now1
         ++ [ENow now2; EGetset lk (now2 + ttl) e3 prev; ENow now3])
      (Resolved (JNum 0))
| lp_stolen now0 e1 r e2 cur now1 now2 e3 prev now3 :
    truthy e1 = false -> strict_eq_num r 1 = false -> truthy e2 = false ->
    valid_at cur now1 = false -> truthy e3 = false ->
    valid_at prev now3 = false ->
    lock_path lk ttl
      ([ENow now0; ESetnx lk (now0 + ttl) e1 r; EGet lk e2 cur]
         ++ clock_read cur now1
         ++ [ENow now2; EGetset lk (now2 + ttl) e3 prev]
         ++ clock_read prev now3 ++ [EWatch lk])
      (Resolved (JNum 1)).

(** Acquisition by the [SETNX]: it replied 1, and the key is watched. *)
Definition won_by_setnx (lk : string) (ttl : Z) (tr : list event) : Prop :=
  ∃ now0 e1,
    tr = [ENow now0; ESetnx lk (now0 + ttl) e1 (JNum 1); EWatch lk].

(** Acquisition by stealing: the [SETNX] did not reply 1, the expiry read by
    [GET] is absent or [< now], the candidate is recomputed from a fresh
    clock read, and the previous value returned by [GETSET] is absent or
    [< now]; the key is watched. *)
Definition won_by_steal (lk : string) (ttl : Z) (tr : list event) : Prop :=
  ∃ now0 e1 r e2 cur now1 now2 e3 prev now3,
    r ≠ JNum 1 ∧
    absent_or_before cur now1 ∧
    absent_or_before prev now3 ∧
    tr = [ENow now0; ESetnx lk (now0 + ttl) e1 r; EGet lk e2 cur]
           ++ clock_read cur now1
           ++ [ENow now2; EGetset lk (now2 + ttl) e3 prev]
           ++ clock_read prev now3 ++ [EWatch lk].

(** ** Store states used in the examples *)

Definition empty_redis (now : Z) : redis :=
  {| db := ∅; clock := now; watching := ∅; dirty := ∅ |}.

(** The lock of ["a"] is held until 1200, and it is 1000 o'clock. *)
Definition held_store : redis :=
  {| db := {[ "lock-a" := "1200" ]}; clock := 1000; watching := ∅; dirty := ∅ |}.

(** The same lock, after its expiry. *)
Definition stale_store : redis := advance 300 held_store.

(** ** Repeated attempts

    [n] attempts in a row, each followed by [_sleep(retryAfter)]: the store
    and the events after them, and the statement that each of them failed in
    the way that makes the wrapper try again. *)

Section Rounds.
Context {W : Type} (h : Store W).

Fixpoint lock_rounds (n : nat) (key : jsval) (ttl retryAfter : Z) (w : W)
    : W * list event :=
  match n with
  | O => (w, [])
  | S n' =>
      let '(_, w1, t1) := run h (lock key (Some ttl)) w in
      let '(w2, t2) := lock_rounds n' key ttl retryAfter (st_sleep h retryAfter w1) in
      (w2, t1 ++ ESleep retryAfter :: t2)
  end.

(** Each of the [n] attempts resolves not acquired. *)
Fixpoint lock_fails (n : nat) (key : jsval) (ttl retryAfter : Z) (w : W) : Prop :=
  match n with
  | O => True
  | S n' =>
      let '(o, w1, _) := run h (lock key (Some ttl)) w in
      o = Resolved (JNum 0)
      ∧ lock_fails n' key ttl retryAfter (st_sleep h retryAfter w1)
  end.

Fixpoint read_rounds (n : nat) (key : jsval) (retryAfter : Z) (w : W)
    : W * list event :=
  match n with
  | O => (w, [])
  | S n' =>
      let '(_, w1, t1) := run h (readWithLock key) w in
      let '(w2, t2) := read_rounds n' key retryAfter (st_sleep h retryAfter w1) in
      (w2, t1 ++ ESleep retryAfter :: t2)
  end.

(** Each of the [n] reads fails with the contended outcome, [reject(0)]. *)
Fixpoint read_contended (n : nat) (key : jsval) (retryAfter : Z) (w : W) : Prop :=
  match n with
  | O => True
  | S n' =>
      let '(o, w1, _) := run h (readWithLock key) w in
      o = Rejected (JNum 0)
      ∧ read_contended n' key retryAfter (st_sleep h retryAfter w1)
  end.
End Rounds.

(** A store client whose every command fails with [e] (a lost connection,
    say); the state is the current time. *)
Definition broken_store (e : jsval) : Store Z := {|
  st_now := fun t => (t, t);
  st_setnx := fun _ _ t => (e, JUndefined, t);
  st_get := fun _ t => (e, JUndefined, t);
  st_getset := fun _ _ t => (e, JUndefined, t);
  st_watch := fun _ t => t;
  st_exec := fun _ t => (e, None, t);
  st_sleep := fun ms t => t + Z.max 0 ms
|}.

Definition connection_lost : jsval :=
  JObj [("name", "Error"); ("message", "connection lost")].

(** The contended outcome of [readWithLock]: [reject(0)]. *)
Definition lock_contended : jsval := JNum 0.

(** Two callers race for the expired lock of ["a"], with different [ttl]s. *)
Definition racers : list thread :=
  [spawn (lock (JStr "a") (Some 300)); spawn (lock (JStr "a") (Some 1000))].

(** Caller 0 finds the lock expired and reads the clock for its candidate;
    meanwhile caller 1 runs its whole call and steals the lock. *)
Definition overtaken : list sched :=
  [Go 0; Go 0; Go 0; Go 0;
   Go 1; Go 1; Go 1; Go 1; Go 1; Go 1; Go 1; Go 1;
   Go 0]%nat.

(** ** Racing callers

    The time that passes during a schedule, and the points a [lock] call can
    be at while the lock it races for is not expired. *)

Fixpoint elapsed (sc : list sched) : Z :=
  match sc with
  | [] => 0
  | Tick d :: sc' => Z.max 0 d + elapsed sc'
  | Go _ :: sc' => elapsed sc'
  end.

(** The rest of [lock] after the [GET] returned [cur]. *)
Definition lock_check (lk : string) (ttl : Z) (cur : jsval) : prog outcome :=
  still_valid cur (fun held =>
  if held then Ret (Resolved (JNum 0))
  else
    _getTimeOut ttl (fun lockTimeOut =>
    Getset lk lockTimeOut (fun err prevLockTimeStamp =>
    await err (
    still_valid prevLockTimeStamp (fun held =>
    if held then Ret (Resolved (JNum 0))
    else Watch lk (Ret (Resolved (JNum 1)))))))).

(** The rest of [lock] after the [SETNX] replied 0. *)
Definition lock_get (lk : string) (ttl : Z) : prog outcome :=
  Get lk (fun err currentLockTimestamp =>
  await err (lock_check lk ttl currentLockTimestamp)).

(** The rest of [lock] after the first clock read. *)
Definition lock_setnx (lk : string) (ttl : Z) (now0 : Z) : prog outcome :=
  Setnx lk (now0 + ttl) (fun err tryToLock =>
  await err (
  if strict_eq_num tryToLock 1 then Watch lk (Ret (Resolved (JNum 1)))
  else lock_get lk ttl)).

Inductive phase : Type :=
| PStart
| PSetnx (now0 : Z)
| PWatch
| PGet
| PCheck (expiry : Z)
| PDone (v : Z).

Definition phase_prog (lk : string) (ttl : Z) (ph : phase) : prog outcome :=
  match ph with
  | PStart => Now (lock_setnx lk ttl)
  | PSetnx now0 => lock_setnx lk ttl now0
  | PWatch => Watch lk (Ret (Resolved (JNum 1)))
  | PGet => lock_get lk ttl
  | PCheck expiry => lock_check lk ttl (JStr (String_ expiry))
  | PDone v => Ret (Resolved (JNum v))
  end.

(** A caller that has not yet seen the lock taken. *)
Definition early (c0 : Z) (ph : phase) : Prop :=
  match ph with
  | PStart => True
  | PSetnx now0 => c0 <= now0
  | _ => False
  end.

(** The caller whose [SETNX] took the lock. *)
Definition winner (ph : phase) : Prop := ph = PWatch ∨ ph = PDone 1.

(** Any other caller. *)
Definition loser (c0 ttl : Z) (ph : phase) : Prop :=
  match ph with
  | PStart | PGet => True
  | PSetnx now0 => c0 <= now0
  | PCheck expiry => c0 + ttl <= expiry
  | PDone v => v = 0
  | PWatch => False
  end.

(** The race started at time [c0] on a free lock key [lk]: either the key is
    still free and every caller is early, or it holds an expiry not before
    [c0 + ttl] and exactly one caller is the winner. *)
Definition race_inv (lk : string) (c0 ttl : Z) (phs : list phase) (s : redis) : Prop :=
  c0 <= clock s ∧
  match db s !! lk with
  | None => Forall (early c0) phs
  | Some v =>
      ∃ (E : Z) (wi : nat),
        v = String_ E ∧ c0 + ttl <= E
        ∧ (∃ ph, phs !! wi = Some ph ∧ winner ph)
        ∧ ∀ j ph, j ≠ wi → phs !! j = Some ph → loser c0 ttl ph
  end.

(** Thread [t] is at phase [ph]. *)
Definition at_phase (lk : string) (ttl : Z) (t : thread) (ph : phase) : Prop :=
  code t = phase_prog lk ttl ph.

(** Three callers race for the free lock of ["a"]; caller 1 gets its [SETNX]
    in first, and 160 ms pass in all. *)
Definition three_way_race : list sched :=
  [Go 0; Go 1; Go 2; Tick 10; Go 1; Go 0; Go 2; Tick 100;
   Go 0; Go 2; Go 1; Tick 50; Go 0; Go 2]%nat.

(** ** Proof automation *)

Ltac split_trace H :=
  unfold store_ok, expiries_ok in H;
  repeat (rewrite ?Forall_app, ?Forall_cons in H; simpl in H).

Ltac case_reads E :=
  unfold clock_read in E;
  repeat match type of E with
         | context [truthy ?v] => destruct (truthy v) eqn:?
         end;
  simpl in E.

Ltac no_shape :=
  let E := fresh "E" in
  intros [(? & ? & E) | (? & ? & ? & ? & ? & ? & ? & ? & ? & ? & ? & ? & ? & E)];
  case_reads E; try discriminate E; injection E as E; subst;
  try congruence.

Ltac use_tests :=
  repeat match goal with
         | E : truthy ?v = _ |- context [truthy ?v] => rewrite E
         | E : strict_eq_num ?v ?n = _ |- context [strict_eq_num ?v ?n] => rewrite E
         end.


(** ** Further vocabulary: what a call addresses, and how often it tries *)

(** The event is a clock read or a command on the key [lk]. *)
Definition on_key (lk : string) (e : event) : Prop :=
  match e with
  | ENow _ => True
  | ESetnx k _ _ _ | EGet k _ _ | EGetset k _ _ _ | EWatch k => k = lk
  | EExec _ _ _ | ESleep _ => False
  end.

(** The durations of the sleeps of a trace, in order. *)
Definition sleeps (tr : list event) : list Z :=
  flat_map (fun e => match e with ESleep ms => [ms] | _ => [] end) tr.

(** The number of [SETNX] commands of a trace: one per [lock] call that got
    past the key check. *)
Definition setnx_count (tr : list event) : nat :=
  length (flat_map (fun e => match e with ESetnx _ _ _ _ => [e] | _ => [] end) tr).

(** The number of transactions of a trace: one per [readWithLock] or
    [unlock] call that got past the key check. *)
Definition exec_count (tr : list event) : nat :=
  length (flat_map (fun e => match e with EExec _ _ _ => [e] | _ => [] end) tr).

(** The lock on [lk] is held at the store's time: the key exists and its
    expiry is not before the clock. *)
Definition held (s : redis) (lk : string) : Prop :=
  ∃ E : Z, db s !! lk = Some (String_ E) ∧ clock s <= E.

(** The lock on [lk] is free at the store's time: the key is absent, or its
    expiry is before the clock. *)
Definition free_or_expired (s : redis) (lk : string) : Prop :=
  db s !! lk = None ∨ ∃ E : Z, db s !! lk = Some (String_ E) ∧ E < clock s.

(** The keys connection [c] watches. *)
Definition watched_by (c : nat) (s : redis) : gset string :=
  default ∅ (watching s !! c).

(** [n] attempts, [ra] apart, starting at the store's time, are all made
    while the expiry [E] has not passed. *)
Definition all_before_expiry (E ra : Z) (n : nat) (s : redis) : Prop :=
  n = 0%nat ∨ clock s + (Z.of_nat n - 1) * ra <= E.

(** Connection 0 acquired the lock of ["a"] at 1000 for 300 ms; at 1400
    connection 1 stole it, which marked connection 0. *)
Definition stolen_store : redis :=
  (run (redis_conn 1) (lock (JStr "a") (Some 300))
     (advance 400 (run (redis_conn 0) (lock (JStr "a") (Some 300)) (empty_redis 1000)).1.2)
  ).1.2.

(** ** Racing callers, on a key in any state

    The points a [lock] call can be at, the stealing path included. *)

(** The rest of [lock] after the [GETSET] returned [prev]. *)
Definition lock_check2 (lk : string) (prev : jsval) : prog outcome :=
  still_valid prev (fun held =>
  if held then Ret (Resolved (JNum 0))
  else Watch lk (Ret (Resolved (JNum 1)))).

(** The rest of [lock] after the second clock read. *)
Definition lock_getset (lk : string) (ttl : Z) (now2 : Z) : prog outcome :=
  Getset lk (now2 + ttl) (fun err prevLockTimeStamp =>
  await err (lock_check2 lk prevLockTimeStamp)).

Inductive rphase : Type :=
| RStart
| RSetnx (now0 : Z)
| RGet
| RCheck (cur : Z)
| RSteal
| RGetset (now2 : Z)
| RCheck2 (prev : Z)
| RWatch
| RDone (v : Z).

Definition rphase_prog (lk : string) (ttl : Z) (ph : rphase) : prog outcome :=
  match ph with
  | RStart => Now (lock_setnx lk ttl)
  | RSetnx now0 => lock_setnx lk ttl now0
  | RGet => lock_get lk ttl
  | RCheck cur => lock_check lk ttl (JStr (String_ cur))
  | RSteal => Now (lock_getset lk ttl)
  | RGetset now2 => lock_getset lk ttl now2
  | RCheck2 prev => lock_check2 lk (JStr (String_ prev))
  | RWatch => Watch lk (Ret (Resolved (JNum 1)))
  | RDone v => Ret (Resolved (JNum v))
  end.

(** The expiry [v0] found at the start has passed at time [now]. *)
Definition stale (v0 : option Z) (now : Z) : Prop :=
  ∃ E0 : Z, v0 = Some E0 ∧ E0 < now.

(** A caller while nobody has written the lock key yet; [v0] is the expiry
    the key held at the start, if any, and [c0] the time of the start. *)
Definition unwritten (c0 : Z) (v0 : option Z) (now : Z) (ph : rphase) : Prop :=
  match ph with
  | RStart => True
  | RSetnx now0 => c0 <= now0
  | RGet => is_Some v0
  | RCheck cur => v0 = Some cur
  | RSteal => stale v0 now
  | RGetset now2 => c0 <= now2 ∧ stale v0 now
  | RDone v => v = 0 ∧ ∃ E0 : Z, v0 = Some E0 ∧ c0 <= E0
  | RCheck2 _ | RWatch => False
  end.

(** The caller whose write took the lock. *)
Definition rwinner (now : Z) (ph : rphase) : Prop :=
  match ph with
  | RCheck2 prev => prev < now
  | RWatch => True
  | RDone v => v = 1
  | _ => False
  end.

(** Any other caller, once the lock is taken. *)
Definition rloser (c0 ttl : Z) (ph : rphase) : Prop :=
  match ph with
  | RStart | RGet | RCheck _ | RSteal => True
  | RSetnx now0 => c0 <= now0
  | RGetset now2 => c0 <= now2
  | RCheck2 prev => c0 + ttl <= prev
  | RDone v => v = 0
  | RWatch => False
  end.

(** The race started at time [c0] with the lock key holding [v0]: either
    nobody has written the key yet, or it holds an expiry not before
    [c0 + ttl] and exactly one caller is the winner.  [cur] is what the lock
    key holds and [now] the time. *)
Definition steal_inv (c0 ttl : Z) (v0 : option Z) (phs : list rphase)
    (cur : option string) (now : Z) : Prop :=
  c0 <= now ∧
  ((cur = String_ <$> v0 ∧ Forall (unwritten c0 v0 now) phs)
   ∨ ∃ (E : Z) (wi : nat),
       cur = Some (String_ E) ∧ c0 + ttl <= E
       ∧ (∃ ph, phs !! wi = Some ph ∧ rwinner now ph)
       ∧ ∀ j ph, j ≠ wi → phs !! j = Some ph → rloser c0 ttl ph).

(** Thread [t] is at phase [ph]. *)
Definition at_rphase (lk : string) (ttl : Z) (t : thread) (ph : rphase) : Prop :=
  code t = rphase_prog lk ttl ph.

(** Three callers race for the expired lock of ["a"]: all three find it
    expired before any of them sends its [GETSET]. *)
Definition steal_race : list sched :=
  [Go 0; Go 0; Go 0; Go 0; Go 1; Go 1; Go 1; Go 1; Go 2; Go 2; Go 2; Go 2;
   Tick 20;
   Go 2; Go 0; Go 2; Go 1; Go 0; Tick 30; Go 1; Go 2; Go 0; Go 1; Go 2]%nat.

(** * Properties *)

(** ** Coercions *)

Lemma ToNumber_String (t : Z) : ToNumber (String_ t) = Some t.
Proof.
  unfold ToNumber, String_.
  assert (H : NilZero.int_of_string (NilZero.string_of_int (Z.to_int t))
              = Some (Z.to_int t)).
  { apply NilZero.isi; destruct t; simpl; try discriminate;
      intros [= E]; revert E.
    - generalize (DecimalPos.Unsigned.to_uint_nonnil p). congruence.
    - generalize (DecimalPos.Unsigned.to_uint_nonnil p). congruence. }
  destruct (NilZero.string_of_int (Z.to_int t)) eqn:E.
  - simpl in H. discriminate.
  - rewrite H. simpl. f_equal. apply DecimalZ.of_to.
Qed.

Lemma String_nonempty (t : Z) : String_ t ≠ EmptyString.
Proof.
  intros E. pose proof (ToNumber_String t) as H. unfold ToNumber in H.
  rewrite E in H. injection H as <-. vm_compute in E. discriminate.
Qed.

Lemma truthy_String (t : Z) : truthy (JStr (String_ t)) = true.
Proof.
  simpl. destruct (String.eqb_spec (String_ t) EmptyString); [|reflexivity].
  now destruct (String_nonempty t).
Qed.

Lemma ge_num_String (t now : Z) : ge_num (JStr (String_ t)) now = (now <=? t).
Proof. simpl. now rewrite ToNumber_String. Qed.

Lemma valid_at_String (t now : Z) : valid_at (JStr (String_ t)) now = (now <=? t).
Proof. unfold valid_at. now rewrite truthy_String, ge_num_String. Qed.

Lemma String_inj (t u : Z) : String_ t = String_ u -> t = u.
Proof.
  intros E. pose proof (ToNumber_String t) as H. rewrite E, ToNumber_String in H.
  congruence.
Qed.
Lemma lock_run_path {W} (h : Store W) (w : W) (k : string) (ttl : Z) out w' tr :
  run h (lock (JStr k) (Some ttl)) w = (out, w', tr) ->
  lock_path (_makeKey k) ttl tr out.
Proof.
  unfold lock, await, still_valid, _getTimeOut. cbn [default from_option]. intros H. simpl in H.
  set (lk := _makeKey k) in *.
  destruct (st_now h w) as [n0 w0].
  destruct (st_setnx h lk (n0 + ttl) w0) as [[e1 r] w1].
  destruct (truthy e1) eqn:E1; simpl in H.
  { injection H as <- <- <-. now constructor. }
  destruct (strict_eq_num r 1) eqn:E2; simpl in H.
  { injection H as <- <- <-. now constructor. }
  destruct (st_get h lk w1) as [[e2 cur] w2].
  destruct (truthy e2) eqn:E3; simpl in H.
  { injection H as <- <- <-. now constructor. }
  assert (G : forall n1 wa o wz t, valid_at cur n1 = false ->
            run h (Now (fun now2 => Getset lk (now2 + ttl) (fun err prev =>
                   if truthy err then Ret Pending
                   else if truthy prev
                        then Now (fun now => if ge_num prev now
                                             then Ret (Resolved (JNum 0))
                                             else Watch lk (Ret (Resolved (JNum 1))))
                        else Watch lk (Ret (Resolved (JNum 1)))))) wa
            = (o, wz, t) ->
            lock_path lk ttl ([ENow n0; ESetnx lk (n0 + ttl) e1 r; EGet lk e2 cur]
                              ++ clock_read cur n1 ++ t) o).
  { clear H. intros n1 wa o wz t V H. simpl in H.
    destruct (st_now h wa) as [n2 wb].
    destruct (st_getset h lk (n2 + ttl) wb) as [[e3 prev] wc].
    destruct (truthy e3) eqn:E4; simpl in H.
    { injection H as <- <- <-. now constructor. }
    destruct (truthy prev) eqn:E5; simpl in H.
    - destruct (st_now h wc) as [n3 wd].
      destruct (ge_num prev n3) eqn:E6; simpl in H; injection H as <- <- <-.
      + apply lp_lost; auto. unfold valid_at. now rewrite E5, E6.
      + pose proof (lp_stolen lk ttl n0 e1 r e2 cur n1 n2 e3 prev n3) as P.
        unfold clock_read at 2 in P. rewrite E5 in P. apply P; auto.
        unfold valid_at. now rewrite E5, E6.
    - injection H as <- <- <-.
      pose proof (lp_stolen lk ttl n0 e1 r e2 cur n1 n2 e3 prev 0) as P.
      unfold clock_read at 2 in P. rewrite E5 in P. apply P; auto.
      unfold valid_at. now rewrite E5. }
  destruct (truthy cur) eqn:E4.
  - simpl in H. destruct (st_now h w2) as [n1 w3].
    destruct (ge_num cur n1) eqn:E5.
    + simpl in H. injection H as <- <- <-. apply lp_held; auto.
      unfold valid_at. now rewrite E4, E5.
    + destruct (run h _ w3) as [[a wz] t] eqn:R in H.
      injection H as <- <- <-.
      specialize (G n1 w3 a wz t). unfold clock_read in G. rewrite E4 in G.
      apply G; [unfold valid_at; now rewrite E4, E5 | exact R].
  - destruct (run h _ w2) as [[a wz] t] eqn:R in H.
    injection H as <- <- <-.
    specialize (G 0 w2 a wz t). unfold clock_read in G. rewrite E4 in G.
    apply G; [unfold valid_at; now rewrite E4 | exact R].
Qed.

Lemma not_valid_expiry (v : jsval) (now : Z) :
  expiry_reply v -> valid_at v now = false -> absent_or_before v now.
Proof.
  intros [-> | [t ->]] V; [now left | right].
  exists t. split; [reflexivity|]. rewrite valid_at_String in V. lia.
Qed.

Lemma strict_eq_num_true (v : jsval) (n : Z) :
  strict_eq_num v n = true <-> v = JNum n.
Proof.
  destruct v; simpl; split; try discriminate; try congruence.
  - intros E. f_equal. lia.
  - intros [= ->]. lia.
Qed.

Lemma present_and_live_valid (v : jsval) (now : Z) :
  present_and_live v now -> valid_at v now = true.
Proof. intros (t & -> & Le). rewrite valid_at_String. lia. Qed.

Lemma valid_expiry (v : jsval) (now : Z) :
  expiry_reply v -> valid_at v now = true -> present_and_live v now.
Proof.
  intros [-> | [t ->]] V; [discriminate|].
  exists t. split; [reflexivity|]. rewrite valid_at_String in V. lia.
Qed.

Lemma absent_or_before_valid (v : jsval) (now : Z) :
  absent_or_before v now -> valid_at v now = false.
Proof.
  intros [-> | (t & -> & Lt)]; [reflexivity|]. rewrite valid_at_String. lia.
Qed.

Lemma valid_at_truthy (v : jsval) (now : Z) : valid_at v now = true -> truthy v = true.
Proof. unfold valid_at. now intros [T _]%andb_true_iff. Qed.

(** C1.  A [lock(key, ttl)] call on a string key, whose store commands all
    succeed and whose lock key holds nothing or an expiry, goes through the
    protocol in order, and each reply decides the next step.  It reads the
    clock and sends [SETNX(lockKey, now + ttl)].  When the reply is 1 it
    watches the lock key and resolves acquired (1), and does nothing else.
    Otherwise it sends [GET(lockKey)]; the clock is read only when a value
    came back.  When that expiry is present and [>= now] it resolves not
    acquired (0) and does nothing else.  When it is absent or [< now] the
    call reads the clock again and sends [GETSET(lockKey, now + ttl)] with
    this fresh candidate; when the previous value is present and [>= now] it
    resolves not acquired and does nothing else, and when it is absent or
    [< now] it watches the lock key and resolves acquired.  Hence the call
    resolves acquired exactly on the two acquiring paths and not acquired
    otherwise, and the lock key is watched on the acquired paths and only on
    those. *)
Theorem lock_acquired_exactly_when {W} (h : Store W) (w : W) (k : string) (ttl : Z)
    (out : outcome) (w' : W) (tr : list event) :
  run h (lock (JStr k) (Some ttl)) w = (out, w', tr) ->
  store_ok tr -> expiries_ok tr ->
  (exists now0 e1 r rest,
      tr = ENow now0 :: ESetnx (_makeKey k) (now0 + ttl) e1 r :: rest
      /\ (r = JNum 1 -> out = Resolved (JNum 1) /\ rest = [EWatch (_makeKey k)])
      /\ (r <> JNum 1 ->
          exists e2 cur now1 rest1,
            rest = EGet (_makeKey k) e2 cur :: clock_read cur now1 ++ rest1
            /\ (present_and_live cur now1 \/ absent_or_before cur now1)
            /\ (present_and_live cur now1 -> out = Resolved (JNum 0) /\ rest1 = [])
            /\ (absent_or_before cur now1 ->
                exists now2 e3 prev now3 rest2,
                  rest1 = ENow now2 :: EGetset (_makeKey k) (now2 + ttl) e3 prev
                            :: clock_read prev now3 ++ rest2
                  /\ (present_and_live prev now3 \/ absent_or_before prev now3)
                  /\ (present_and_live prev now3 ->
                      out = Resolved (JNum 0) /\ rest2 = [])
                  /\ (absent_or_before prev now3 ->
                      out = Resolved (JNum 1) /\ rest2 = [EWatch (_makeKey k)]))))
  /\ (out = Resolved (JNum 1) <->
        won_by_setnx (_makeKey k) ttl tr \/ won_by_steal (_makeKey k) ttl tr)
  /\ (out = Resolved (JNum 1) \/ out = Resolved (JNum 0))
  /\ (In (EWatch (_makeKey k)) tr <-> out = Resolved (JNum 1)).
Proof.
  intros R Ok Ex. apply lock_run_path in R.
  set (lk := _makeKey k) in *.
  destruct R; split_trace Ok; split_trace Ex;
    try (exfalso; intuition congruence).
  - (* the SETNX replied 1 *)
    apply strict_eq_num_true in H0 as ->.
    split; [|split; [|split]]; [| | now left | simpl; intuition].
    + exists now0, e1, (JNum 1), [EWatch lk].
      split; [reflexivity|]. split; [now intros _ | now intros []].
    + split; [intros _; left; now exists now0, e1 | reflexivity].
  - (* the GET shows a live expiry *)
    split; [|split; [|split]]; [| | now right |].
    + exists now0, e1, r, [EGet lk e2 cur; ENow now1].
      split; [reflexivity|]. split.
      { intros ->. discriminate. }
      intros _. exists e2, cur, now1, []. unfold clock_read.
      rewrite (valid_at_truthy _ _ H2). split; [reflexivity|].
      split; [left; apply valid_expiry; intuition|].
      split; [now intros _|].
      intros A. apply absent_or_before_valid in A. congruence.
    + split; [discriminate|]. no_shape.
    + split; [|discriminate]. simpl. intuition discriminate.
  - (* the GETSET returned a live expiry *)
    split; [|split; [|split]]; [| | now right |].
    + exists now0, e1, r. eexists. split; [reflexivity|]. split.
      { intros ->. discriminate. }
      intros _. exists e2, cur, now1. eexists. split; [reflexivity|].
      split; [right; apply not_valid_expiry; intuition|].
      split.
      { intros P. apply present_and_live_valid in P. congruence. }
      intros _. exists now2, e3, prev, now3, []. unfold clock_read.
      rewrite (valid_at_truthy _ _ H4). split; [reflexivity|].
      split; [left; apply valid_expiry; intuition|].
      split; [now intros _|].
      intros A. apply absent_or_before_valid in A. congruence.
    + split; [discriminate|]. no_shape.
    + split; [|discriminate]. rewrite !in_app_iff. unfold clock_read.
      destruct (truthy cur); simpl; intuition discriminate.
  - (* stolen *)
    split; [|split; [|split]]; [| | now left |].
    + exists now0, e1, r. eexists. split; [reflexivity|]. split.
      { intros ->. discriminate. }
      intros _. exists e2, cur, now1. eexists. split; [reflexivity|].
      split; [right; apply not_valid_expiry; intuition|].
      split.
      { intros P. apply present_and_live_valid in P. congruence. }
      intros _. exists now2, e3, prev, now3, [EWatch lk].
      split; [reflexivity|].
      split; [right; apply not_valid_expiry; intuition|].
      split; [|now intros _].
      intros P. apply present_and_live_valid in P. congruence.
    + split; [|reflexivity]. intros _. right.
      exists now0, e1, r, e2, cur, now1, now2, e3, prev, now3.
      split; [|split; [|split]]; [| | | reflexivity].
      * intros ->. discriminate.
      * apply not_valid_expiry; [|assumption]. intuition.
      * apply not_valid_expiry; [|assumption]. intuition.
    + split; [reflexivity|]. intros _. rewrite !in_app_iff. simpl. intuition.
Qed.

Lemma lock_acquired_exactly_when_witness :
  let r := run (redis_conn 0) (lock (JStr "a") (Some 300)) stale_store in
  r.2 = [ENow 1300; ESetnx "lock-a" 1600 JNull (JNum 0);
         EGet "lock-a" JNull (JStr "1200"); ENow 1300;
         ENow 1300; EGetset "lock-a" 1600 JNull (JStr "1200");
         ENow 1300; EWatch "lock-a"]
  /\ store_ok r.2 /\ expiries_ok r.2
  /\ (r.1.1 = Resolved (JNum 1) <->
        won_by_setnx (_makeKey "a") 300 r.2 \/ won_by_steal (_makeKey "a") 300 r.2)
  /\ (In (EWatch (_makeKey "a")) r.2 <-> r.1.1 = Resolved (JNum 1)).
Proof.
  intros r.
  assert (T : r.2 = [ENow 1300; ESetnx "lock-a" 1600 JNull (JNum 0);
                     EGet "lock-a" JNull (JStr "1200"); ENow 1300;
                     ENow 1300; EGetset "lock-a" 1600 JNull (JStr "1200");
                     ENow 1300; EWatch "lock-a"]) by (vm_compute; reflexivity).
  assert (Ok : store_ok r.2) by (rewrite T; repeat constructor).
  assert (Ex : expiries_ok r.2).
  { rewrite T. unfold expiries_ok.
    repeat first [apply Forall_nil_2 | apply Forall_cons_2];
      try exact I; right; exists 1200; reflexivity. }
  destruct (lock_acquired_exactly_when (redis_conn 0) stale_store "a" 300
              r.1.1 r.1.2 r.2) as (_ & A & _ & B); try assumption.
  - subst r. now destruct (run _ _ _) as [[? ?] ?].
  - repeat split; try assumption; try apply A; try apply B.
Defined.
(** ** Sequencing *)

Lemma run_bind {W A B} (h : Store W) (p : prog A) (f : A -> prog B) (w : W) :
  run h (bind p f) w =
  let '(a, w1, t1) := run h p w in
  let '(b, w2, t2) := run h (f a) w1 in
  (b, w2, t1 ++ t2).
Proof.
  revert w. induction p as [a|k IH|key v k IH|key k IH|key v k IH|key k IH|ops k IH|ms k IH];
    intros w; simpl.
  - now destruct (run h (f a) w) as [[b w2] t2].
  - destruct (st_now h w) as [n w1]. rewrite IH.
    destruct (run h (k n) w1) as [[a w2] t1].
    now destruct (run h (f a) w2) as [[b w3] t2].
  - destruct (st_setnx h key v w) as [[e r] w1]. rewrite IH.
    destruct (run h (k e r) w1) as [[a w2] t1].
    now destruct (run h (f a) w2) as [[b w3] t2].
  - destruct (st_get h key w) as [[e r] w1]. rewrite IH.
    destruct (run h (k e r) w1) as [[a w2] t1].
    now destruct (run h (f a) w2) as [[b w3] t2].
  - destruct (st_getset h key v w) as [[e r] w1]. rewrite IH.
    destruct (run h (k e r) w1) as [[a w2] t1].
    now destruct (run h (f a) w2) as [[b w3] t2].
  - rewrite IH.
    destruct (run h k (st_watch h key w)) as [[a w2] t1].
    now destruct (run h (f a) w2) as [[b w3] t2].
  - destruct (st_exec h ops w) as [[e r] w1]. rewrite IH.
    destruct (run h (k e r) w1) as [[a w2] t1].
    now destruct (run h (f a) w2) as [[b w3] t2].
  - rewrite IH.
    destruct (run h k (st_sleep h ms w)) as [[a w2] t1].
    now destruct (run h (f a) w2) as [[b w3] t2].
Qed.

(** ** The retry loops *)

Section Loops.
Context {W : Type} (h : Store W).

Lemma retryableLock_loop_rounds (key : jsval) (ttl ra m : Z) :
  forall (n fuel : nat) (a : Z) (w : W),
    lock_fails h n key ttl ra w ->
    m < 1 \/ a + Z.of_nat n <= m ->
    run h (retryableLock_loop (n + fuel) key ttl ra m a) w =
    let '(w1, t1) := lock_rounds h n key ttl ra w in
    let '(o, w2, t2) := run h (retryableLock_loop fuel key ttl ra m (a + Z.of_nat n)) w1 in
    (o, w2, t1 ++ t2).
Proof.
  induction n as [|n IH]; intros fuel a w F Hm.
  - cbn [lock_rounds Nat.add]. rewrite Z.add_0_r.
    now destruct (run h _ w) as [[o w2] t2].
  - cbn [lock_rounds lock_fails Nat.add retryableLock_loop] in *.
    replace ((m <? 1) || (a <? m)) with true
      by (symmetry; apply orb_true_iff; lia).
    rewrite run_bind.
    destruct (run h (lock key (Some ttl)) w) as [[o w1] t1].
    destruct F as [-> F]. unfold _sleep. cbn [strict_eq_num Z.eqb run].
    rewrite (IH fuel (a + 1) _ F) by lia.
    destruct (lock_rounds h n key ttl ra _) as [w2 t2].
    replace (a + 1 + Z.of_nat n) with (a + Z.of_nat (S n)) by lia.
    destruct (run h _ w2) as [[o' w3] t3].
    now rewrite <- app_assoc.
Qed.
End Loops.

(** C6.  Against a store on which every attempt of [lock] resolves not
    acquired: for [maxAttempts >= 1], [retryableLock] makes exactly
    [maxAttempts] calls to [lock], sleeps [retryAfter] after each, and then
    resolves not acquired (0); for [maxAttempts < 1] (0, or omitted) it is
    still looping after any number [n] of failed attempts, and resolves
    acquired right after the first attempt that succeeds. *)
Theorem retryableLock_attempts {W} (h : Store W) (key : jsval) (ttl ra : Z) (w : W) :
  (forall (m : Z) (fuel : nat),
      1 <= m -> (Z.to_nat m < fuel)%nat ->
      lock_fails h (Z.to_nat m) key ttl ra w ->
      run h (retryableLock fuel key (Some ttl) (Some ra) (Some m)) w =
      (Some (Resolved (JNum 0)),
       (lock_rounds h (Z.to_nat m) key ttl ra w).1,
       (lock_rounds h (Z.to_nat m) key ttl ra w).2))
  /\ (forall (mo : option Z) (n : nat),
         default 0 mo < 1 ->
         lock_fails h n key ttl ra w ->
         run h (retryableLock n key (Some ttl) (Some ra) mo) w =
         (None, (lock_rounds h n key ttl ra w).1, (lock_rounds h n key ttl ra w).2)
         /\ forall (fuel : nat) (w1 : W) (t1 : list event),
             (n < fuel)%nat ->
             run h (lock key (Some ttl)) (lock_rounds h n key ttl ra w).1
             = (Resolved (JNum 1), w1, t1) ->
             run h (retryableLock fuel key (Some ttl) (Some ra) mo) w =
             (Some (Resolved (JNum 1)), w1, (lock_rounds h n key ttl ra w).2 ++ t1)).
Proof.
  unfold retryableLock. cbn [default from_option id]. split.
  - intros m fuel Hm Hf F.
    replace fuel with (Z.to_nat m + (fuel - Z.to_nat m))%nat by lia.
    rewrite retryableLock_loop_rounds by (try assumption; lia).
    destruct (lock_rounds h _ key ttl ra w) as [w1 t1]. cbn [fst snd].
    destruct (fuel - Z.to_nat m)%nat as [|f] eqn:E; [lia|].
    cbn [retryableLock_loop]. rewrite Z2Nat.id by lia.
    replace ((m <? 1) || (0 + m <? m)) with false
      by (symmetry; apply orb_false_iff; lia).
    cbn [run]. now rewrite app_nil_r.
  - intros mo n Hm F. set (m := default 0 mo) in *. split.
    + replace n with (n + 0)%nat at 1 by lia.
      rewrite retryableLock_loop_rounds by (try assumption; lia).
      destruct (lock_rounds h n key ttl ra w) as [w1 t1]. cbn [fst snd].
      cbn [retryableLock_loop run]. now rewrite app_nil_r.
    + intros fuel w1 t1 Hf R.
      replace fuel with (n + (fuel - n))%nat by lia.
      rewrite retryableLock_loop_rounds by (try assumption; lia).
      destruct (lock_rounds h n key ttl ra w) as [w0 t0]. cbn [fst snd] in *.
      destruct (fuel - n)%nat as [|f] eqn:E; [lia|].
      cbn [retryableLock_loop].
      replace ((m <? 1) || (0 + Z.of_nat n <? m)) with true
        by (symmetry; apply orb_true_iff; lia).
      rewrite run_bind, R. cbn [strict_eq_num Z.eqb Pos.eqb run].
      now rewrite app_nil_r.
Qed.

Lemma retryableLock_attempts_witness :
  run (redis_conn 0) (retryableLock 5 (JStr "a") (Some 300) (Some 50) (Some 3)) held_store
  = (Some (Resolved (JNum 0)),
     (lock_rounds (redis_conn 0) 3 (JStr "a") 300 50 held_store).1,
     (lock_rounds (redis_conn 0) 3 (JStr "a") 300 50 held_store).2)
  /\ run (redis_conn 0) (retryableLock 2 (JStr "a") (Some 300) (Some 150) None) held_store
     = (None,
        (lock_rounds (redis_conn 0) 2 (JStr "a") 300 150 held_store).1,
        (lock_rounds (redis_conn 0) 2 (JStr "a") 300 150 held_store).2)
  /\ (run (redis_conn 0) (retryableLock 9 (JStr "a") (Some 300) (Some 150) None) held_store).1.1
     = Some (Resolved (JNum 1)).
Proof.
  split; [|split].
  - apply (proj1 (retryableLock_attempts (redis_conn 0) (JStr "a") 300 50 held_store) 3 5%nat).
    + lia.
    + vm_compute. lia.
    + vm_compute. tauto.
  - apply (proj2 (retryableLock_attempts (redis_conn 0) (JStr "a") 300 150 held_store) None 2%nat).
    + simpl. lia.
    + vm_compute. tauto.
  - destruct (proj2 (retryableLock_attempts (redis_conn 0) (JStr "a") 300 150 held_store)
                None 2%nat) as [_ H].
    + simpl. lia.
    + vm_compute. tauto.
    + erewrite H; [reflexivity | lia |].
      vm_compute. reflexivity.
Defined.
Section ReadLoop.
Context {W : Type} (h : Store W).

Lemma readWithRetryableLock_loop_rounds (key : jsval) (ra m : Z) :
  forall (n fuel : nat) (a : Z) (w : W),
    read_contended h n key ra w ->
    m < 1 \/ a + Z.of_nat n <= m ->
    run h (readWithRetryableLock_loop (n + fuel) key ra m a) w =
    let '(w1, t1) := read_rounds h n key ra w in
    let '(o, w2, t2) :=
      run h (readWithRetryableLock_loop fuel key ra m (a + Z.of_nat n)) w1 in
    (o, w2, t1 ++ t2).
Proof.
  induction n as [|n IH]; intros fuel a w F Hm.
  - cbn [read_rounds Nat.add]. rewrite Z.add_0_r.
    now destruct (run h _ w) as [[o w2] t2].
  - cbn [read_rounds read_contended Nat.add readWithRetryableLock_loop] in *.
    replace ((m <? 1) || (a <? m)) with true
      by (symmetry; apply orb_true_iff; lia).
    rewrite run_bind.
    destruct (run h (readWithLock key) w) as [[o w1] t1].
    destruct F as [-> F]. unfold _sleep. cbn [strict_eq_num Z.eqb negb run].
    rewrite (IH fuel (a + 1) _ F) by lia.
    destruct (read_rounds h n key ra _) as [w2 t2].
    replace (a + 1 + Z.of_nat n) with (a + Z.of_nat (S n)) by lia.
    destruct (run h _ w2) as [[o' w3] t3].
    now rewrite <- app_assoc.
Qed.
End ReadLoop.

Lemma strict_eq_num_false (v : jsval) (n : Z) :
  v <> JNum n -> strict_eq_num v n = false.
Proof.
  intros Hv. destruct (strict_eq_num v n) eqn:E; [|reflexivity].
  now apply strict_eq_num_true in E.
Qed.

(** Rejections pass through the wrappers.  After any number [n] of attempts
    that failed by contention, within the attempt budget: when the next
    [lock] rejects with [e], [retryableLock] rejects with [e] and its events
    end with that attempt; when the next [readWithLock] rejects with an [e]
    other than the contended outcome, [readWithRetryableLock] rejects with
    [e] and its events end with that attempt; and when all
    [maxAttempts >= 1] reads are contended, [readWithRetryableLock] rejects
    with the contended outcome. *)
Lemma retry_wrappers_propagate {W} (h : Store W) (key : jsval) (ra : Z) (w : W) :
  (forall (ttl : Z) (mo : option Z) (n fuel : nat) (e : jsval) (w1 : W) (t1 : list event),
      (n < fuel)%nat ->
      default 0 mo < 1 \/ Z.of_nat n < default 0 mo ->
      lock_fails h n key ttl ra w ->
      run h (lock key (Some ttl)) (lock_rounds h n key ttl ra w).1 = (Rejected e, w1, t1) ->
      run h (retryableLock fuel key (Some ttl) (Some ra) mo) w =
      (Some (Rejected e), w1, (lock_rounds h n key ttl ra w).2 ++ t1))
  /\ (forall (mo : option Z) (n fuel : nat) (e : jsval) (w1 : W) (t1 : list event),
         (n < fuel)%nat ->
         default 0 mo < 1 \/ Z.of_nat n < default 0 mo ->
         read_contended h n key ra w ->
         run h (readWithLock key) (read_rounds h n key ra w).1 = (Rejected e, w1, t1) ->
         e <> JNum 0 ->
         run h (readWithRetryableLock fuel key (Some ra) mo) w =
         (Some (Rejected e), w1, (read_rounds h n key ra w).2 ++ t1))
  /\ (forall (m : Z) (fuel : nat),
         1 <= m -> (Z.to_nat m < fuel)%nat ->
         read_contended h (Z.to_nat m) key ra w ->
         run h (readWithRetryableLock fuel key (Some ra) (Some m)) w =
         (Some (Rejected (JNum 0)),
          (read_rounds h (Z.to_nat m) key ra w).1,
          (read_rounds h (Z.to_nat m) key ra w).2)).
Proof.
  unfold retryableLock, readWithRetryableLock. cbn [default from_option id].
  split; [|split].
  - intros ttl mo n fuel e w1 t1 Hf Hm F R. set (m := default 0 mo) in *.
    replace fuel with (n + (fuel - n))%nat by lia.
    rewrite retryableLock_loop_rounds by (try assumption; lia).
    destruct (lock_rounds h n key ttl ra w) as [w0 t0]. cbn [fst snd] in *.
    destruct (fuel - n)%nat as [|f] eqn:E; [lia|].
    cbn [retryableLock_loop].
    replace ((m <? 1) || (0 + Z.of_nat n <? m)) with true
      by (symmetry; apply orb_true_iff; lia).
    rewrite run_bind, R. cbn [run]. now rewrite app_nil_r.
  - intros mo n fuel e w1 t1 Hf Hm F R Ne. set (m := default 0 mo) in *.
    replace fuel with (n + (fuel - n))%nat by lia.
    rewrite readWithRetryableLock_loop_rounds by (try assumption; lia).
    destruct (read_rounds h n key ra w) as [w0 t0]. cbn [fst snd] in *.
    destruct (fuel - n)%nat as [|f] eqn:E; [lia|].
    cbn [readWithRetryableLock_loop].
    replace ((m <? 1) || (0 + Z.of_nat n <? m)) with true
      by (symmetry; apply orb_true_iff; lia).
    rewrite run_bind, R, (strict_eq_num_false e 0 Ne). cbn [negb run].
    now rewrite app_nil_r.
  - intros m fuel Hm Hf F.
    replace fuel with (Z.to_nat m + (fuel - Z.to_nat m))%nat by lia.
    rewrite readWithRetryableLock_loop_rounds by (try assumption; lia).
    destruct (read_rounds h _ key ra w) as [w1 t1]. cbn [fst snd].
    destruct (fuel - Z.to_nat m)%nat as [|f] eqn:E; [lia|].
    cbn [readWithRetryableLock_loop]. rewrite Z2Nat.id by lia.
    replace ((m <? 1) || (0 + m <? m)) with false
      by (symmetry; apply orb_false_iff; lia).
    cbn [run]. now rewrite app_nil_r.
Qed.

(** ** Store errors in the retry wrappers *)

Lemma store_ok_clock_read (v : jsval) (now : Z) : store_ok (clock_read v now).
Proof. unfold clock_read, store_ok. destruct (truthy v); repeat constructor. Qed.

(** The promise of [lock] stays pending exactly when one of its store
    commands failed. *)
Lemma lock_pending_iff {W} (h : Store W) (w : W) (key : jsval) (ttl : Z)
    (out : outcome) (w' : W) (tr : list event) :
  run h (lock key (Some ttl)) w = (out, w', tr) ->
  out = Pending <-> ~ store_ok tr.
Proof.
  intros R. destruct key as [| |b|n|k|o];
    try (injection R as <- <- <-; split; [discriminate | intros N; destruct N; constructor]).
  apply lock_run_path in R.
  destruct R; (split; [intros O; try discriminate O | intros N]);
    try reflexivity;
    try (intros Ok; split_trace Ok; intuition congruence);
    try (exfalso; apply N; unfold store_ok;
         rewrite ?Forall_app; repeat split;
         repeat first [apply Forall_nil_2 | apply Forall_cons_2];
         try assumption; try reflexivity;
         try apply store_ok_clock_read).
Qed.

(** A failed command of [readWithLock] is its transaction, and the call
    rejects with the transaction's error. *)
Lemma readWithLock_store_error {W} (h : Store W) (w : W) (k : string)
    (out : outcome) (w' : W) (tr : list event) :
  run h (readWithLock (JStr k)) w = (out, w', tr) ->
  ~ store_ok tr ->
  exists e res, truthy e = true /\ out = Rejected e
    /\ tr = [EExec [OpGet (_makeKey k); OpGet k] e res].
Proof.
  unfold readWithLock. cbn [run]. intros R N.
  destruct (st_exec h _ w) as [[e res] w1].
  destruct (truthy e) eqn:T.
  - cbn [run] in R. injection R as <- <- <-. now exists e, res.
  - exfalso. apply N. destruct res as [res|].
    + unfold still_valid in R. destruct (truthy (nth 0 res JUndefined)).
      * cbn [run] in R. destruct (st_now h w1) as [n w2].
        destruct (ge_num _ n); cbn [run] in R; injection R as <- <- <-;
          repeat constructor; assumption.
      * cbn [run] in R. injection R as <- <- <-. repeat constructor; assumption.
    + cbn [run] in R. injection R as <- <- <-. repeat constructor; assumption.
Qed.

(** C7 fails for [retryableLock] on a store error.  After any number [n] of
    attempts that resolved not acquired, within the attempt budget: when a
    store command of the next [lock] fails, [retryableLock] neither rejects
    nor resolves nor tries again.  Its promise stays pending, with the failed
    command as its last event: the error is not passed on to the caller,
    because [lock] awaits the command inside its [async] executor and never
    calls [reject].  On the same kind of failure [readWithRetryableLock] does
    what the claim says: the failed command is the transaction of
    [readWithLock], and the wrapper rejects with its error at once. *)
Theorem retryableLock_swallows_store_error {W} (h : Store W) (k : string) (ra : Z)
    (w : W) (mo : option Z) (n fuel : nat) :
  (n < fuel)%nat ->
  default 0 mo < 1 \/ Z.of_nat n < default 0 mo ->
  (forall (ttl : Z) (o : outcome) (w1 : W) (t1 : list event),
      lock_fails h n (JStr k) ttl ra w ->
      run h (lock (JStr k) (Some ttl)) (lock_rounds h n (JStr k) ttl ra w).1 = (o, w1, t1) ->
      ~ store_ok t1 ->
      run h (retryableLock fuel (JStr k) (Some ttl) (Some ra) mo) w =
      (Some Pending, w1, (lock_rounds h n (JStr k) ttl ra w).2 ++ t1))
  /\ (forall (o : outcome) (w1 : W) (t1 : list event),
         read_contended h n (JStr k) ra w ->
         run h (readWithLock (JStr k)) (read_rounds h n (JStr k) ra w).1 = (o, w1, t1) ->
         ~ store_ok t1 ->
         exists e res,
           truthy e = true
           /\ t1 = [EExec [OpGet (_makeKey k); OpGet k] e res]
           /\ run h (readWithRetryableLock fuel (JStr k) (Some ra) mo) w =
              (Some (Rejected e), w1, (read_rounds h n (JStr k) ra w).2 ++ t1)).
Proof.
  intros Hf Hm. split.
  - intros ttl o w1 t1 F R N.
    apply (lock_pending_iff h _ _ _ _ _ _ R) in N. subst o.
    unfold retryableLock. cbn [default from_option id]. set (m := default 0 mo) in *.
    replace fuel with (n + (fuel - n))%nat by lia.
    rewrite retryableLock_loop_rounds by (try assumption; lia).
    destruct (lock_rounds h n (JStr k) ttl ra w) as [w0 t0]. cbn [fst snd] in *.
    destruct (fuel - n)%nat as [|f] eqn:E; [lia|].
    cbn [retryableLock_loop].
    replace ((m <? 1) || (0 + Z.of_nat n <? m)) with true
      by (symmetry; apply orb_true_iff; lia).
    rewrite run_bind, R. cbn [run]. now rewrite app_nil_r.
  - intros o w1 t1 F R N.
    destruct (readWithLock_store_error h _ _ _ _ _ R N) as (e & res & T & -> & ->).
    exists e, res. split; [assumption|]. split; [reflexivity|].
    apply (proj1 (proj2 (retry_wrappers_propagate h (JStr k) ra w))); try assumption.
    intros ->. discriminate T.
Qed.

Lemma retryableLock_swallows_store_error_witness :
  ~ store_ok [ENow 1000; ESetnx "lock-a" 1500 connection_lost JUndefined]
  /\ run (broken_store connection_lost)
       (retryableLock 5 (JStr "a") (Some 500) (Some 150) (Some 3)) 1000
     = (Some Pending, 1000,
        [ENow 1000; ESetnx "lock-a" 1500 connection_lost JUndefined])
  /\ exists e res,
       truthy e = true
       /\ [EExec [OpGet "lock-a"; OpGet "a"] connection_lost None]
          = [EExec [OpGet (_makeKey "a"); OpGet "a"] e res]
       /\ run (broken_store connection_lost)
            (readWithRetryableLock 5 (JStr "a") (Some 150) (Some 3)) 1000
          = (Some (Rejected e), 1000,
             [EExec [OpGet "lock-a"; OpGet "a"] connection_lost None]).
Proof.
  assert (N : ~ store_ok [ENow 1000; ESetnx "lock-a" 1500 connection_lost JUndefined]).
  { intros Ok. split_trace Ok. destruct Ok as (_ & Ok & _). discriminate Ok. }
  assert (N' : ~ store_ok [EExec [OpGet "lock-a"; OpGet "a"] connection_lost None]).
  { intros Ok. split_trace Ok. destruct Ok as (Ok & _). discriminate Ok. }
  split; [exact N|]. split.
  - apply (proj1 (retryableLock_swallows_store_error (broken_store connection_lost)
                    "a" 150 1000 (Some 3) 0%nat 5%nat ltac:(lia)
                    ltac:(right; simpl; lia))
             500 Pending 1000
             [ENow 1000; ESetnx "lock-a" 1500 connection_lost JUndefined]).
    + exact I.
    + reflexivity.
    + exact N.
  - apply (proj2 (retryableLock_swallows_store_error (broken_store connection_lost)
                    "a" 150 1000 (Some 3) 0%nat 5%nat ltac:(lia)
                    ltac:(right; simpl; lia))
             (Rejected connection_lost) 1000
             [EExec [OpGet "lock-a"; OpGet "a"] connection_lost None]).
    + exact I.
    + reflexivity.
    + exact N'.
Defined.

(** ** Single calls on the store model *)

(** C4.  [readWithLock] on a string key sends one transaction reading
    [(lockKey, key)].  When the transaction does not fail and its first
    result is nothing or an expiry, the call fails with the contended
    outcome (0) exactly when the transaction aborted or that expiry is
    present and [>= now], and in every other case it resolves with the second
    result; on the store model that is the value stored at [key], null when
    there is none. *)
Theorem readWithLock_contended_exactly_when (k : string) :
  (forall W (h : Store W) (w : W) (out : outcome) (w' : W) (tr : list event),
      run h (readWithLock (JStr k)) w = (out, w', tr) ->
      store_ok tr ->
      exists (err : jsval) (res : option (list jsval)) (now : Z),
        tr = EExec [OpGet (_makeKey k); OpGet k] err res
               :: match res with
                  | Some l => clock_read (nth 0 l JUndefined) now
                  | None => []
                  end
        /\ ((forall l, res = Some l -> expiry_reply (nth 0 l JUndefined)) ->
            (out = Rejected (JNum 0) <->
               res = None
               \/ exists l, res = Some l /\ present_and_live (nth 0 l JUndefined) now)
            /\ (out <> Rejected (JNum 0) ->
                exists l, res = Some l /\ out = Resolved (nth 1 l JUndefined))))
  /\ (forall (c : nat) (s : redis),
         (run (redis_conn c) (readWithLock (JStr k)) s).1.1 =
         if decide (c ∈ dirty s) then Rejected (JNum 0)
         else if valid_at (bulk (db s !! _makeKey k)) (clock s) then Rejected (JNum 0)
              else Resolved (bulk (db s !! k))).
Proof.
  split.
  - intros W h w out w' tr R Ok.
    unfold readWithLock, still_valid in R. cbn [run] in R.
    set (lk := _makeKey k) in *.
    destruct (st_exec h [OpGet lk; OpGet k] w) as [[err res] w1].
    destruct (truthy err) eqn:E.
    { cbn [run] in R. injection R as <- <- <-. split_trace Ok.
      exfalso. destruct Ok as [Ok _]. congruence. }
    destruct res as [l|]; cbn [run] in R.
    + remember (nth 0 l JUndefined) as cur eqn:Hcur.
      destruct (truthy cur) eqn:T; cbn [run] in R.
      * destruct (st_now h w1) as [now w2]. exists err, (Some l), now.
        cbv beta iota. unfold clock_read. rewrite <- Hcur, T.
        destruct (ge_num cur now) eqn:G; cbn [run] in R; injection R as <- <- <-.
        -- split; [reflexivity|]. intros Ex. split.
           ++ split; [|reflexivity]. intros _. right. exists l. split; [reflexivity|].
              rewrite <- Hcur. apply valid_expiry; [rewrite Hcur; now apply Ex|]. unfold valid_at. now rewrite T, G.
           ++ congruence.
        -- split; [reflexivity|]. intros Ex. split.
           ++ split; [discriminate|]. intros [[=] | (l' & [= <-] & P)].
              apply present_and_live_valid in P. unfold valid_at in P. rewrite <- Hcur in P.
              rewrite T, G in P. discriminate.
           ++ intros _. now exists l.
      * injection R as <- <- <-. exists err, (Some l), 0.
        cbv beta iota. unfold clock_read. rewrite <- Hcur, T.
        split; [reflexivity|]. intros Ex. split.
        -- split; [discriminate|]. intros [[=] | (l' & [= <-] & P)].
           apply present_and_live_valid in P. unfold valid_at in P. rewrite <- Hcur in P.
           rewrite T in P. discriminate.
        -- intros _. now exists l.
    + injection R as <- <- <-. exists err, None, 0. split; [reflexivity|].
      intros _. split; [tauto|congruence].
  - intros c s. unfold readWithLock, still_valid. cbn [run redis_conn st_exec].
    unfold redis_exec. destruct (decide (c ∈ dirty s)); [reflexivity|].
    cbn [redis_ops redis_op truthy nth run]. unfold valid_at.
    destruct (truthy (bulk (db s !! _makeKey k))); cbn [run st_now andb unwatch clock];
      [|reflexivity].
    cbn. now destruct (ge_num _ _).
Qed.
Lemma readWithLock_contended_exactly_when_witness :
  let tr := [EExec [OpGet "lock-a"; OpGet "a"] JNull (Some [JStr "1200"; JNull]);
             ENow 1000] in
  (exists (err : jsval) (res : option (list jsval)) (now : Z),
      tr = EExec [OpGet (_makeKey "a"); OpGet "a"] err res
             :: match res with
                | Some l => clock_read (nth 0 l JUndefined) now
                | None => []
                end
      /\ ((forall l, res = Some l -> expiry_reply (nth 0 l JUndefined)) ->
          (Rejected (JNum 0) = Rejected (JNum 0) <->
             res = None
             \/ exists l, res = Some l /\ present_and_live (nth 0 l JUndefined) now)
          /\ (Rejected (JNum 0) <> Rejected (JNum 0) ->
              exists l, res = Some l /\ Rejected (JNum 0) = Resolved (nth 1 l JUndefined))))
  /\ (run (redis_conn 0) (readWithLock (JStr "a")) stale_store).1.1 = Resolved JNull.
Proof.
  intros tr. destruct (readWithLock_contended_exactly_when "a") as [G R]. split.
  - apply (G redis (redis_conn 0) held_store (Rejected (JNum 0))
             (run (redis_conn 0) (readWithLock (JStr "a")) held_store).1.2 tr).
    + vm_compute. reflexivity.
    + repeat constructor.
  - rewrite R. vm_compute. reflexivity.
Defined.

(** C5.  [unlock] on a string key sends one transaction deleting the lock
    key.  When the transaction does not fail, the call resolves 0 if it
    aborted and the first result otherwise; on the store model that result is
    the number of keys deleted, 1 when the lock key existed and 0 when it did
    not, the key is gone unless the transaction aborted, and [unlock] of a
    key that is already free resolves 0. *)
Theorem unlock_resolves_count (k : string) :
  (forall W (h : Store W) (w : W) (out : outcome) (w' : W) (tr : list event),
      run h (unlock (JStr k)) w = (out, w', tr) ->
      store_ok tr ->
      exists (err : jsval) (res : option (list jsval)),
        tr = [EExec [OpDel (_makeKey k)] err res]
        /\ out = Resolved match res with
                          | None => JNum 0
                          | Some l => nth 0 l JUndefined
                          end)
  /\ (forall (c : nat) (s : redis) (out : outcome) (s' : redis) (tr : list event),
         run (redis_conn c) (unlock (JStr k)) s = (out, s', tr) ->
         out = Resolved (JNum (if decide (c ∈ dirty s) then 0
                               else match db s !! _makeKey k with
                                    | Some _ => 1
                                    | None => 0
                                    end))
         /\ db s' = (if decide (c ∈ dirty s) then db s else delete (_makeKey k) (db s))
         /\ (db s !! _makeKey k = None -> out = Resolved (JNum 0))).
Proof.
  split.
  - intros W h w out w' tr R Ok. unfold unlock in R. cbn [run] in R.
    destruct (st_exec h [OpDel (_makeKey k)] w) as [[err res] w1].
    destruct (truthy err) eqn:E.
    { cbn [run] in R. injection R as <- <- <-. split_trace Ok.
      exfalso. destruct Ok as [Ok _]. congruence. }
    exists err, res. destruct res; cbn [run] in R; injection R as <- <- <-; now split.
  - intros c s out s' tr. unfold unlock. cbn [run redis_conn st_exec].
    unfold redis_exec. destruct (decide (c ∈ dirty s)).
    + cbn. intros [= <- <- <-]. auto.
    + cbn [redis_ops redis_op]. destruct (db s !! _makeKey k) eqn:L; cbn;
        intros [= <- <- <-]; repeat split; try discriminate.
      symmetry. now apply delete_id.
Qed.

Lemma unlock_resolves_count_witness :
  (exists (err : jsval) (res : option (list jsval)),
      [EExec [OpDel "lock-a"] JNull (Some [JNum 1])] = [EExec [OpDel (_makeKey "a")] err res]
      /\ Resolved (JNum 1) = Resolved match res with
                                      | None => JNum 0
                                      | Some l => nth 0 l JUndefined
                                      end)
  /\ (run (redis_conn 0) (unlock (JStr "a")) (empty_redis 1000)).1.1 = Resolved (JNum 0).
Proof.
  destruct (unlock_resolves_count "a") as [G R]. split.
  - apply (G redis (redis_conn 0) held_store (Resolved (JNum 1))
             (run (redis_conn 0) (unlock (JStr "a")) held_store).1.2).
    + vm_compute. reflexivity.
    + repeat constructor.
  - destruct (run (redis_conn 0) (unlock (JStr "a")) (empty_redis 1000))
      as [[out s'] tr] eqn:E.
    apply R in E as (_ & _ & E). apply E. reflexivity.
Defined.

(** C8.  With a key that is not a string, [lock], [unlock] and
    [readWithLock] are the program that fails with the key error and sends
    nothing: on every store the call is rejected with
    [{name: "key error", ...}], the store is left as it was, watches
    included, and no command is issued. *)
Theorem non_string_key_rejected (key : jsval) (ttl : option Z) :
  typeof key <> "string" ->
  lock key ttl = Ret (Rejected key_error)
  /\ unlock key = Ret (Rejected key_error)
  /\ readWithLock key = Ret (Rejected key_error)
  /\ forall W (h : Store W) (w : W),
       run h (lock key ttl) w = (Rejected key_error, w, [])
       /\ run h (unlock key) w = (Rejected key_error, w, [])
       /\ run h (readWithLock key) w = (Rejected key_error, w, []).
Proof.
  intros T. destruct key; try (now destruct T); repeat split.
Qed.

Lemma non_string_key_rejected_witness :
  lock (JNum 123) None = Ret (Rejected key_error)
  /\ unlock (JNum 123) = Ret (Rejected key_error)
  /\ readWithLock (JNum 123) = Ret (Rejected key_error)
  /\ forall W (h : Store W) (w : W),
       run h (lock (JNum 123) None) w = (Rejected key_error, w, [])
       /\ run h (unlock (JNum 123)) w = (Rejected key_error, w, [])
       /\ run h (readWithLock (JNum 123)) w = (Rejected key_error, w, []).
Proof. apply (non_string_key_rejected (JNum 123) None). discriminate. Defined.
Lemma lock_free_key_writes (c : nat) (s : redis) (k : string) (ttl : Z) :
  db s !! _makeKey k = None ->
  run (redis_conn c) (lock (JStr k) (Some ttl)) s
  = (Resolved (JNum 1),
     redis_watch c (_makeKey k) (write (_makeKey k) (String_ (clock s + ttl)) s),
     [ENow (clock s); ESetnx (_makeKey k) (clock s + ttl) JNull (JNum 1);
      EWatch (_makeKey k)]).
Proof.
  intros F. unfold lock, await, _getTimeOut. cbn [default from_option id run redis_conn st_now st_setnx].
  unfold redis_setnx. rewrite F. reflexivity.
Qed.

(** C10.  An omitted [ttl] is 300 for [lock] and 500 for [retryableLock],
    whose every attempt is [lock(key, 500)]; so on a free key [lock(key)]
    stores the expiry [now + 300] and [retryableLock(key)] stores
    [now + 500], and the two stores differ. *)
Theorem retryableLock_default_ttl :
  (forall key, lock key None = lock key (Some 300))
  /\ (forall fuel key ra m,
         retryableLock fuel key None ra m = retryableLock fuel key (Some 500) ra m)
  /\ (forall W (h : Store W) (w : W) key ra m (n : nat),
         default 0 m < 1 ->
         lock_fails h n key 500 (default 150 ra) w ->
         run h (retryableLock n key None ra m) w =
         (None, (lock_rounds h n key 500 (default 150 ra) w).1,
          (lock_rounds h n key 500 (default 150 ra) w).2))
  /\ (forall (c : nat) (s : redis) (k : string) (fuel : nat) ra m,
         db s !! _makeKey k = None ->
         let by_lock := (run (redis_conn c) (lock (JStr k) None) s).1.2 in
         let by_retry :=
           (run (redis_conn c) (retryableLock (S fuel) (JStr k) None ra m) s).1.2 in
         db by_lock = <[_makeKey k := String_ (clock s + 300)]> (db s)
         /\ db by_retry = <[_makeKey k := String_ (clock s + 500)]> (db s)
         /\ db by_lock <> db by_retry).
Proof.
  split; [reflexivity|]. split; [reflexivity|]. split.
  - intros W h w key ra m n Hm F. unfold retryableLock. cbn [default from_option id].
    replace n with (n + 0)%nat at 1 by lia.
    rewrite retryableLock_loop_rounds by (try assumption; lia).
    destruct (lock_rounds h n key 500 _ w) as [w1 t1]. cbn [fst snd].
    cbn [retryableLock_loop run]. now rewrite app_nil_r.
  - intros c s k fuel ra m F by_lock by_retry.
    assert (L : db by_lock = <[_makeKey k := String_ (clock s + 300)]> (db s)).
    { subst by_lock. change (lock (JStr k) None) with (lock (JStr k) (Some 300)).
      now rewrite lock_free_key_writes. }
    assert (R : db by_retry = <[_makeKey k := String_ (clock s + 500)]> (db s)).
    { subst by_retry. unfold retryableLock. cbn [default from_option id retryableLock_loop].
      replace ((_ <? 1) || (0 <? _)) with true by (symmetry; apply orb_true_iff; lia).
      now rewrite run_bind, lock_free_key_writes. }
    split; [exact L|]. split; [exact R|].
    rewrite L, R. intros E.
    apply (f_equal (fun d => d !! _makeKey k)) in E.
    rewrite !lookup_insert_eq in E. injection E as E. apply String_inj in E. lia.
Qed.

Lemma retryableLock_default_ttl_witness :
  db (run (redis_conn 0) (lock (JStr "a") None) (empty_redis 1000)).1.2
  = <[_makeKey "a" := String_ (clock (empty_redis 1000) + 300)]> (db (empty_redis 1000))
  /\ db (run (redis_conn 0) (retryableLock 1 (JStr "a") None None None) (empty_redis 1000)).1.2
     = <[_makeKey "a" := String_ (clock (empty_redis 1000) + 500)]> (db (empty_redis 1000))
  /\ db (run (redis_conn 0) (lock (JStr "a") None) (empty_redis 1000)).1.2
     <> db (run (redis_conn 0) (retryableLock 1 (JStr "a") None None None) (empty_redis 1000)).1.2.
Proof.
  apply (proj2 (proj2 (proj2 retryableLock_default_ttl)) 0%nat (empty_redis 1000) "a"
           0%nat None None).
  reflexivity.
Defined.
Lemma truthy_not_zero (e : jsval) : truthy e = true -> strict_eq_num e 0 = false.
Proof. destruct e; simpl; try reflexivity. now destruct (n =? 0). Qed.

Lemma readWithLock_rejections {W} (h : Store W) (w : W) (key e : jsval) (w' : W)
    (tr : list event) :
  run h (readWithLock key) w = (Rejected e, w', tr) ->
  e = lock_contended \/ e = key_error
  \/ (truthy e = true /\ exists ops res, tr = [EExec ops e res]).
Proof.
  unfold readWithLock, still_valid.
  destruct key; try (cbn [run]; intros [= <- <- <-]; now auto).
  cbn [run]. destruct (st_exec h _ w) as [[err res] w1].
  destruct (truthy err) eqn:E.
  { cbn [run]. intros [= <- <- <-]. right. right. split; [assumption|]. eauto. }
  destruct res as [l|]; [|cbn [run]; intros [= <- <- <-]; now left].
  destruct (truthy (nth 0 l JUndefined)); cbn [run].
  - destruct (st_now h w1) as [now w2].
    destruct (ge_num _ now); cbn [run]; intros [= <- <- <-]; now left.
  - discriminate.
Qed.

(** C3, as the code has it.  The contended outcome of [readWithLock] is the
    number 0.  Every other failure of [readWithLock], the key error or an
    error of the store (which is truthy), differs from it as a value, and
    [readWithRetryableLock] classifies a failure by the comparison
    [err !== 0]: a failure other than 0 is passed on at once, and on 0 it
    sleeps and goes round the loop again. *)
Theorem contended_distinguished_by_value {W} (h : Store W) (w : W) (key e : jsval)
    (w' : W) (tr : list event) :
  run h (readWithLock key) w = (Rejected e, w', tr) ->
  (e = lock_contended \/ e = key_error
   \/ (truthy e = true /\ exists ops res, tr = [EExec ops e res]))
  /\ (e <> lock_contended <-> strict_eq_num e 0 = false)
  /\ (e = key_error \/ truthy e = true -> e <> lock_contended)
  /\ forall (fuel : nat) (ra m : option Z),
       run h (readWithRetryableLock (S fuel) key ra m) w =
       if strict_eq_num e 0 then
         let '(o, w2, t2) :=
           run h (readWithRetryableLock_loop fuel key (default 150 ra) (default 0 m) 1)
             (st_sleep h (default 150 ra) w') in
         (o, w2, tr ++ ESleep (default 150 ra) :: t2)
       else (Some (Rejected e), w', tr).
Proof.
  intros R. split; [now apply (readWithLock_rejections h w key e w' tr)|].
  split; [|split].
  - unfold lock_contended. split.
    + apply strict_eq_num_false.
    + intros E ->. discriminate.
  - unfold lock_contended. intros [-> | T]; [discriminate|].
    intros ->. discriminate.
  - intros fuel ra m. unfold readWithRetryableLock.
    cbn [readWithRetryableLock_loop].
    replace ((_ <? 1) || (0 <? _)) with true by (symmetry; apply orb_true_iff; lia).
    rewrite run_bind, R.
    unfold _sleep. destruct (strict_eq_num e 0); cbn [negb run].
    + destruct (run h _ (st_sleep h _ w')) as [[o w2] t2]. reflexivity.
    + now rewrite app_nil_r.
Qed.

Lemma contended_distinguished_by_value_witness :
  (JNum 1 = lock_contended \/ JNum 1 = key_error
   \/ (truthy (JNum 1) = true
       /\ exists ops res,
           [EExec [OpGet "lock-a"; OpGet "a"] (JNum 1) None] = [EExec ops (JNum 1) res]))
  /\ (JNum 1 <> lock_contended <-> strict_eq_num (JNum 1) 0 = false)
  /\ (JNum 1 = key_error \/ truthy (JNum 1) = true -> JNum 1 <> lock_contended)
  /\ forall (fuel : nat) (ra m : option Z),
       run (broken_store (JNum 1)) (readWithRetryableLock (S fuel) (JStr "a") ra m) 1000 =
       if strict_eq_num (JNum 1) 0 then
         let '(o, w2, t2) :=
           run (broken_store (JNum 1))
             (readWithRetryableLock_loop fuel (JStr "a") (default 150 ra) (default 0 m) 1)
             (st_sleep (broken_store (JNum 1)) (default 150 ra) 1000) in
         (o, w2, [EExec [OpGet "lock-a"; OpGet "a"] (JNum 1) None]
                   ++ ESleep (default 150 ra) :: t2)
       else (Some (Rejected (JNum 1)), 1000,
             [EExec [OpGet "lock-a"; OpGet "a"] (JNum 1) None]).
Proof.
  apply (contended_distinguished_by_value (broken_store (JNum 1)) 1000 (JStr "a") (JNum 1)
           1000 [EExec [OpGet "lock-a"; OpGet "a"] (JNum 1) None]).
  reflexivity.
Defined.

(** C3 as stated fails: a failure of [readWithLock] other than the contended
    outcome can have the kind of the contended outcome.  A transaction that
    fails with the number 1 makes [readWithLock] fail with 1, a number like
    0; only the value tells them apart. *)
Lemma contended_not_distinct_by_kind :
  ~ (forall W (h : Store W) (w : W) (k : string) (e : jsval) (w' : W) (tr : list event),
        run h (readWithLock (JStr k)) w = (Rejected e, w', tr) ->
        e <> lock_contended ->
        typeof e <> typeof lock_contended).
Proof.
  intros H.
  apply (H Z (broken_store (JNum 1)) 1000 "a" (JNum 1) 1000
           [EExec [OpGet "lock-a"; OpGet "a"] (JNum 1) None]).
  - reflexivity.
  - discriminate.
  - reflexivity.
Qed.
Lemma writes_of_app (t1 t2 : list event) :
  writes_of (t1 ++ t2) = writes_of t1 ++ writes_of t2.
Proof. unfold writes_of. apply flat_map_app. Qed.

Lemma writes_of_clock_read (v : jsval) (now : Z) : writes_of (clock_read v now) = [].
Proof. unfold clock_read. now destruct (truthy v). Qed.

Lemma lock_present_key (c : nat) (s : redis) (k v : string) (ttl : Z) :
  db s !! _makeKey k = Some v ->
  run (redis_conn c) (lock (JStr k) (Some ttl)) s =
  if valid_at (JStr v) (clock s)
  then (Resolved (JNum 0), s,
        [ENow (clock s); ESetnx (_makeKey k) (clock s + ttl) JNull (JNum 0);
         EGet (_makeKey k) JNull (JStr v); ENow (clock s)])
  else (Resolved (JNum 1),
        redis_watch c (_makeKey k) (write (_makeKey k) (String_ (clock s + ttl)) s),
        [ENow (clock s); ESetnx (_makeKey k) (clock s + ttl) JNull (JNum 0);
         EGet (_makeKey k) JNull (JStr v)]
          ++ clock_read (JStr v) (clock s)
          ++ [ENow (clock s); EGetset (_makeKey k) (clock s + ttl) JNull (JStr v)]
          ++ clock_read (JStr v) (clock s) ++ [EWatch (_makeKey k)]).
Proof.
  intros L. unfold lock, await, still_valid, valid_at, clock_read, _getTimeOut.
  cbn. unfold redis_setnx. rewrite L. cbn. rewrite L. cbn.
  destruct (negb (String.eqb v EmptyString)) eqn:T; cbn.
  - destruct (match ToNumber v with Some m => clock s <=? m | None => false end) eqn:G;
      cbn; [reflexivity|].
    rewrite L. cbn. rewrite T. cbn.
    change (clock (write (_makeKey k) (String_ (clock s + ttl)) s)) with (clock s).
    rewrite G. reflexivity.
  - rewrite L. cbn. rewrite T. reflexivity.
Qed.

(** C2, as the code has it.  A [lock] call that resolves not acquired has
    done one of two things.  Either it stopped at the expiry read by [GET],
    which was present and [>=] the clock read that follows the [GET]: then
    it performed no write.  Or it went on to steal: it read the clock,
    sent [GETSET] with the candidate made of that very clock read plus
    [ttl], and the previous value returned was present and [>=] the clock
    read that follows the [GETSET]: then its only write is that candidate
    on the lock key.  When no other connection acts during the call, the
    first is the only way to fail, and the store is left exactly as it
    was. *)
Theorem failed_lock_writes (k : string) (ttl : Z) :
  (forall W (h : Store W) (w w' : W) (tr : list event),
      run h (lock (JStr k) (Some ttl)) w = (Resolved (JNum 0), w', tr) ->
      exists now0 e1 r e2 cur now1,
        truthy e1 = false /\ r <> JNum 1 /\ truthy e2 = false
        /\ ((tr = [ENow now0; ESetnx (_makeKey k) (now0 + ttl) e1 r;
                   EGet (_makeKey k) e2 cur; ENow now1]
             /\ valid_at cur now1 = true
             /\ writes_of tr = [])
            \/ (exists now2 e3 prev now3,
                   tr = [ENow now0; ESetnx (_makeKey k) (now0 + ttl) e1 r;
                         EGet (_makeKey k) e2 cur]
                          ++ clock_read cur now1
                          ++ [ENow now2; EGetset (_makeKey k) (now2 + ttl) e3 prev;
                              ENow now3]
                   /\ valid_at cur now1 = false
                   /\ truthy e3 = false
                   /\ valid_at prev now3 = true
                   /\ writes_of tr = [(_makeKey k, now2 + ttl)])))
  /\ (forall (c : nat) (s s' : redis) (tr : list event),
         run (redis_conn c) (lock (JStr k) (Some ttl)) s = (Resolved (JNum 0), s', tr) ->
         s' = s /\ writes_of tr = []).
Proof.
  split.
  - intros W h w w' tr R. apply lock_run_path in R.
    set (lk := _makeKey k) in *.
    inversion R; subst.
    + exists now0, e1, r, e2, cur, now1.
      split; [assumption|]. split; [intros ->; discriminate|]. split; [assumption|].
      left. split; [reflexivity|]. split; [assumption|].
      cbn. now use_tests.
    + exists now0, e1, r, e2, cur, now1.
      split; [assumption|]. split; [intros ->; discriminate|]. split; [assumption|].
      right. exists now2, e3, prev, now3.
      split; [reflexivity|]. repeat (split; [assumption|]).
      rewrite !writes_of_app, writes_of_clock_read. cbn. now use_tests.
  - intros c s s' tr R.
    destruct (db s !! _makeKey k) as [v|] eqn:L.
    + rewrite (lock_present_key c s k v ttl L) in R.
      destruct (valid_at (JStr v) (clock s)); [|discriminate R].
      injection R as <- <-. split; reflexivity.
    + rewrite (lock_free_key_writes c s k ttl L) in R. discriminate R.
Qed.

Lemma failed_lock_writes_witness :
  let r := run (redis_conn 0) (lock (JStr "a") (Some 300)) held_store in
  r.1.1 = Resolved (JNum 0)
  /\ r.2 = [ENow 1000; ESetnx "lock-a" 1300 JNull (JNum 0);
            EGet "lock-a" JNull (JStr "1200"); ENow 1000]
  /\ (exists now0 e1 r0 e2 cur now1,
         truthy e1 = false /\ r0 <> JNum 1 /\ truthy e2 = false
         /\ ((r.2 = [ENow now0; ESetnx (_makeKey "a") (now0 + 300) e1 r0;
                     EGet (_makeKey "a") e2 cur; ENow now1]
              /\ valid_at cur now1 = true
              /\ writes_of r.2 = [])
             \/ (exists now2 e3 prev now3,
                    r.2 = [ENow now0; ESetnx (_makeKey "a") (now0 + 300) e1 r0;
                           EGet (_makeKey "a") e2 cur]
                            ++ clock_read cur now1
                            ++ [ENow now2; EGetset (_makeKey "a") (now2 + 300) e3 prev;
                                ENow now3]
                    /\ valid_at cur now1 = false
                    /\ truthy e3 = false
                    /\ valid_at prev now3 = true
                    /\ writes_of r.2 = [(_makeKey "a", now2 + 300)])))
  /\ r.1.2 = held_store /\ writes_of r.2 = [].
Proof.
  intros r.
  assert (O : r.1.1 = Resolved (JNum 0)) by (vm_compute; reflexivity).
  assert (R : run (redis_conn 0) (lock (JStr "a") (Some 300)) held_store
              = (Resolved (JNum 0), r.1.2, r.2)).
  { rewrite <- O. subst r. now destruct (run _ _ _) as [[? ?] ?]. }
  split; [exact O|]. split; [vm_compute; reflexivity|]. split.
  - exact (proj1 (failed_lock_writes "a" 300) redis (redis_conn 0) held_store r.1.2 r.2 R).
  - exact (proj2 (failed_lock_writes "a" 300) 0%nat held_store r.1.2 r.2 R).
Defined.

(** C2 as stated fails.  Caller 0 of [racers] finds the lock expired; before
    its [GETSET], caller 1 steals the lock and stores the expiry 2300.  The
    [GETSET] of caller 0 then returns that live expiry, so caller 0 resolves
    not acquired, after having replaced the stored expiry by its own
    candidate 1600. *)
Lemma failed_lock_overwrites_expiry :
  let before := pool_run overtaken racers stale_store in
  let after := pool_run [Go 0; Go 0]%nat before.1 before.2 in
  (result_of <$> before.1) = [None; Some (Resolved (JNum 1))]
  /\ db before.2 !! "lock-a" = Some "2300"
  /\ (result_of <$> after.1) = [Some (Resolved (JNum 0)); Some (Resolved (JNum 1))]
  /\ (writes_of <$> (seen <$> after.1)) = [[("lock-a", 1600)]; [("lock-a", 2300)]]
  /\ db after.2 !! "lock-a" = Some "1600"
  /\ ~ ((result_of <$> after.1) !! 0%nat = Some (Some (Resolved (JNum 0))) ->
        db after.2 = db before.2).
Proof.
  vm_compute. repeat split; try reflexivity.
  intros H. specialize (H eq_refl). discriminate H.
Qed.
(** ** The race for a free key *)

Lemma lock_is_start (k : string) (ttl : Z) :
  lock (JStr k) (Some ttl) = phase_prog (_makeKey k) ttl PStart.
Proof. reflexivity. Qed.

Lemma early_loser (c0 ttl : Z) (ph : phase) : early c0 ph -> loser c0 ttl ph.
Proof. now destruct ph. Qed.

Section Race.
Variables (lk : string) (c0 ttl : Z).

Lemma step_start (i : nat) (s : redis) :
  step (redis_conn i) (phase_prog lk ttl PStart) s
  = (phase_prog lk ttl (PSetnx (clock s)), s, Some (ENow (clock s))).
Proof. reflexivity. Qed.

Lemma step_setnx_free (i : nat) (s : redis) (now0 : Z) :
  db s !! lk = None ->
  step (redis_conn i) (phase_prog lk ttl (PSetnx now0)) s
  = (phase_prog lk ttl PWatch, write lk (String_ (now0 + ttl)) s,
     Some (ESetnx lk (now0 + ttl) JNull (JNum 1))).
Proof. intros F. cbn. unfold redis_setnx. now rewrite F. Qed.

Lemma step_setnx_taken (i : nat) (s : redis) (now0 : Z) (v : string) :
  db s !! lk = Some v ->
  step (redis_conn i) (phase_prog lk ttl (PSetnx now0)) s
  = (phase_prog lk ttl PGet, s, Some (ESetnx lk (now0 + ttl) JNull (JNum 0))).
Proof. intros F. cbn. unfold redis_setnx. now rewrite F. Qed.

Lemma step_watch (i : nat) (s : redis) :
  step (redis_conn i) (phase_prog lk ttl PWatch) s
  = (phase_prog lk ttl (PDone 1), redis_watch i lk s, Some (EWatch lk)).
Proof. reflexivity. Qed.

Lemma step_get (i : nat) (s : redis) (E : Z) :
  db s !! lk = Some (String_ E) ->
  step (redis_conn i) (phase_prog lk ttl PGet) s
  = (phase_prog lk ttl (PCheck E), s, Some (EGet lk JNull (JStr (String_ E)))).
Proof. intros F. cbn. now rewrite F. Qed.

Lemma step_check (i : nat) (s : redis) (E : Z) :
  clock s <= E ->
  step (redis_conn i) (phase_prog lk ttl (PCheck E)) s
  = (phase_prog lk ttl (PDone 0), s, Some (ENow (clock s))).
Proof.
  intros Le. cbn [phase_prog]. unfold lock_check, still_valid, _getTimeOut.
  rewrite truthy_String. cbn [step redis_conn st_now]. rewrite ge_num_String.
  now replace (clock s <=? E) with true by lia.
Qed.

Lemma step_done (i : nat) (s : redis) (v : Z) :
  step (redis_conn i) (phase_prog lk ttl (PDone v)) s
  = (phase_prog lk ttl (PDone v), s, None).
Proof. reflexivity. Qed.
End Race.
Section RaceInvariant.
Variables (lk : string) (c0 ttl : Z).

Lemma race_inv_same (phs : list phase) (s s' : redis) :
  db s' = db s -> clock s' = clock s ->
  race_inv lk c0 ttl phs s -> race_inv lk c0 ttl phs s'.
Proof. unfold race_inv. now intros -> ->. Qed.

(** A caller that is not the winner moves on; the store is as it was. *)
Lemma race_inv_move (phs : list phase) (s : redis) (i : nat) (ph ph' : phase) :
  race_inv lk c0 ttl phs s ->
  phs !! i = Some ph ->
  ~ winner ph ->
  (db s !! lk = None -> early c0 ph') ->
  loser c0 ttl ph' ->
  race_inv lk c0 ttl (<[i := ph']> phs) s.
Proof.
  intros [Hc I] Pi NW Hearly Hloser. split; [assumption|].
  destruct (db s !! lk) as [v|].
  - destruct I as (E & wi & -> & HE & (pw & Pw & W) & Others).
    assert (i <> wi) by (intros ->; rewrite Pi in Pw; injection Pw as ->; tauto).
    exists E, wi. split; [reflexivity|]. split; [assumption|]. split.
    + exists pw. split; [|assumption]. now rewrite list_lookup_insert_ne.
    + intros j pj Hj Pj. destruct (decide (j = i)) as [->|Hji].
      * rewrite list_lookup_insert_eq in Pj by (now apply lookup_lt_Some in Pi).
        now injection Pj as <-.
      * rewrite list_lookup_insert_ne in Pj by congruence. now apply (Others j).
  - apply Forall_insert; auto.
Qed.

(** The winner's [WATCH]. *)
Lemma race_inv_watched (phs : list phase) (s : redis) (i : nat) :
  race_inv lk c0 ttl phs s ->
  phs !! i = Some PWatch ->
  race_inv lk c0 ttl (<[i := PDone 1]> phs) s.
Proof.
  intros [Hc I] Pi. split; [assumption|].
  destruct (db s !! lk) as [v|].
  - destruct I as (E & wi & -> & HE & (pw & Pw & W) & Others).
    destruct (decide (i = wi)) as [->|Hne].
    + exists E, wi. split; [reflexivity|]. split; [assumption|]. split.
      * exists (PDone 1). split; [|now right].
        apply list_lookup_insert_eq. now apply lookup_lt_Some in Pi.
      * intros j pj Hj Pj. rewrite list_lookup_insert_ne in Pj by congruence.
        now apply (Others j).
    + destruct (Others i PWatch Hne Pi).
  - exfalso. apply (Forall_lookup_1 _ _ _ _ I) in Pi. exact Pi.
Qed.

(** The [SETNX] that finds the key free takes the lock. *)
Lemma race_inv_taken (phs : list phase) (s : redis) (i : nat) (now0 : Z) :
  race_inv lk c0 ttl phs s ->
  db s !! lk = None ->
  phs !! i = Some (PSetnx now0) ->
  race_inv lk c0 ttl (<[i := PWatch]> phs) (write lk (String_ (now0 + ttl)) s).
Proof.
  intros [Hc I] F Pi. rewrite F in I. split; [assumption|].
  unfold write, touch. cbn [db]. rewrite lookup_insert_eq.
  pose proof (Forall_lookup_1 _ _ _ _ I Pi) as Hn. simpl in Hn.
  exists (now0 + ttl), i. split; [reflexivity|]. split; [lia|]. split.
  - exists PWatch. split; [|now left].
    apply list_lookup_insert_eq. now apply lookup_lt_Some in Pi.
  - intros j pj Hj Pj. rewrite list_lookup_insert_ne in Pj by congruence.
    apply early_loser. exact (Forall_lookup_1 _ _ _ _ I Pj).
Qed.

Lemma race_step (ts : list thread) (phs : list phase) (s : redis) (i : nat)
    (ts' : list thread) (s' : redis) :
  Forall2 (at_phase lk ttl) ts phs ->
  race_inv lk c0 ttl phs s ->
  clock s <= c0 + ttl ->
  pool_step (Go i) ts s = (ts', s') ->
  exists phs',
    Forall2 (at_phase lk ttl) ts' phs' /\ race_inv lk c0 ttl phs' s'
    /\ clock s' = clock s /\ length phs' = length phs.
Proof.
  intros F I Hc. unfold pool_step.
  destruct (ts !! i) as [t|] eqn:Ti; [|intros [= <- <-]; now exists phs].
  assert (Len : forall ph', length (<[i := ph']> phs) = length phs)
    by (intros ph'; apply length_insert).
  destruct (Forall2_lookup_l _ _ _ _ _ F Ti) as (ph & Pi & A).
  unfold at_phase in A. rewrite A.
  assert (Upd : forall p l ph', p = phase_prog lk ttl ph' ->
            Forall2 (at_phase lk ttl)
              (<[i := {| code := p; seen := l |}]> ts) (<[i := ph']> phs)).
  { intros p l ph' ->. now apply Forall2_insert. }
  destruct ph as [|now0| | |E|v].
  - rewrite step_start. intros [= <- <-]. exists (<[i := PSetnx (clock s)]> phs).
    split; [now apply Upd|]. split; [|now split].
    apply (race_inv_move phs s i PStart _ I Pi);
      [intros [[=]|[=]] | intros _; exact (proj1 I) | exact (proj1 I)].
  - destruct (db s !! lk) as [v|] eqn:L.
    + rewrite (step_setnx_taken lk ttl i s now0 v L). intros [= <- <-].
      exists (<[i := PGet]> phs). split; [now apply Upd|]. split; [|now split].
      apply (race_inv_move phs s i (PSetnx now0) _ I Pi);
        [intros [[=]|[=]] | congruence | exact Logic.I].
    + rewrite (step_setnx_free lk ttl i s now0 L). intros [= <- <-].
      exists (<[i := PWatch]> phs). split; [now apply Upd|]. split; [|now split].
      now apply race_inv_taken.
  - rewrite step_watch. intros [= <- <-]. exists (<[i := PDone 1]> phs).
    split; [now apply Upd|]. split; [|now split].
    apply (race_inv_same _ s); [reflexivity..|]. now apply race_inv_watched.
  - pose proof I as [Hc0 I']. destruct (db s !! lk) as [v|] eqn:L.
    + destruct I' as (E & wi & -> & HE & W & Others).
      rewrite (step_get lk ttl i s E L). intros [= <- <-].
      exists (<[i := PCheck E]> phs). split; [now apply Upd|]. split; [|now split].
      apply (race_inv_move phs s i PGet _ I Pi);
        [intros [[=]|[=]] | congruence | exact HE].
    + exfalso. exact (Forall_lookup_1 _ _ _ _ I' Pi).
  - assert (c0 + ttl <= E) as HE.
    { destruct I as [Hc0 I']. destruct (db s !! lk) as [v|] eqn:L.
      - destruct I' as (E' & wi & -> & HE & (pw & Pw & W) & Others).
        destruct (decide (i = wi)) as [->|Hne].
        + rewrite Pi in Pw. injection Pw as <-. destruct W as [[=]|[=]].
        + exact (Others i (PCheck E) Hne Pi).
      - exfalso. exact (Forall_lookup_1 _ _ _ _ I' Pi). }
    rewrite step_check by lia. intros [= <- <-].
    exists (<[i := PDone 0]> phs). split; [now apply Upd|]. split; [|now split].
    apply (race_inv_move phs s i (PCheck E) _ I Pi);
      [intros [[=]|[=]] | | reflexivity].
    intros L. destruct I as [_ I']. rewrite L in I'.
    exfalso. exact (Forall_lookup_1 _ _ _ _ I' Pi).
  - rewrite step_done. intros [= <- <-]. exists phs.
    split; [|split; [exact I|split; reflexivity]].
    rewrite <- (list_insert_id phs i (PDone v) Pi). apply Upd. reflexivity.
Qed.

Lemma elapsed_nonneg (sc : list sched) : 0 <= elapsed sc.
Proof. induction sc as [|[i|d] sc IH]; simpl; lia. Qed.

Lemma race_run (sc : list sched) :
  forall (ts : list thread) (phs : list phase) (s : redis)
         (ts' : list thread) (s' : redis),
    Forall2 (at_phase lk ttl) ts phs ->
    race_inv lk c0 ttl phs s ->
    clock s + elapsed sc <= c0 + ttl ->
    pool_run sc ts s = (ts', s') ->
    exists phs',
      Forall2 (at_phase lk ttl) ts' phs' /\ race_inv lk c0 ttl phs' s'
      /\ length phs' = length phs.
Proof.
  induction sc as [|e sc IH]; intros ts phs s ts' s' F I Hc R.
  - injection R as <- <-. now exists phs.
  - cbn [pool_run] in R. pose proof (elapsed_nonneg sc) as Hpos.
    destruct e as [i|d]; cbn [elapsed] in Hc.
    + destruct (pool_step (Go i) ts s) as [ts1 s1] eqn:St.
      destruct (race_step ts phs s i ts1 s1 F I ltac:(lia) St)
        as (phs1 & F1 & I1 & C1 & L1).
      destruct (IH ts1 phs1 s1 ts' s' F1 I1 ltac:(lia) R) as (phs' & F' & I' & L').
      exists phs'. split; [assumption|]. split; [assumption|]. lia.
    + cbn [pool_step] in R.
      apply (IH ts phs (advance d s) ts' s' F); [| |exact R].
      * destruct I as [Hc0 I]. split; [unfold advance; cbn [clock]; lia|exact I].
      * unfold advance. cbn [clock]. lia.
Qed.

Lemma finished_phase (t : thread) (ph : phase) :
  at_phase lk ttl t ph -> is_Some (result_of t) ->
  exists v, ph = PDone v /\ result_of t = Some (Resolved (JNum v)).
Proof.
  unfold at_phase, result_of. intros -> [o Ho].
  destruct ph as [|now0| | |E|v]; try discriminate Ho.
  - cbn [phase_prog] in Ho. unfold lock_check, still_valid in Ho.
    rewrite truthy_String in Ho. discriminate Ho.
  - now exists v.
Qed.
End RaceInvariant.
(** C9.  Any number of callers start [lock(K, ttl)] on a free key [K], each
    on its own connection, and their commands reach the store in any order,
    with any passing of time in between that does not exceed [ttl] in all (so
    that no expiry written during the race elapses).  Once all calls have
    resolved, exactly one of them has resolved acquired and every other has
    resolved not acquired. *)
Theorem lock_mutual_exclusion (k : string) (ttl : Z) (n : nat) (s0 : redis)
    (sc : list sched) (ts : list thread) (s : redis) :
  (0 < n)%nat ->
  db s0 !! _makeKey k = None ->
  elapsed sc <= ttl ->
  pool_run sc (replicate n (spawn (lock (JStr k) (Some ttl)))) s0 = (ts, s) ->
  Forall (fun t => is_Some (result_of t)) ts ->
  exists i : nat,
    (i < n)%nat
    /\ result_of <$> ts !! i = Some (Some (Resolved (JNum 1)))
    /\ forall j : nat,
         (j < n)%nat -> j <> i ->
         result_of <$> ts !! j = Some (Some (Resolved (JNum 0))).
Proof.
  intros Hn Free Ht R Fin. set (lk := _makeKey k) in *.
  assert (F0 : Forall2 (at_phase lk ttl)
                 (replicate n (spawn (lock (JStr k) (Some ttl)))) (replicate n PStart)).
  { clear. induction n; constructor; [apply lock_is_start|assumption]. }
  assert (I0 : race_inv lk (clock s0) ttl (replicate n PStart) s0).
  { split; [lia|]. rewrite Free. apply Forall_replicate. exact I. }
  destruct (race_run lk (clock s0) ttl sc _ _ s0 ts s F0 I0 ltac:(lia) R)
    as (phs & F & [Hc Inv] & Len).
  rewrite length_replicate in Len.
  assert (Done : forall j ph, phs !! j = Some ph ->
            exists v, ph = PDone v
                      /\ result_of <$> ts !! j = Some (Some (Resolved (JNum v)))).
  { intros j ph Pj.
    destruct (Forall2_lookup_r _ _ _ _ _ F Pj) as (t & Tj & A).
    destruct (finished_phase lk ttl t ph A) as (v & -> & Rv).
    - exact (Forall_lookup_1 _ _ _ _ Fin Tj).
    - exists v. split; [reflexivity|]. rewrite Tj. cbn. now rewrite Rv. }
  destruct (db s !! lk) as [v|].
  - destruct Inv as (E & wi & -> & HE & (pw & Pw & W) & Others).
    exists wi. split; [apply lookup_lt_Some in Pw; lia|]. split.
    + destruct (Done wi pw Pw) as (v & -> & Rv).
      destruct W as [[=]|[= ->]]. exact Rv.
    + intros j Hj Hne.
      destruct (lookup_lt_is_Some_2 phs j ltac:(lia)) as [pj Pj].
      destruct (Done j pj Pj) as (v & -> & Rv).
      pose proof (Others j (PDone v) Hne Pj) as Hv. simpl in Hv. now subst v.
  - exfalso.
    destruct (lookup_lt_is_Some_2 phs 0%nat ltac:(lia)) as [p0 P0].
    destruct (Done 0%nat p0 P0) as (v & -> & _).
    exact (Forall_lookup_1 _ _ _ _ Inv P0).
Qed.

Lemma lock_mutual_exclusion_witness :
  let ts := (pool_run three_way_race
               (replicate 3 (spawn (lock (JStr "a") (Some 300)))) (empty_redis 1000)).1 in
  exists i : nat,
    (i < 3)%nat
    /\ result_of <$> ts !! i = Some (Some (Resolved (JNum 1)))
    /\ forall j : nat,
         (j < 3)%nat -> j <> i ->
         result_of <$> ts !! j = Some (Some (Resolved (JNum 0))).
Proof.
  intros ts.
  apply (lock_mutual_exclusion "a" 300 3 (empty_redis 1000) three_way_race ts
           (pool_run three_way_race
              (replicate 3 (spawn (lock (JStr "a") (Some 300)))) (empty_redis 1000)).2).
  - lia.
  - reflexivity.
  - vm_compute. discriminate.
  - subst ts. apply surjective_pairing.
  - subst ts. vm_compute. repeat econstructor.
Defined.

(** * Further properties of the class *)

(** ** Lock keys *)

Lemma makeKey_inj (k1 k2 : string) : _makeKey k1 = _makeKey k2 -> k1 = k2.
Proof. intros E. unfold _makeKey in E. cbn in E. now injection E. Qed.

Lemma makeKey_length (k : string) :
  String.length (_makeKey k) = (5 + String.length k)%nat.
Proof. reflexivity. Qed.

Lemma makeKey_ne (k : string) : _makeKey k <> k.
Proof.
  intros E. apply (f_equal String.length) in E. rewrite makeKey_length in E. lia.
Qed.

(** X1.  [_makeKey] is one-to-one, so distinct resources have distinct lock
    keys, and the lock key of a resource is never the resource's own key. *)
Theorem makeKey_one_to_one :
  (forall k1 k2 : string, _makeKey k1 = _makeKey k2 -> k1 = k2)
  /\ (forall k : string, _makeKey k <> k)
  /\ (forall k1 k2 : string, k1 <> k2 -> _makeKey k1 <> _makeKey k2).
Proof.
  split; [exact makeKey_inj|]. split; [exact makeKey_ne|].
  intros k1 k2 Hne E. now apply Hne, makeKey_inj.
Qed.

(** ** What one [lock] call does, on any store *)

Lemma on_key_clock_read (lk : string) (v : jsval) (now : Z) :
  Forall (on_key lk) (clock_read v now).
Proof. unfold clock_read. destruct (truthy v); repeat constructor. Qed.

Lemma length_clock_read (v : jsval) (now : Z) : (length (clock_read v now) <= 1)%nat.
Proof. unfold clock_read. destruct (truthy v); simpl; lia. Qed.

Lemma no_watch_clock_read (lk : string) (v : jsval) (now : Z) :
  ~ In (EWatch lk) (clock_read v now).
Proof. unfold clock_read. destruct (truthy v); simpl; intuition discriminate. Qed.

Lemma lock_default_path {W} (h : Store W) (w : W) (k : string) (ttl : option Z)
    (out : outcome) (w' : W) (tr : list event) :
  run h (lock (JStr k) ttl) w = (out, w', tr) ->
  lock_path (_makeKey k) (default 300 ttl) tr out.
Proof. destruct ttl as [ttl|]; apply lock_run_path. Qed.

(** X2.  Whatever the store replies, a [lock] call on a string key sends
    commands on the lock key only, never a transaction and never a sleep: at
    most eight events, and at most one write.  On the store model, the clock
    and every key other than the lock key, the resource's own key included,
    are as before the call. *)
Theorem lock_addresses_only_lock_key (k : string) (ttl : option Z) :
  (forall W (h : Store W) (w : W) (out : outcome) (w' : W) (tr : list event),
      run h (lock (JStr k) ttl) w = (out, w', tr) ->
      Forall (on_key (_makeKey k)) tr
      /\ (length tr <= 8)%nat
      /\ (length (writes_of tr) <= 1)%nat
      /\ Forall (fun kv => kv.1 = _makeKey k) (writes_of tr))
  /\ (forall (c : nat) (s : redis) (out : outcome) (s' : redis) (tr : list event),
         run (redis_conn c) (lock (JStr k) ttl) s = (out, s', tr) ->
         clock s' = clock s
         /\ db s' !! k = db s !! k
         /\ forall k' : string, k' <> _makeKey k -> db s' !! k' = db s !! k').
Proof.
  split.
  - intros W h w out w' tr R. apply lock_default_path in R.
    set (lk := _makeKey k) in *. set (t := default 300 ttl) in *.
    destruct R; repeat split;
      rewrite ?Forall_app, ?length_app, ?writes_of_app, ?writes_of_clock_read;
      repeat match goal with
             | |- context [length (clock_read ?v ?n)] =>
                 pose proof (length_clock_read v n); generalize dependent (clock_read v n);
                 intros
             end;
      cbn; use_tests; cbn; try lia;
      repeat (split || apply on_key_clock_read || apply Forall_cons_2 || apply Forall_nil_2);
      try reflexivity; try exact I.
  - intros c s out s' tr R.
    assert (D : s' = s \/
                s' = redis_watch c (_makeKey k)
                       (write (_makeKey k) (String_ (clock s + default 300 ttl)) s)).
    { destruct ttl as [ttl|]; cbn [default from_option id];
        [|change (lock (JStr k) None) with (lock (JStr k) (Some 300)) in R];
        (destruct (db s !! _makeKey k) as [v|] eqn:L;
         [rewrite (lock_present_key c s k v _ L) in R;
          destruct (valid_at (JStr v) (clock s)); injection R as <- <- <-; auto
         |rewrite (lock_free_key_writes c s k _ L) in R; injection R as <- <- <-; auto]). }
    assert (F : forall k', k' <> _makeKey k -> db s' !! k' = db s !! k').
    { intros k' Hk. destruct D as [-> | ->]; [reflexivity|].
      unfold redis_watch, write, touch. cbn [db]. now rewrite lookup_insert_ne. }
    split; [destruct D as [-> | ->]; reflexivity|].
    split; [|exact F]. apply F. intros E. now apply (makeKey_ne k).
Qed.
Lemma lock_addresses_only_lock_key_witness :
  let r := run (redis_conn 0) (lock (JStr "a") None) stale_store in
  (Forall (on_key (_makeKey "a")) r.2
   /\ (length r.2 <= 8)%nat
   /\ (length (writes_of r.2) <= 1)%nat
   /\ Forall (fun kv => kv.1 = _makeKey "a") (writes_of r.2))
  /\ (clock r.1.2 = clock stale_store
      /\ db r.1.2 !! "a" = db stale_store !! "a"
      /\ forall k' : string,
           k' <> _makeKey "a" -> db r.1.2 !! k' = db stale_store !! k').
Proof.
  intros r. destruct (lock_addresses_only_lock_key "a" None) as [G S].
  assert (E : run (redis_conn 0) (lock (JStr "a") None) stale_store = (r.1.1, r.1.2, r.2))
    by (subst r; now destruct (run _ _ _) as [[? ?] ?]).
  split; [exact (G _ _ _ _ _ _ E) | exact (S _ _ _ _ _ E)].
Defined.

Lemma store_ok_app (t1 t2 : list event) :
  store_ok (t1 ++ t2) <-> store_ok t1 /\ store_ok t2.
Proof. unfold store_ok. apply Forall_app. Qed.

(** X3.  On a string key [lock] never rejects, and its promise stays pending
    exactly when one of its store commands failed: that command is then the
    last thing the call did, and the key is not watched.  (The command is
    awaited inside the [async] executor, so its failure reaches neither
    [resolve] nor [reject].) *)
Theorem lock_pending_on_store_error {W} (h : Store W) (w : W) (k : string)
    (ttl : option Z) (out : outcome) (w' : W) (tr : list event) :
  run h (lock (JStr k) ttl) w = (out, w', tr) ->
  (out = Pending <-> ~ store_ok tr)
  /\ (out = Pending ->
      exists tr0 e,
        tr = tr0 ++ [e] /\ truthy (err_of e) = true /\ store_ok tr0
        /\ ~ In (EWatch (_makeKey k)) tr)
  /\ (forall e, out <> Rejected e).
Proof.
  intros R. apply lock_default_path in R.
  set (lk := _makeKey k) in *. set (t := default 300 ttl) in *.
  assert (Bad : forall tr0 e, truthy (err_of e) = true -> ~ store_ok (tr0 ++ [e])).
  { intros tr0 e T Ok. apply store_ok_app in Ok as [_ Ok].
    inversion Ok; subst. congruence. }
  destruct R.
  - (* the SETNX failed *)
    split; [|split]; [|intros _|discriminate].
    + split; [intros _|reflexivity]. now apply (Bad [ENow now0]).
    + exists [ENow now0], (ESetnx lk (now0 + t) e1 r).
      repeat split; auto; [repeat constructor | simpl; intuition discriminate].
  - split; [|split]; [|discriminate|discriminate].
    split; [discriminate|]. intros N. exfalso. apply N. now repeat constructor.
  - (* the GET failed *)
    split; [|split]; [|intros _|discriminate].
    + split; [intros _|reflexivity].
      now apply (Bad [ENow now0; ESetnx lk (now0 + t) e1 r]).
    + exists [ENow now0; ESetnx lk (now0 + t) e1 r], (EGet lk e2 cur).
      repeat split; auto; [now repeat constructor | simpl; intuition discriminate].
  - split; [|split]; [|discriminate|discriminate].
    split; [discriminate|]. intros N. exfalso. apply N. now repeat constructor.
  - (* the GETSET failed *)
    split; [|split]; [|intros _|discriminate].
    + split; [intros _|reflexivity].
      rewrite (app_assoc _ _ [_; _]).
      change [ENow now2; EGetset lk (now2 + t) e3 prev]
        with ([ENow now2] ++ [EGetset lk (now2 + t) e3 prev]).
      rewrite app_assoc. now apply Bad.
    + exists ([ENow now0; ESetnx lk (now0 + t) e1 r; EGet lk e2 cur]
                ++ clock_read cur now1 ++ [ENow now2]),
        (EGetset lk (now2 + t) e3 prev).
      split; [now rewrite <- !app_assoc|]. split; [assumption|]. split.
      * apply store_ok_app. split; [now repeat constructor|].
        apply store_ok_app. split; [apply store_ok_clock_read|now repeat constructor].
      * rewrite !in_app_iff. pose proof (no_watch_clock_read lk cur now1).
        simpl. intuition discriminate.
  - split; [|split]; [|discriminate|discriminate].
    split; [discriminate|]. intros N. exfalso. apply N.
    apply store_ok_app. split; [now repeat constructor|].
    apply store_ok_app. split; [apply store_ok_clock_read|now repeat constructor].
  - split; [|split]; [|discriminate|discriminate].
    split; [discriminate|]. intros N. exfalso. apply N.
    apply store_ok_app. split; [now repeat constructor|].
    apply store_ok_app. split; [apply store_ok_clock_read|].
    apply store_ok_app. split; [now repeat constructor|].
    apply store_ok_app. split; [apply store_ok_clock_read|now repeat constructor].
Qed.

Lemma lock_pending_on_store_error_witness :
  (Pending = Pending <->
     ~ store_ok [ENow 1000; ESetnx "lock-a" 1300 connection_lost JUndefined])
  /\ (Pending = Pending ->
      exists tr0 e,
        [ENow 1000; ESetnx "lock-a" 1300 connection_lost JUndefined] = tr0 ++ [e]
        /\ truthy (err_of e) = true /\ store_ok tr0
        /\ ~ In (EWatch (_makeKey "a"))
               [ENow 1000; ESetnx "lock-a" 1300 connection_lost JUndefined])
  /\ (forall e, Pending <> Rejected e).
Proof.
  apply (lock_pending_on_store_error (broken_store connection_lost) 1000 "a" None
           Pending 1000).
  reflexivity.
Defined.
(** ** Calls on the store model *)

Lemma elem_of_watchers (c : nat) (k : string) (s : redis) :
  c ∈ watchers k s <-> exists ks, watching s !! c = Some ks /\ k ∈ ks.
Proof.
  unfold watchers. rewrite elem_of_dom. split.
  - intros [ks H]. apply map_lookup_filter_Some in H as [H1 H2]. now exists ks.
  - intros (ks & H1 & H2). exists ks. now apply map_lookup_filter_Some.
Qed.

Lemma watched_by_watch (c : nat) (k : string) (s : redis) :
  k ∈ watched_by c (redis_watch c k s).
Proof.
  unfold watched_by, redis_watch. cbn [watching]. rewrite lookup_insert_eq.
  cbn. set_solver.
Qed.

Lemma lock_acquires_free_or_expired (c : nat) (s : redis) (k : string) (ttl : Z) :
  free_or_expired s (_makeKey k) ->
  exists tr,
    run (redis_conn c) (lock (JStr k) (Some ttl)) s
    = (Resolved (JNum 1),
       redis_watch c (_makeKey k) (write (_makeKey k) (String_ (clock s + ttl)) s), tr).
Proof.
  intros [F | (E & L & Lt)].
  - rewrite (lock_free_key_writes c s k ttl F). eauto.
  - rewrite (lock_present_key c s k _ ttl L), valid_at_String.
    replace (clock s <=? E) with false by lia. eauto.
Qed.

Lemma lock_fails_held (c : nat) (s : redis) (k : string) (ttl : Z) :
  held s (_makeKey k) ->
  exists tr, run (redis_conn c) (lock (JStr k) (Some ttl)) s = (Resolved (JNum 0), s, tr).
Proof.
  intros (E & L & Le).
  rewrite (lock_present_key c s k _ ttl L), valid_at_String.
  replace (clock s <=? E) with true by lia. eauto.
Qed.

(** X4.  On the store model, [lock] acquires when the lock is free at the
    store's time, that is when the lock key is absent or holds an expiry
    before the clock.  It then stores the expiry [now + ttl] on the lock key,
    watches it, changes nothing else, and for [ttl >= 0] the lock is held
    afterwards.  When the lock is held, expiry [>= now], the call resolves
    not acquired and the store is exactly as before. *)
Theorem lock_on_store (c : nat) (s : redis) (k : string) (ttl : Z)
    (out : outcome) (s' : redis) (tr : list event) :
  run (redis_conn c) (lock (JStr k) (Some ttl)) s = (out, s', tr) ->
  (free_or_expired s (_makeKey k) ->
     out = Resolved (JNum 1)
     /\ db s' = <[_makeKey k := String_ (clock s + ttl)]> (db s)
     /\ clock s' = clock s
     /\ _makeKey k ∈ watched_by c s'
     /\ (0 <= ttl -> held s' (_makeKey k)))
  /\ (held s (_makeKey k) -> out = Resolved (JNum 0) /\ s' = s).
Proof.
  intros R. split.
  - intros F. destruct (lock_acquires_free_or_expired c s k ttl F) as [tr' R'].
    rewrite R' in R. injection R as <- <- <-.
    split; [reflexivity|]. split; [reflexivity|]. split; [reflexivity|].
    split; [apply watched_by_watch|].
    intros Ht. exists (clock s + ttl). split.
    + unfold redis_watch, write, touch. cbn [db]. apply lookup_insert_eq.
    + unfold redis_watch, write, touch. cbn [clock]. lia.
  - intros H. destruct (lock_fails_held c s k ttl H) as [tr' R'].
    rewrite R' in R. now injection R as <- <- <-.
Qed.

Lemma lock_on_store_witness :
  let s' := (run (redis_conn 0) (lock (JStr "a") (Some 300)) stale_store).1.2 in
  Resolved (JNum 1) = Resolved (JNum 1)
  /\ db s' = <[_makeKey "a" := String_ (clock stale_store + 300)]> (db stale_store)
  /\ clock s' = clock stale_store
  /\ _makeKey "a" ∈ watched_by 0 s'
  /\ (0 <= 300 -> held s' (_makeKey "a")).
Proof.
  intros s'.
  apply (proj1 (lock_on_store 0 stale_store "a" 300 (Resolved (JNum 1)) s'
                  (run (redis_conn 0) (lock (JStr "a") (Some 300)) stale_store).2
                  ltac:(vm_compute; reflexivity))).
  right. exists 1200. split; [reflexivity | vm_compute; reflexivity].
Defined.
Lemma unlock_on_store (c : nat) (s : redis) (k : string) :
  (run (redis_conn c) (unlock (JStr k)) s).1 =
  if decide (c ∈ dirty s) then (Resolved (JNum 0), unwatch c s)
  else match db s !! _makeKey k with
       | Some _ => (Resolved (JNum 1), unwatch c (remove (_makeKey k) s))
       | None => (Resolved (JNum 0), unwatch c s)
       end.
Proof.
  unfold unlock. cbn [run redis_conn st_exec]. unfold redis_exec.
  destruct (decide (c ∈ dirty s)); [reflexivity|].
  cbn [redis_ops redis_op]. now destruct (db s !! _makeKey k).
Qed.

Lemma readWithLock_on_store (c : nat) (s : redis) (k : string) :
  (run (redis_conn c) (readWithLock (JStr k)) s).1 =
  (if decide (c ∈ dirty s) then Rejected (JNum 0)
   else if valid_at (bulk (db s !! _makeKey k)) (clock s) then Rejected (JNum 0)
        else Resolved (bulk (db s !! k)),
   unwatch c s).
Proof.
  unfold readWithLock, still_valid. cbn [run redis_conn st_exec].
  unfold redis_exec. destruct (decide (c ∈ dirty s)); [reflexivity|].
  cbn [redis_ops redis_op truthy nth run]. unfold valid_at.
  destruct (truthy (bulk (db s !! _makeKey k))); cbn; [|reflexivity].
  now destruct (ge_num _ _).
Qed.

Lemma dirty_after_lock (c : nat) (k : string) (v : string) (s : redis) :
  dirty (redis_watch c k (write k v s)) = dirty s ∪ watchers k s.
Proof. reflexivity. Qed.

(** X5.  Lock, then unlock, on one connection of the store model.  When the
    lock is free, the connection is not marked by an earlier write and does
    not already watch the lock key, [unlock] right after [lock] resolves 1:
    the lock key is gone, every other key and the clock are as before, and
    the connection watches nothing. *)
Theorem lock_unlock_round_trip (c : nat) (s : redis) (k : string) (ttl : Z)
    (out : outcome) (s' : redis) (tr : list event) :
  free_or_expired s (_makeKey k) ->
  c ∉ dirty s ->
  c ∉ watchers (_makeKey k) s ->
  run (redis_conn c) (bind (lock (JStr k) (Some ttl)) (fun _ => unlock (JStr k))) s
  = (out, s', tr) ->
  out = Resolved (JNum 1)
  /\ db s' = delete (_makeKey k) (db s)
  /\ clock s' = clock s
  /\ watched_by c s' = ∅
  /\ c ∉ dirty s'.
Proof.
  intros F Hd Hw R. rewrite run_bind in R.
  destruct (lock_acquires_free_or_expired c s k ttl F) as [t1 R1]. rewrite R1 in R.
  set (s1 := redis_watch c (_makeKey k) (write (_makeKey k) (String_ (clock s + ttl)) s))
    in *.
  pose proof (unlock_on_store c s1 k) as U.
  destruct (run (redis_conn c) (unlock (JStr k)) s1) as [[o2 s2] t2].
  injection R as <- <- <-. cbn [fst] in U.
  destruct (decide (c ∈ dirty s1)) as [D|_].
  { exfalso. unfold s1 in D. rewrite dirty_after_lock in D.
    apply elem_of_union in D as [D|D]; contradiction. }
  assert (L : db s1 !! _makeKey k = Some (String_ (clock s + ttl)))
    by (unfold s1, redis_watch, write, touch; cbn [db]; apply lookup_insert_eq).
  rewrite L in U. injection U as -> ->.
  split; [reflexivity|]. split; [|split; [reflexivity|split]].
  - unfold s1, unwatch, remove, touch, redis_watch, write. cbn [db].
    apply delete_insert_eq.
  - unfold watched_by, unwatch. cbn [watching]. now rewrite lookup_delete_eq.
  - unfold unwatch. cbn [dirty]. apply not_elem_of_difference. right.
    now apply elem_of_singleton.
Qed.

Lemma lock_unlock_round_trip_witness :
  let r := run (redis_conn 0)
             (bind (lock (JStr "a") (Some 300)) (fun _ => unlock (JStr "a")))
             (empty_redis 1000) in
  r.1.1 = Resolved (JNum 1)
  /\ db r.1.2 = delete (_makeKey "a") (db (empty_redis 1000))
  /\ clock r.1.2 = clock (empty_redis 1000)
  /\ watched_by 0 r.1.2 = ∅
  /\ 0%nat ∉ dirty r.1.2.
Proof.
  intros r.
  apply (lock_unlock_round_trip 0 (empty_redis 1000) "a" 300 r.1.1 r.1.2 r.2).
  - left. reflexivity.
  - apply not_elem_of_empty.
  - rewrite elem_of_watchers. intros (ks & H & _). discriminate H.
  - subst r. now destruct (run _ _ _) as [[? ?] ?].
Defined.
(** X6.  [unlock] does not check who holds the lock.  On the store model,
    after connection [c1] has acquired the lock, [unlock] by another
    connection [c2] (not marked, not watching the lock key) resolves 1 and
    deletes the lock, although for [ttl >= 0] it was held and not expired.
    The deletion marks [c1], which watches the key, so the [unlock] of [c1]
    that follows aborts and resolves 0. *)
Theorem unlock_ignores_owner (c1 c2 : nat) (s : redis) (k : string) (ttl : Z) :
  c1 <> c2 ->
  free_or_expired s (_makeKey k) ->
  c2 ∉ dirty s ->
  c2 ∉ watchers (_makeKey k) s ->
  let s1 := (run (redis_conn c1) (lock (JStr k) (Some ttl)) s).1.2 in
  let r2 := run (redis_conn c2) (unlock (JStr k)) s1 in
  let r3 := run (redis_conn c1) (unlock (JStr k)) r2.1.2 in
  (0 <= ttl -> held s1 (_makeKey k))
  /\ r2.1.1 = Resolved (JNum 1)
  /\ db r2.1.2 !! _makeKey k = None
  /\ r3.1.1 = Resolved (JNum 0).
Proof.
  intros Hne F Hd Hw s1 r2 r3.
  destruct (lock_acquires_free_or_expired c1 s k ttl F) as [t1 R1].
  assert (S1 : s1 = redis_watch c1 (_makeKey k)
                      (write (_makeKey k) (String_ (clock s + ttl)) s))
    by (unfold s1; now rewrite R1).
  assert (L : db s1 !! _makeKey k = Some (String_ (clock s + ttl)))
    by (rewrite S1; unfold redis_watch, write, touch; cbn [db]; apply lookup_insert_eq).
  assert (D2 : c2 ∉ dirty s1).
  { rewrite S1, dirty_after_lock. intros D.
    apply elem_of_union in D as [D|D]; contradiction. }
  assert (W1 : c1 ∈ watchers (_makeKey k) s1).
  { apply elem_of_watchers. rewrite S1. unfold redis_watch. cbn [watching].
    rewrite lookup_insert_eq. eexists. split; [reflexivity|].
    apply elem_of_union_l. now apply elem_of_singleton. }
  assert (U2 : r2.1 = (Resolved (JNum 1), unwatch c2 (remove (_makeKey k) s1))).
  { unfold r2. rewrite unlock_on_store. destruct (decide (c2 ∈ dirty s1)); [contradiction|].
    now rewrite L. }
  split.
  - intros Ht. exists (clock s + ttl). split; [exact L|].
    rewrite S1. unfold redis_watch, write, touch. cbn [clock]. lia.
  - split; [now rewrite U2|]. split.
    + rewrite U2. cbn [snd]. unfold unwatch, remove, touch. cbn [db].
      apply lookup_delete_eq.
    + unfold r3. rewrite unlock_on_store, U2. cbn [snd fst].
      destruct (decide (c1 ∈ dirty (unwatch c2 (remove (_makeKey k) s1)))) as [_|N];
        [reflexivity|].
      exfalso. apply N. unfold unwatch, remove, touch. cbn [dirty watching].
      apply elem_of_difference. split.
      * apply elem_of_union_r. exact W1.
      * intros E. apply elem_of_singleton in E. contradiction.
Qed.

Lemma unlock_ignores_owner_witness :
  let s1 := (run (redis_conn 1) (lock (JStr "a") (Some 300)) (empty_redis 1000)).1.2 in
  let r2 := run (redis_conn 2) (unlock (JStr "a")) s1 in
  let r3 := run (redis_conn 1) (unlock (JStr "a")) r2.1.2 in
  (0 <= 300 -> held s1 (_makeKey "a"))
  /\ r2.1.1 = Resolved (JNum 1)
  /\ db r2.1.2 !! _makeKey "a" = None
  /\ r3.1.1 = Resolved (JNum 0).
Proof.
  apply (unlock_ignores_owner 1 2 (empty_redis 1000) "a" 300).
  - discriminate.
  - left. reflexivity.
  - apply not_elem_of_empty.
  - rewrite elem_of_watchers. intros (ks & H & _). discriminate H.
Defined.

(** X7.  Reading never writes.  On the store model [readWithLock] leaves
    every key and the clock as they were, whatever it returns, and on a
    string key its only effect is to end the connection's watches;
    [readWithRetryableLock] leaves every key as it was too, and only lets
    time pass. *)
Theorem reads_never_write (c : nat) (key : jsval) :
  (forall (s : redis) (out : outcome) (s' : redis) (tr : list event),
      run (redis_conn c) (readWithLock key) s = (out, s', tr) ->
      db s' = db s /\ clock s' = clock s
      /\ (typeof key = "string" -> s' = unwatch c s))
  /\ (forall (fuel : nat) (ra m : option Z) (s : redis) (out : option outcome)
             (s' : redis) (tr : list event),
         run (redis_conn c) (readWithRetryableLock fuel key ra m) s = (out, s', tr) ->
         db s' = db s /\ clock s <= clock s').
Proof.
  assert (One : forall s out s' tr,
             run (redis_conn c) (readWithLock key) s = (out, s', tr) ->
             db s' = db s /\ clock s' = clock s
             /\ (typeof key = "string" -> s' = unwatch c s)).
  { intros s out s' tr R.
    destruct key as [| | | |k|]; try (injection R as <- <- <-; repeat split; discriminate).
    pose proof (readWithLock_on_store c s k) as H. rewrite R in H. cbn [fst] in H.
    injection H as _ ->. repeat split. }
  split; [exact One|].
  intros fuel ra m. unfold readWithRetryableLock.
  generalize (default 0 m) as mx. generalize (default 150 ra) as r. generalize 0 as a.
  clear ra m. induction fuel as [|fuel IH]; intros a r mx s out s' tr R.
  - injection R as <- <- <-. split; [reflexivity|lia].
  - cbn [readWithRetryableLock_loop] in R.
    destruct ((mx <? 1) || (a <? mx)).
    + rewrite run_bind in R.
      destruct (run (redis_conn c) (readWithLock key) s) as [[o1 s1] t1] eqn:R1.
      apply One in R1 as (D1 & C1 & _).
      destruct o1 as [v|e|].
      * injection R as <- <- <-. split; [assumption|lia].
      * destruct (negb (strict_eq_num e 0)).
        -- injection R as <- <- <-. split; [assumption|lia].
        -- unfold _sleep in R. cbn [run redis_conn st_sleep] in R.
           destruct (run (redis_conn c) _ (advance r s1)) as [[o2 s2] t2] eqn:R2.
           apply IH in R2 as [D2 C2]. injection R as <- <- <-.
           unfold advance in *. cbn [db clock] in *. split; [congruence|lia].
      * injection R as <- <- <-. split; [assumption|lia].
    + injection R as <- <- <-. split; [reflexivity|lia].
Qed.

Lemma reads_never_write_witness :
  let r := run (redis_conn 0) (readWithLock (JStr "a")) held_store in
  db r.1.2 = db held_store /\ clock r.1.2 = clock held_store
  /\ (typeof (JStr "a") = "string" -> r.1.2 = unwatch 0 held_store).
Proof.
  intros r.
  apply (proj1 (reads_never_write 0 (JStr "a")) held_store r.1.1 r.1.2 r.2).
  subst r. now destruct (run _ _ _) as [[? ?] ?].
Defined.
Lemma readWithLock_held (c : nat) (s : redis) (k : string) :
  held s (_makeKey k) ->
  (run (redis_conn c) (readWithLock (JStr k)) s).1 = (Rejected (JNum 0), unwatch c s).
Proof.
  intros (E & L & Le). rewrite readWithLock_on_store, L. cbn [bulk].
  rewrite valid_at_String. replace (clock s <=? E) with true by lia.
  now destruct (decide (c ∈ dirty s)).
Qed.

(** X8.  While the lock is held, by anyone, [readWithLock] fails with the
    contended outcome on every connection of the store model.  In
    particular the caller that has just acquired the lock (with [ttl >= 0])
    cannot read under it: [readWithLock] right after its own [lock] is
    contended. *)
Theorem read_while_held_is_contended (c : nat) (s : redis) (k : string) :
  (held s (_makeKey k) ->
   (run (redis_conn c) (readWithLock (JStr k)) s).1.1 = Rejected (JNum 0))
  /\ (forall ttl : Z,
         free_or_expired s (_makeKey k) -> 0 <= ttl ->
         (run (redis_conn c)
            (bind (lock (JStr k) (Some ttl)) (fun _ => readWithLock (JStr k))) s).1.1
         = Rejected (JNum 0)).
Proof.
  split.
  - intros H. now rewrite (readWithLock_held c s k H).
  - intros ttl F Ht. rewrite run_bind.
    destruct (lock_acquires_free_or_expired c s k ttl F) as [t1 ->].
    set (s1 := redis_watch c (_makeKey k) (write (_makeKey k) (String_ (clock s + ttl)) s)).
    assert (H1 : held s1 (_makeKey k)).
    { exists (clock s + ttl). split.
      - unfold s1, redis_watch, write, touch. cbn [db]. apply lookup_insert_eq.
      - unfold s1, redis_watch, write, touch. cbn [clock]. lia. }
    pose proof (readWithLock_held c s1 k H1) as R.
    destruct (run (redis_conn c) (readWithLock (JStr k)) s1) as [[o2 s2] t2].
    cbn [fst] in *. now injection R as -> _.
Qed.

Lemma read_while_held_is_contended_witness :
  (run (redis_conn 0) (readWithLock (JStr "a")) held_store).1.1 = Rejected (JNum 0)
  /\ (run (redis_conn 0)
        (bind (lock (JStr "a") (Some 300)) (fun _ => readWithLock (JStr "a")))
        (empty_redis 1000)).1.1
     = Rejected (JNum 0).
Proof.
  split.
  - apply (proj1 (read_while_held_is_contended 0 held_store "a")).
    exists 1200. split; [reflexivity | vm_compute; discriminate].
  - apply (proj2 (read_while_held_is_contended 0 (empty_redis 1000) "a") 300).
    + left. reflexivity.
    + lia.
Defined.

(** ** Waiting for an expiry *)

Lemma sleeps_app (t1 t2 : list event) : sleeps (t1 ++ t2) = sleeps t1 ++ sleeps t2.
Proof. unfold sleeps. apply flat_map_app. Qed.

Lemma setnx_count_app (t1 t2 : list event) :
  setnx_count (t1 ++ t2) = (setnx_count t1 + setnx_count t2)%nat.
Proof. unfold setnx_count. now rewrite flat_map_app, length_app. Qed.

Lemma exec_count_app (t1 t2 : list event) :
  exec_count (t1 ++ t2) = (exec_count t1 + exec_count t2)%nat.
Proof. unfold exec_count. now rewrite flat_map_app, length_app. Qed.

Lemma sleeps_clock_read (v : jsval) (now : Z) : sleeps (clock_read v now) = [].
Proof. unfold clock_read. now destruct (truthy v). Qed.

Lemma setnx_count_clock_read (v : jsval) (now : Z) : setnx_count (clock_read v now) = 0%nat.
Proof. unfold clock_read. now destruct (truthy v). Qed.

(** A [lock] call never sleeps, and sends one [SETNX] on a string key and
    none otherwise. *)
Lemma lock_trace_counts {W} (h : Store W) (w : W) (key : jsval) (ttl : option Z)
    (out : outcome) (w' : W) (tr : list event) :
  run h (lock key ttl) w = (out, w', tr) ->
  sleeps tr = []
  /\ setnx_count tr = match key with JStr _ => 1%nat | _ => 0%nat end.
Proof.
  intros R.
  destruct key as [| | | |k|]; try (injection R as <- <- <-; now split).
  apply lock_default_path in R.
  destruct R; rewrite ?sleeps_app, ?setnx_count_app, ?sleeps_clock_read,
    ?setnx_count_clock_read; now split.
Qed.

(** A [readWithLock] call never sleeps, and sends one transaction on a string
    key and none otherwise. *)
Lemma readWithLock_trace_counts {W} (h : Store W) (w : W) (key : jsval)
    (out : outcome) (w' : W) (tr : list event) :
  run h (readWithLock key) w = (out, w', tr) ->
  sleeps tr = []
  /\ exec_count tr = match key with JStr _ => 1%nat | _ => 0%nat end.
Proof.
  unfold readWithLock, still_valid.
  destruct key as [| | | |k|]; try (intros [= <- <- <-]; now split).
  cbn [run]. destruct (st_exec h _ w) as [[err res] w1].
  destruct (truthy err); [intros [= <- <- <-]; now split|].
  destruct res as [l|]; [|intros [= <- <- <-]; now split].
  destruct (truthy (nth 0 l JUndefined)); cbn [run].
  - destruct (st_now h w1) as [now w2].
    destruct (ge_num _ now); intros [= <- <- <-]; now split.
  - intros [= <- <- <-]; now split.
Qed.
Section Expiry.
Variables (c : nat) (k : string) (E ra : Z).
Hypothesis ra_nonneg : 0 <= ra.

Lemma advance_nonneg (s : redis) :
  advance ra s = {| db := db s; clock := clock s + ra; watching := watching s;
                    dirty := dirty s |}.
Proof. unfold advance. now rewrite Z.max_r. Qed.

Lemma lock_rounds_held (ttl : Z) :
  forall (n : nat) (s : redis),
    db s !! _makeKey k = Some (String_ E) ->
    all_before_expiry E ra n s ->
    lock_fails (redis_conn c) n (JStr k) ttl ra s
    /\ (lock_rounds (redis_conn c) n (JStr k) ttl ra s).1
       = {| db := db s; clock := clock s + Z.of_nat n * ra; watching := watching s;
            dirty := dirty s |}
    /\ sleeps (lock_rounds (redis_conn c) n (JStr k) ttl ra s).2 = repeat ra n
    /\ setnx_count (lock_rounds (redis_conn c) n (JStr k) ttl ra s).2 = n.
Proof.
  induction n as [|n IH]; intros s L B.
  - cbn. repeat split. destruct s; cbn. f_equal. lia.
  - assert (H : held s (_makeKey k)).
    { exists E. split; [assumption|]. destruct B as [B|B]; [discriminate|]. nia. }
    destruct (lock_fails_held c s k ttl H) as [t1 R1].
    pose proof (lock_trace_counts _ _ _ _ _ _ _ R1) as [Sl Sx].
    cbn [lock_fails lock_rounds]. rewrite R1.
    cbn [redis_conn st_sleep]. rewrite advance_nonneg.
    set (s1 := {| db := db s; clock := clock s + ra; watching := watching s;
                  dirty := dirty s |}).
    destruct (IH s1) as (F & S' & Sl' & Sx'); [exact L | | ].
    { unfold all_before_expiry in *. cbn [clock s1].
      destruct B as [B|B]; [discriminate|]. destruct n; [now left|right]. nia. }
    destruct (lock_rounds (redis_conn c) n (JStr k) ttl ra s1) as [s2 t2].
    cbn [fst snd] in *. split; [now split|]. split.
    + rewrite S'. cbn [s1 db clock watching dirty]. f_equal. lia.
    + rewrite sleeps_app, setnx_count_app, Sl, Sx.
      change (sleeps (ESleep ra :: t2)) with (ra :: sleeps t2).
      change (setnx_count (ESleep ra :: t2)) with (setnx_count t2).
      rewrite Sl', Sx'. split; reflexivity.
Qed.

Lemma read_rounds_held :
  forall (n : nat) (s : redis),
    db s !! _makeKey k = Some (String_ E) ->
    all_before_expiry E ra n s ->
    read_contended (redis_conn c) n (JStr k) ra s
    /\ db (read_rounds (redis_conn c) n (JStr k) ra s).1 = db s
    /\ clock (read_rounds (redis_conn c) n (JStr k) ra s).1
       = clock s + Z.of_nat n * ra
    /\ (c ∉ dirty s -> c ∉ dirty (read_rounds (redis_conn c) n (JStr k) ra s).1)
    /\ sleeps (read_rounds (redis_conn c) n (JStr k) ra s).2 = repeat ra n
    /\ exec_count (read_rounds (redis_conn c) n (JStr k) ra s).2 = n.
Proof.
  induction n as [|n IH]; intros s L B.
  - cbn. repeat split; auto. lia.
  - assert (H : held s (_makeKey k)).
    { exists E. split; [assumption|]. destruct B as [B|B]; [discriminate|]. nia. }
    pose proof (readWithLock_held c s k H) as R1.
    cbn [read_contended read_rounds].
    destruct (run (redis_conn c) (readWithLock (JStr k)) s) as [[o1 s1] t1] eqn:R.
    cbn [fst] in R1. injection R1 as -> ->.
    pose proof (readWithLock_trace_counts _ _ _ _ _ _ R) as [Sl Sx].
    cbn [redis_conn st_sleep]. rewrite advance_nonneg.
    set (s1 := {| db := db (unwatch c s); clock := clock (unwatch c s) + ra;
                  watching := watching (unwatch c s); dirty := dirty (unwatch c s) |}).
    destruct (IH s1) as (F & D' & C' & N' & Sl' & Sx'); [exact L | | ].
    { unfold all_before_expiry in *. cbn [clock s1 unwatch].
      destruct B as [B|B]; [discriminate|]. destruct n; [now left|right].
      unfold unwatch. cbn [clock]. nia. }
    destruct (read_rounds (redis_conn c) n (JStr k) ra s1) as [s2 t2].
    cbn [fst snd] in *. split; [now split|].
    split; [rewrite D'; reflexivity|].
    split; [rewrite C'; unfold s1, unwatch; cbn [clock]; lia|].
    split.
    + intros _. apply N'. unfold s1, unwatch. cbn [dirty].
      apply not_elem_of_difference. right. now apply elem_of_singleton.
    + rewrite sleeps_app, exec_count_app, Sl, Sx.
      change (sleeps (ESleep ra :: t2)) with (ra :: sleeps t2).
      change (exec_count (ESleep ra :: t2)) with (exec_count t2).
      rewrite Sl', Sx'. split; reflexivity.
Qed.
End Expiry.
(** X9.  A lock left behind by a crashed holder is taken over.  On the store
    model, with the lock key holding the expiry [E] and attempts [ra >= 0]
    apart, [retryableLock] fails [n] times while the expiry has not passed,
    and acquires at the first attempt made after [E], provided that attempt
    is within [maxAttempts]: it resolves 1 after [n] sleeps and [n + 1]
    [SETNX] commands, and the lock key then holds that attempt's
    [now + ttl]. *)
Theorem retryableLock_takes_over_after_expiry (c : nat) (s : redis) (k : string)
    (E ttl ra : Z) (mo : option Z) (n fuel : nat) :
  db s !! _makeKey k = Some (String_ E) ->
  0 <= ra ->
  all_before_expiry E ra n s ->
  E < clock s + Z.of_nat n * ra ->
  (n < fuel)%nat ->
  default 0 mo < 1 \/ Z.of_nat n < default 0 mo ->
  exists (s' : redis) (tr : list event),
    run (redis_conn c) (retryableLock fuel (JStr k) (Some ttl) (Some ra) mo) s
    = (Some (Resolved (JNum 1)), s', tr)
    /\ db s' = <[_makeKey k := String_ (clock s + Z.of_nat n * ra + ttl)]> (db s)
    /\ clock s' = clock s + Z.of_nat n * ra
    /\ _makeKey k ∈ watched_by c s'
    /\ sleeps tr = repeat ra n
    /\ setnx_count tr = S n.
Proof.
  intros L Hra B Late Hf Hm.
  destruct (lock_rounds_held c k E ra Hra ttl n s L B) as (F & S1 & Sl & Sx).
  unfold retryableLock. cbn [default from_option id].
  set (m := default 0 mo) in *.
  replace fuel with (n + (fuel - n))%nat by lia.
  rewrite retryableLock_loop_rounds by (try assumption; lia).
  destruct (lock_rounds (redis_conn c) n (JStr k) ttl ra s) as [s1 t1].
  cbn [fst snd] in *.
  destruct (fuel - n)%nat as [|f] eqn:Ef; [lia|].
  cbn [retryableLock_loop].
  replace ((m <? 1) || (0 + Z.of_nat n <? m)) with true
    by (symmetry; apply orb_true_iff; lia).
  rewrite run_bind.
  assert (Fr : free_or_expired s1 (_makeKey k)).
  { right. exists E. rewrite S1. cbn [db clock]. split; [assumption|lia]. }
  destruct (lock_acquires_free_or_expired c s1 k ttl Fr) as [t2 R2].
  pose proof (lock_trace_counts _ _ _ _ _ _ _ R2) as [Sl2 Sx2].
  rewrite R2. cbn [strict_eq_num Z.eqb Pos.eqb run].
  eexists _, _. split; [reflexivity|].
  rewrite S1. unfold redis_watch, write, touch. cbn [db clock].
  split; [reflexivity|]. split; [reflexivity|]. split.
  - unfold watched_by. cbn [watching]. rewrite lookup_insert_eq. cbn.
    apply elem_of_union_l. now apply elem_of_singleton.
  - rewrite app_nil_r, sleeps_app, setnx_count_app, Sl, Sx, Sl2, Sx2, app_nil_r.
    split; [reflexivity|lia].
Qed.

Lemma retryableLock_takes_over_after_expiry_witness :
  exists (s' : redis) (tr : list event),
    run (redis_conn 0) (retryableLock 5 (JStr "a") (Some 300) (Some 150) None) held_store
    = (Some (Resolved (JNum 1)), s', tr)
    /\ db s' = <[_makeKey "a" := String_ (clock held_store + Z.of_nat 2 * 150 + 300)]>
                 (db held_store)
    /\ clock s' = clock held_store + Z.of_nat 2 * 150
    /\ _makeKey "a" ∈ watched_by 0 s'
    /\ sleeps tr = repeat 150 2
    /\ setnx_count tr = 3%nat.
Proof.
  apply (retryableLock_takes_over_after_expiry 0 held_store "a" 1200 300 150 None 2 5).
  - reflexivity.
  - lia.
  - right. vm_compute. discriminate.
  - vm_compute. reflexivity.
  - lia.
  - left. simpl. lia.
Defined.

(** X10.  A reader waits for the writer's lock to expire.  On the store
    model, with the lock key holding the expiry [E], the connection not
    marked, and attempts [ra >= 0] apart, [readWithRetryableLock] is contended
    [n] times while the expiry has not passed, and at the first attempt made
    after [E] (within [maxAttempts]) it resolves with the value stored at the
    key, null when there is none, having written nothing. *)
Theorem readWithRetryableLock_waits_for_expiry (c : nat) (s : redis) (k : string)
    (E ra : Z) (mo : option Z) (n fuel : nat) :
  c ∉ dirty s ->
  db s !! _makeKey k = Some (String_ E) ->
  0 <= ra ->
  all_before_expiry E ra n s ->
  E < clock s + Z.of_nat n * ra ->
  (n < fuel)%nat ->
  default 0 mo < 1 \/ Z.of_nat n < default 0 mo ->
  exists (s' : redis) (tr : list event),
    run (redis_conn c) (readWithRetryableLock fuel (JStr k) (Some ra) mo) s
    = (Some (Resolved (bulk (db s !! k))), s', tr)
    /\ db s' = db s
    /\ clock s' = clock s + Z.of_nat n * ra
    /\ sleeps tr = repeat ra n
    /\ exec_count tr = S n.
Proof.
  intros Hd L Hra B Late Hf Hm.
  destruct (read_rounds_held c k E ra Hra n s L B) as (F & D1 & C1 & N1 & Sl & Sx).
  unfold readWithRetryableLock. cbn [default from_option id].
  set (m := default 0 mo) in *.
  replace fuel with (n + (fuel - n))%nat by lia.
  rewrite readWithRetryableLock_loop_rounds by (try assumption; lia).
  destruct (read_rounds (redis_conn c) n (JStr k) ra s) as [s1 t1].
  cbn [fst snd] in *. specialize (N1 Hd).
  destruct (fuel - n)%nat as [|f] eqn:Ef; [lia|].
  cbn [readWithRetryableLock_loop].
  replace ((m <? 1) || (0 + Z.of_nat n <? m)) with true
    by (symmetry; apply orb_true_iff; lia).
  rewrite run_bind.
  pose proof (readWithLock_on_store c s1 k) as R2.
  destruct (run (redis_conn c) (readWithLock (JStr k)) s1) as [[o2 s2] t2] eqn:R.
  pose proof (readWithLock_trace_counts _ _ _ _ _ _ R) as [Sl2 Sx2].
  cbn [fst] in R2. destruct (decide (c ∈ dirty s1)); [contradiction|].
  rewrite D1, L in R2. cbn [bulk] in R2. rewrite valid_at_String in R2.
  replace (clock s1 <=? E) with false in R2 by lia.
  injection R2 as -> ->. cbn [run].
  eexists _, _. split; [reflexivity|].
  unfold unwatch. cbn [db clock]. split; [assumption|]. split; [assumption|].
  rewrite app_nil_r, sleeps_app, exec_count_app, Sl, Sx, Sl2, Sx2, app_nil_r.
  split; [reflexivity|lia].
Qed.

Lemma readWithRetryableLock_waits_for_expiry_witness :
  exists (s' : redis) (tr : list event),
    run (redis_conn 0) (readWithRetryableLock 5 (JStr "a") (Some 150) None) held_store
    = (Some (Resolved (bulk (db held_store !! "a"))), s', tr)
    /\ db s' = db held_store
    /\ clock s' = clock held_store + Z.of_nat 2 * 150
    /\ sleeps tr = repeat 150 2
    /\ exec_count tr = 3%nat.
Proof.
  apply (readWithRetryableLock_waits_for_expiry 0 held_store "a" 1200 150 None 2 5).
  - apply not_elem_of_empty.
  - reflexivity.
  - lia.
  - right. vm_compute. discriminate.
  - vm_compute. reflexivity.
  - lia.
  - left. simpl. lia.
Defined.
(** ** The retry loops, on any store *)

Section LoopBounds.
Context {W : Type} (h : Store W).

Lemma retryableLock_loop_bound (key : jsval) (ttl ra m : Z) :
  1 <= m ->
  forall (fuel : nat) (a : Z) (w : W) (out : option outcome) (w' : W) (tr : list event),
    0 <= a <= m ->
    run h (retryableLock_loop fuel key ttl ra m a) w = (out, w', tr) ->
    (length (sleeps tr) <= Z.to_nat (m - a))%nat
    /\ Forall (fun d => d = ra) (sleeps tr)
    /\ (setnx_count tr <= Z.to_nat (m - a))%nat
    /\ ((Z.to_nat (m - a) < fuel)%nat -> out <> None)
    /\ (out = Some (Resolved (JNum 0)) -> length (sleeps tr) = Z.to_nat (m - a))
    /\ (forall v, out = Some (Resolved v) -> v = JNum 1 \/ v = JNum 0).
Proof.
  intros Hm. induction fuel as [|fuel IH]; intros a w out w' tr Ha R.
  - injection R as <- <- <-. cbn.
    split; [lia|]. split; [constructor|]. split; [lia|]. split; [lia|].
    split; discriminate.
  - cbn [retryableLock_loop] in R.
    replace ((m <? 1) || (a <? m)) with (a <? m) in R
      by (replace (m <? 1) with false by lia; reflexivity).
    destruct (a <? m) eqn:Lt.
    + rewrite run_bind in R.
      destruct (run h (lock key (Some ttl)) w) as [[o1 w1] t1] eqn:R1.
      pose proof (lock_trace_counts h w key (Some ttl) o1 w1 t1 R1) as [Sl Sx].
      assert (Sx1 : (setnx_count t1 <= 1)%nat) by (rewrite Sx; destruct key; lia).
      destruct o1 as [v|e|].
      * destruct (strict_eq_num v 1) eqn:V.
        -- cbn [run] in R. injection R as <- <- <-. rewrite app_nil_r, Sl. cbn.
           split; [lia|]. split; [constructor|]. split; [lia|].
           split; [discriminate|]. split; [discriminate|].
           intros v' [= <-]. now left.
        -- unfold _sleep in R. cbn [run] in R.
           destruct (run h _ (st_sleep h ra w1)) as [[o2 w2] t2] eqn:R2.
           apply IH in R2 as (B1 & B2 & B3 & B4 & B5 & B6); [|lia].
           injection R as <- <- <-.
           rewrite sleeps_app, setnx_count_app, Sl.
           change (sleeps (ESleep ra :: t2)) with (ra :: sleeps t2).
           change (setnx_count (ESleep ra :: t2)) with (setnx_count t2).
           cbn [app length].
           replace (Z.to_nat (m - a)) with (S (Z.to_nat (m - (a + 1)))) by lia.
           split; [lia|]. split; [now constructor|]. split; [lia|].
           split; [intros Hf; apply B4; lia|].
           split; [intros E; now rewrite (B5 E)|exact B6].
      * cbn [run] in R. injection R as <- <- <-. rewrite app_nil_r, Sl. cbn.
        split; [lia|]. split; [constructor|]. split; [lia|].
        split; [discriminate|]. split; discriminate.
      * cbn [run] in R. injection R as <- <- <-. rewrite app_nil_r, Sl. cbn.
        split; [lia|]. split; [constructor|]. split; [lia|].
        split; [discriminate|]. split; discriminate.
    + injection R as <- <- <-. cbn.
      replace (Z.to_nat (m - a)) with 0%nat by lia.
      split; [lia|]. split; [constructor|]. split; [lia|].
      split; [discriminate|]. split; [reflexivity|].
      intros v [= <-]. now right.
Qed.

Lemma retryableLock_loop_unlimited (key : jsval) (ttl ra m : Z) :
  m < 1 ->
  forall (fuel : nat) (a : Z) (w : W) (out : option outcome) (w' : W) (tr : list event),
    run h (retryableLock_loop fuel key ttl ra m a) w = (out, w', tr) ->
    forall v, out = Some (Resolved v) -> v = JNum 1.
Proof.
  intros Hm. induction fuel as [|fuel IH]; intros a w out w' tr R v Ev.
  - injection R as <- <- <-. discriminate Ev.
  - cbn [retryableLock_loop] in R.
    replace (m <? 1) with true in R by lia. cbn [orb] in R.
    rewrite run_bind in R.
    destruct (run h (lock key (Some ttl)) w) as [[o1 w1] t1].
    destruct o1 as [v1|e|].
    + destruct (strict_eq_num v1 1).
      * cbn [run] in R. injection R as <- <- <-. now injection Ev as <-.
      * unfold _sleep in R. cbn [run] in R.
        destruct (run h _ (st_sleep h ra w1)) as [[o2 w2] t2] eqn:R2.
        injection R as <- <- <-. exact (IH _ _ _ _ _ R2 v Ev).
    + cbn [run] in R. injection R as <- <- <-. discriminate Ev.
    + cbn [run] in R. injection R as <- <- <-. discriminate Ev.
Qed.


Lemma readWithRetryableLock_loop_unlimited (key : jsval) (ra m : Z) :
  m < 1 ->
  forall (fuel : nat) (a : Z) (w : W) (out : option outcome) (w' : W) (tr : list event),
    run h (readWithRetryableLock_loop fuel key ra m a) w = (out, w', tr) ->
    forall e, out = Some (Rejected e) -> e <> JNum 0.
Proof.
  intros Hm. induction fuel as [|fuel IH]; intros a w out w' tr R e Ee.
  - injection R as <- <- <-. discriminate Ee.
  - cbn [readWithRetryableLock_loop] in R.
    replace (m <? 1) with true in R by lia. cbn [orb] in R.
    rewrite run_bind in R.
    destruct (run h (readWithLock key) w) as [[o1 w1] t1].
    destruct o1 as [v1|e1|].
    + cbn [run] in R. injection R as <- <- <-. discriminate Ee.
    + destruct (strict_eq_num e1 0) eqn:V; cbn [negb] in R.
      * unfold _sleep in R. cbn [run] in R.
        destruct (run h _ (st_sleep h ra w1)) as [[o2 w2] t2] eqn:R2.
        injection R as <- <- <-. exact (IH _ _ _ _ _ R2 e Ee).
      * cbn [run] in R. injection R as <- <- <-. injection Ee as <-.
        intros ->. discriminate V.
    + cbn [run] in R. injection R as <- <- <-. discriminate Ee.
Qed.
End LoopBounds.

Lemma store_ok_dec (tr : list event) : store_ok tr \/ ~ store_ok tr.
Proof.
  unfold store_ok. induction tr as [|e tr IH]; [left; constructor|].
  destruct (truthy (err_of e)) eqn:T.
  - right. intros F. inversion F; subst. congruence.
  - destruct IH as [IH|IH]; [left; now constructor|].
    right. intros F. inversion F; subst. now apply IH.
Qed.

Section LoopSettles.
Context {W : Type} (h : Store W).

Lemma retryableLock_loop_settles (key : jsval) (ttl ra m : Z) :
  forall (fuel : nat) (a : Z) (w : W) (out : option outcome) (w' : W) (tr : list event),
    run h (retryableLock_loop fuel key ttl ra m a) w = (out, w', tr) ->
    (out = Some Pending <-> ~ store_ok tr)
    /\ (forall e, out = Some (Rejected e) -> e = key_error /\ typeof key <> "string").
Proof.
  induction fuel as [|fuel IH]; intros a w out w' tr R.
  - injection R as <- <- <-. split; [|discriminate].
    split; [discriminate|]. intros N. destruct N. constructor.
  - cbn [retryableLock_loop] in R.
    destruct ((m <? 1) || (a <? m)).
    + rewrite run_bind in R.
      destruct (run h (lock key (Some ttl)) w) as [[o1 w1] t1] eqn:R1.
      pose proof (lock_pending_iff h w key ttl o1 w1 t1 R1) as P.
      destruct o1 as [v|e|].
      * assert (Ok1 : store_ok t1).
        { destruct (store_ok_dec t1) as [Ok|N]; [assumption|].
          apply P in N. discriminate. }
        destruct (strict_eq_num v 1).
        -- cbn [run] in R. injection R as <- <- <-. rewrite app_nil_r.
           split; [|discriminate]. split; [discriminate|]. intros N. now destruct N.
        -- unfold _sleep in R. cbn [run] in R.
           destruct (run h _ (st_sleep h ra w1)) as [[o2 w2] t2] eqn:R2.
           apply IH in R2 as [Q1 Q2]. injection R as <- <- <-.
           split; [|exact Q2]. rewrite Q1. unfold store_ok in *.
           rewrite Forall_app, Forall_cons. cbn [err_of truthy]. tauto.
      * cbn [run] in R. injection R as <- <- <-. rewrite app_nil_r.
        destruct key as [| |b|n|k|o];
          try (injection R1 as <- <- <-; split;
               [split; [discriminate | intros N; destruct N; constructor]
               |intros e' [= <-]; split; [reflexivity|discriminate]]).
        apply lock_run_path in R1. inversion R1.
      * cbn [run] in R. injection R as <- <- <-. rewrite app_nil_r.
        split; [|discriminate]. split; [intros _; now apply P | reflexivity].
    + injection R as <- <- <-. split; [|discriminate].
      split; [discriminate|]. intros N. destruct N. constructor.
Qed.
End LoopSettles.

(** X11.  Whatever the store replies, [retryableLock] with
    [maxAttempts >= 1] makes at most [maxAttempts] attempts: it never sends
    more than [maxAttempts] [SETNX] commands nor sleeps more than
    [maxAttempts] times, each sleep is [retryAfter], and the loop has ended
    once the fuel exceeds [maxAttempts].  It resolves 0 or 1 when it
    resolves, and resolves 0 only after exactly [maxAttempts] sleeps; it
    rejects only with the key error, on a key that is not a string.  It ends
    pending, never settled, exactly when one of its store commands failed;
    when none failed and the loop has ended, it has settled. *)
Theorem retryableLock_bounded {W} (h : Store W) (w : W) (key : jsval)
    (ttl ra : option Z) (m : Z) (fuel : nat) (out : option outcome) (w' : W)
    (tr : list event) :
  1 <= m ->
  run h (retryableLock fuel key ttl ra (Some m)) w = (out, w', tr) ->
  (length (sleeps tr) <= Z.to_nat m)%nat
  /\ Forall (fun d => d = default 150 ra) (sleeps tr)
  /\ (setnx_count tr <= Z.to_nat m)%nat
  /\ ((Z.to_nat m < fuel)%nat -> out <> None)
  /\ (out = Some (Resolved (JNum 0)) -> length (sleeps tr) = Z.to_nat m)
  /\ (forall v, out = Some (Resolved v) -> v = JNum 1 \/ v = JNum 0)
  /\ (forall e, out = Some (Rejected e) -> e = key_error /\ typeof key <> "string")
  /\ (out = Some Pending <-> ~ store_ok tr)
  /\ ((Z.to_nat m < fuel)%nat -> store_ok tr ->
      out = Some (Resolved (JNum 1)) \/ out = Some (Resolved (JNum 0))
      \/ (out = Some (Rejected key_error) /\ typeof key <> "string")).
Proof.
  intros Hm R. unfold retryableLock in R. cbn [default from_option id] in R.
  pose proof (retryableLock_loop_settles h _ _ _ _ _ _ _ _ _ _ R) as [P Q].
  apply retryableLock_loop_bound in R; [|assumption|lia].
  rewrite Z.sub_0_r in R. destruct R as (B1 & B2 & B3 & B4 & B5 & B6).
  repeat (split; [assumption|]).
  intros Hf Ok. specialize (B4 Hf).
  destruct out as [[v|e|]|]; [| | |congruence].
  - destruct (B6 v eq_refl) as [-> | ->]; [now left | right; now left].
  - destruct (Q e eq_refl) as [-> T]. right. right. now split.
  - exfalso. now apply P.
Qed.

Lemma retryableLock_bounded_witness :
  let r := run (redis_conn 0) (retryableLock 9 (JStr "a") None None (Some 3)) held_store in
  (length (sleeps r.2) <= Z.to_nat 3)%nat
  /\ Forall (fun d => d = default 150 None) (sleeps r.2)
  /\ (setnx_count r.2 <= Z.to_nat 3)%nat
  /\ ((Z.to_nat 3 < 9)%nat -> r.1.1 <> None)
  /\ (r.1.1 = Some (Resolved (JNum 0)) -> length (sleeps r.2) = Z.to_nat 3)
  /\ (forall v, r.1.1 = Some (Resolved v) -> v = JNum 1 \/ v = JNum 0)
  /\ (forall e, r.1.1 = Some (Rejected e) ->
        e = key_error /\ typeof (JStr "a") <> "string")
  /\ (r.1.1 = Some Pending <-> ~ store_ok r.2)
  /\ ((Z.to_nat 3 < 9)%nat -> store_ok r.2 ->
      r.1.1 = Some (Resolved (JNum 1)) \/ r.1.1 = Some (Resolved (JNum 0))
      \/ (r.1.1 = Some (Rejected key_error) /\ typeof (JStr "a") <> "string")).
Proof.
  intros r.
  apply (retryableLock_bounded (redis_conn 0) held_store (JStr "a") None None 3 9
           r.1.1 r.1.2 r.2).
  - lia.
  - subst r. now destruct (run _ _ _) as [[? ?] ?].
Defined.



(** X13.  With [maxAttempts < 1] (0, negative, or omitted) the wrappers never
    give up, whatever the store replies: [retryableLock] never resolves not
    acquired, the only value it resolves with is 1, and
    [readWithRetryableLock] never fails with the contended outcome. *)
Theorem unlimited_retry_never_gives_up {W} (h : Store W) (w : W) (key : jsval)
    (ra mo : option Z) (fuel : nat) (w' : W) (tr : list event) :
  default 0 mo < 1 ->
  (forall ttl v,
      run h (retryableLock fuel key ttl ra mo) w = (Some (Resolved v), w', tr) ->
      v = JNum 1)
  /\ (forall e,
         run h (readWithRetryableLock fuel key ra mo) w = (Some (Rejected e), w', tr) ->
         e <> JNum 0).
Proof.
  intros Hm. split.
  - intros ttl v R. unfold retryableLock in R.
    exact (retryableLock_loop_unlimited h key _ _ _ Hm _ _ _ _ _ _ R v eq_refl).
  - intros e R. unfold readWithRetryableLock in R.
    exact (readWithRetryableLock_loop_unlimited h key _ _ Hm _ _ _ _ _ _ R e eq_refl).
Qed.

Lemma unlimited_retry_never_gives_up_witness :
  let r := run (redis_conn 0) (retryableLock 9 (JStr "a") (Some 300) (Some 150) None)
             held_store in
  let q := run (redis_conn 0) (readWithRetryableLock 9 (JStr "a") (Some 150) None)
             held_store in
  (forall v, r.1.1 = Some (Resolved v) -> v = JNum 1)
  /\ (forall e, q.1.1 = Some (Rejected e) -> e <> JNum 0).
Proof.
  intros r q. split.
  - intros v R.
    apply (proj1 (unlimited_retry_never_gives_up (redis_conn 0) held_store (JStr "a")
                    (Some 150) None 9 r.1.2 r.2 ltac:(simpl; lia)) (Some 300) v).
    subst r. rewrite <- R. now destruct (run _ _ _) as [[? ?] ?].
  - intros e R.
    apply (proj2 (unlimited_retry_never_gives_up (redis_conn 0) held_store (JStr "a")
                    (Some 150) None 9 q.1.2 q.2 ltac:(simpl; lia)) e).
    subst q. rewrite <- R. now destruct (run _ _ _) as [[? ?] ?].
Defined.

(** X14.  On a key that is not a string both wrappers fail with the key error
    at the first pass through the loop, for every [maxAttempts] and
    [retryAfter]: no command is sent, no sleep is made, and the store is left
    as it was. *)
Theorem retry_wrappers_reject_non_string_key (key : jsval) :
  typeof key <> "string" ->
  forall W (h : Store W) (w : W) (fuel : nat) (ttl ra m : option Z),
    run h (retryableLock (S fuel) key ttl ra m) w = (Some (Rejected key_error), w, [])
    /\ run h (readWithRetryableLock (S fuel) key ra m) w
       = (Some (Rejected key_error), w, []).
Proof.
  intros T W h w fuel ttl ra m.
  unfold retryableLock, readWithRetryableLock.
  cbn [retryableLock_loop readWithRetryableLock_loop].
  replace ((default 0 m <? 1) || (0 <? default 0 m)) with true
    by (symmetry; apply orb_true_iff; lia).
  destruct key; try (now destruct T); split; reflexivity.
Qed.

Lemma retry_wrappers_reject_non_string_key_witness :
  typeof (JNum 7) <> "string"
  /\ run (redis_conn 0) (retryableLock 1 (JNum 7) None None (Some 3)) held_store
     = (Some (Rejected key_error), held_store, [])
  /\ run (redis_conn 0) (readWithRetryableLock 1 (JNum 7) None None) held_store
     = (Some (Rejected key_error), held_store, []).
Proof.
  split; [discriminate|].
  split.
  - apply (retry_wrappers_reject_non_string_key (JNum 7) ltac:(discriminate) redis
             (redis_conn 0) held_store 0%nat None None (Some 3)).
  - apply (retry_wrappers_reject_non_string_key (JNum 7) ltac:(discriminate) redis
             (redis_conn 0) held_store 0%nat None None None).
Defined.

(** X15.  The wrappers return the first attempt that does not fail by
    contention.  On any store, after [n] failed attempts with the next one
    still within [maxAttempts]: when that [lock] acquires, [retryableLock]
    resolves 1, and when that [readWithLock] resolves with [v],
    [readWithRetryableLock] resolves with [v]; in both cases the events end
    with that attempt, with no sleep after it. *)
Theorem retry_wrappers_return_first_success {W} (h : Store W) (key : jsval) (ra : Z)
    (w : W) (mo : option Z) (n fuel : nat) :
  (n < fuel)%nat ->
  default 0 mo < 1 \/ Z.of_nat n < default 0 mo ->
  (forall (ttl : Z) (w1 : W) (t1 : list event),
      lock_fails h n key ttl ra w ->
      run h (lock key (Some ttl)) (lock_rounds h n key ttl ra w).1
      = (Resolved (JNum 1), w1, t1) ->
      run h (retryableLock fuel key (Some ttl) (Some ra) mo) w =
      (Some (Resolved (JNum 1)), w1, (lock_rounds h n key ttl ra w).2 ++ t1))
  /\ (forall (v : jsval) (w1 : W) (t1 : list event),
         read_contended h n key ra w ->
         run h (readWithLock key) (read_rounds h n key ra w).1 = (Resolved v, w1, t1) ->
         run h (readWithRetryableLock fuel key (Some ra) mo) w =
         (Some (Resolved v), w1, (read_rounds h n key ra w).2 ++ t1)).
Proof.
  intros Hf Hm. unfold retryableLock, readWithRetryableLock.
  cbn [default from_option id]. set (m := default 0 mo) in *. split.
  - intros ttl w1 t1 F R.
    replace fuel with (n + (fuel - n))%nat by lia.
    rewrite retryableLock_loop_rounds by (try assumption; lia).
    destruct (lock_rounds h n key ttl ra w) as [w0 t0]. cbn [fst snd] in *.
    destruct (fuel - n)%nat as [|f] eqn:E; [lia|].
    cbn [retryableLock_loop].
    replace ((m <? 1) || (0 + Z.of_nat n <? m)) with true
      by (symmetry; apply orb_true_iff; lia).
    rewrite run_bind, R. cbn [strict_eq_num Z.eqb Pos.eqb run].
    now rewrite app_nil_r.
  - intros v w1 t1 F R.
    replace fuel with (n + (fuel - n))%nat by lia.
    rewrite readWithRetryableLock_loop_rounds by (try assumption; lia).
    destruct (read_rounds h n key ra w) as [w0 t0]. cbn [fst snd] in *.
    destruct (fuel - n)%nat as [|f] eqn:E; [lia|].
    cbn [readWithRetryableLock_loop].
    replace ((m <? 1) || (0 + Z.of_nat n <? m)) with true
      by (symmetry; apply orb_true_iff; lia).
    rewrite run_bind, R. cbn [run]. now rewrite app_nil_r.
Qed.

Lemma retry_wrappers_return_first_success_witness :
  (run (redis_conn 0) (retryableLock 4 (JStr "a") (Some 300) (Some 150) (Some 3))
     held_store).1.1 = Some (Resolved (JNum 1))
  /\ (run (redis_conn 0) (readWithRetryableLock 4 (JStr "a") (Some 150) (Some 3))
        held_store).1.1 = Some (Resolved JNull).
Proof.
  destruct (retry_wrappers_return_first_success (redis_conn 0) (JStr "a") 150 held_store
              (Some 3) 2 4 ltac:(lia) ltac:(right; simpl; lia)) as [L R].
  split.
  - erewrite L; [reflexivity | vm_compute; tauto | vm_compute; reflexivity].
  - erewrite R; [reflexivity | vm_compute; tauto | vm_compute; reflexivity].
Defined.

(** X16.  [unlock] twice in a row always removes the lock.  On the store
    model the first [unlock] ends the connection's watches, so the second is
    never aborted: after the two calls the lock key is absent, whoever held
    the lock and whether or not the first call was aborted.  When the first
    call is aborted (the connection was marked) and the lock key exists, the
    calls resolve 0 and then 1. *)
Theorem unlock_twice_removes_lock (c : nat) (s : redis) (k : string) :
  let r1 := run (redis_conn c) (unlock (JStr k)) s in
  let r2 := run (redis_conn c) (unlock (JStr k)) r1.1.2 in
  db r2.1.2 !! _makeKey k = None
  /\ (forall k', k' <> _makeKey k -> db r2.1.2 !! k' = db s !! k')
  /\ (c ∈ dirty s -> is_Some (db s !! _makeKey k) ->
      r1.1.1 = Resolved (JNum 0) /\ db r1.1.2 = db s /\ r2.1.1 = Resolved (JNum 1))
  /\ (c ∉ dirty s -> r2.1.1 = Resolved (JNum 0)).
Proof.
  intros r1 r2.
  pose proof (unlock_on_store c s k) as U1. fold r1 in U1.
  pose proof (unlock_on_store c r1.1.2 k) as U2. fold r2 in U2.
  assert (Clean : forall s0, c ∉ dirty (unwatch c s0)).
  { intros s0. unfold unwatch. cbn [dirty]. apply not_elem_of_difference. right.
    now apply elem_of_singleton. }
  destruct (decide (c ∈ dirty s)) as [D|D].
  - rewrite (surjective_pairing r1.1) in U1. injection U1 as O1 S1.
    rewrite S1 in U2. destruct (decide (c ∈ dirty (unwatch c s))) as [D'|_];
      [now destruct (Clean s)|].
    change (db (unwatch c s)) with (db s) in U2.
    destruct (db s !! _makeKey k) as [v|] eqn:L;
      rewrite (surjective_pairing r2.1) in U2; injection U2 as O2 S2; rewrite S2, ?S1.
    + split; [apply lookup_delete_eq|]. split.
      * intros k' Hk. unfold unwatch, remove, touch. cbn [db].
        now rewrite lookup_delete_ne.
      * split; [intros _ _; repeat split; auto|contradiction].
    + split; [exact L|]. split; [reflexivity|].
      split; [intros _ [? [=]]|contradiction].
  - destruct (db s !! _makeKey k) as [v|] eqn:L;
      rewrite (surjective_pairing r1.1) in U1; injection U1 as O1 S1; rewrite S1 in U2.
    + destruct (decide (c ∈ dirty (unwatch c (remove (_makeKey k) s)))) as [D'|_];
        [now destruct (Clean (remove (_makeKey k) s))|].
      assert (L' : db (unwatch c (remove (_makeKey k) s)) !! _makeKey k = None)
        by (unfold unwatch, remove, touch; cbn [db]; apply lookup_delete_eq).
      rewrite L' in U2.
      rewrite (surjective_pairing r2.1) in U2; injection U2 as O2 S2; rewrite S2.
      split; [exact L'|]. split.
      * intros k' Hk. unfold unwatch, remove, touch. cbn [db].
        now rewrite lookup_delete_ne.
      * split; [contradiction|auto].
    + destruct (decide (c ∈ dirty (unwatch c s))) as [D'|_];
        [now destruct (Clean s)|].
      change (db (unwatch c s)) with (db s) in U2. rewrite L in U2.
      rewrite (surjective_pairing r2.1) in U2; injection U2 as O2 S2; rewrite S2.
      split; [exact L|]. split; [reflexivity|]. split; [contradiction|auto].
Qed.
Lemma unlock_twice_removes_lock_witness :
  let r1 := run (redis_conn 0) (unlock (JStr "a")) stolen_store in
  let r2 := run (redis_conn 0) (unlock (JStr "a")) r1.1.2 in
  r1.1.1 = Resolved (JNum 0) /\ db r1.1.2 = db stolen_store
  /\ r2.1.1 = Resolved (JNum 1).
Proof.
  apply (proj1 (proj2 (proj2 (unlock_twice_removes_lock 0 stolen_store "a")))).
  - apply (bool_decide_unpack _). vm_compute. exact I.
  - eexists. vm_compute. reflexivity.
Defined.
(** ** The race for a key in any state *)

Section StealRace.
Variables (lk : string) (c0 ttl : Z) (v0 : option Z).

Lemma rstep_start (i : nat) (s : redis) :
  step (redis_conn i) (rphase_prog lk ttl RStart) s
  = (rphase_prog lk ttl (RSetnx (clock s)), s, Some (ENow (clock s))).
Proof. reflexivity. Qed.

Lemma rstep_setnx_free (i : nat) (s : redis) (now0 : Z) :
  db s !! lk = None ->
  step (redis_conn i) (rphase_prog lk ttl (RSetnx now0)) s
  = (rphase_prog lk ttl RWatch, write lk (String_ (now0 + ttl)) s,
     Some (ESetnx lk (now0 + ttl) JNull (JNum 1))).
Proof. intros F. cbn. unfold redis_setnx. now rewrite F. Qed.

Lemma rstep_setnx_taken (i : nat) (s : redis) (now0 : Z) (v : string) :
  db s !! lk = Some v ->
  step (redis_conn i) (rphase_prog lk ttl (RSetnx now0)) s
  = (rphase_prog lk ttl RGet, s, Some (ESetnx lk (now0 + ttl) JNull (JNum 0))).
Proof. intros F. cbn. unfold redis_setnx. now rewrite F. Qed.

Lemma rstep_get (i : nat) (s : redis) (E : Z) :
  db s !! lk = Some (String_ E) ->
  step (redis_conn i) (rphase_prog lk ttl RGet) s
  = (rphase_prog lk ttl (RCheck E), s, Some (EGet lk JNull (JStr (String_ E)))).
Proof. intros F. cbn. now rewrite F. Qed.

Lemma rstep_check (i : nat) (s : redis) (cur : Z) :
  step (redis_conn i) (rphase_prog lk ttl (RCheck cur)) s
  = (rphase_prog lk ttl (if clock s <=? cur then RDone 0 else RSteal), s,
     Some (ENow (clock s))).
Proof.
  cbn [rphase_prog]. unfold lock_check, still_valid.
  rewrite truthy_String. cbn [step redis_conn st_now]. rewrite ge_num_String.
  now destruct (clock s <=? cur).
Qed.

Lemma rstep_steal (i : nat) (s : redis) :
  step (redis_conn i) (rphase_prog lk ttl RSteal) s
  = (rphase_prog lk ttl (RGetset (clock s)), s, Some (ENow (clock s))).
Proof. reflexivity. Qed.

Lemma rstep_getset (i : nat) (s : redis) (now2 X : Z) :
  db s !! lk = Some (String_ X) ->
  step (redis_conn i) (rphase_prog lk ttl (RGetset now2)) s
  = (rphase_prog lk ttl (RCheck2 X), write lk (String_ (now2 + ttl)) s,
     Some (EGetset lk (now2 + ttl) JNull (JStr (String_ X)))).
Proof. intros F. cbn. unfold redis_getset. now rewrite F. Qed.

Lemma rstep_check2 (i : nat) (s : redis) (prev : Z) :
  step (redis_conn i) (rphase_prog lk ttl (RCheck2 prev)) s
  = (rphase_prog lk ttl (if clock s <=? prev then RDone 0 else RWatch), s,
     Some (ENow (clock s))).
Proof.
  cbn [rphase_prog]. unfold lock_check2, still_valid.
  rewrite truthy_String. cbn [step redis_conn st_now]. rewrite ge_num_String.
  now destruct (clock s <=? prev).
Qed.

Lemma rstep_watch (i : nat) (s : redis) :
  step (redis_conn i) (rphase_prog lk ttl RWatch) s
  = (rphase_prog lk ttl (RDone 1), redis_watch i lk s, Some (EWatch lk)).
Proof. reflexivity. Qed.

Lemma rstep_done (i : nat) (s : redis) (v : Z) :
  step (redis_conn i) (rphase_prog lk ttl (RDone v)) s
  = (rphase_prog lk ttl (RDone v), s, None).
Proof. reflexivity. Qed.

Lemma unwritten_loser (now : Z) (ph : rphase) :
  unwritten c0 v0 now ph -> rloser c0 ttl ph.
Proof. destruct ph; simpl; tauto. Qed.

Lemma stale_later (now now' : Z) : now <= now' -> stale v0 now -> stale v0 now'.
Proof. intros Le (E0 & H & Lt). exists E0. split; [assumption|lia]. Qed.

Lemma unwritten_later (now now' : Z) (ph : rphase) :
  now <= now' -> unwritten c0 v0 now ph -> unwritten c0 v0 now' ph.
Proof.
  intros Le. destruct ph; simpl; try tauto.
  - now apply stale_later.
  - intros [H1 H2]. split; [assumption|]. now apply (stale_later now).
Qed.

Lemma rwinner_later (now now' : Z) (ph : rphase) :
  now <= now' -> rwinner now ph -> rwinner now' ph.
Proof. intros Le. destruct ph; simpl; try tauto. lia. Qed.

(** Time passes. *)
Lemma steal_inv_later (phs : list rphase) (cur : option string) (now now' : Z) :
  now <= now' ->
  steal_inv c0 ttl v0 phs cur now -> steal_inv c0 ttl v0 phs cur now'.
Proof.
  intros Le [Hc [[Hv U] | (E & wi & -> & HE & (pw & Pw & W) & Others)]].
  - split; [lia|]. left. split; [assumption|].
    eapply Forall_impl; [exact U|]. intros ph. now apply unwritten_later.
  - split; [lia|]. right. exists E, wi. split; [reflexivity|]. split; [assumption|].
    split; [|assumption]. exists pw. split; [assumption|]. now apply (rwinner_later now).
Qed.

(** A caller moves on without writing. *)
Lemma steal_inv_move (phs : list rphase) (cur : option string) (now : Z) (i : nat)
    (ph ph' : rphase) :
  steal_inv c0 ttl v0 phs cur now ->
  phs !! i = Some ph ->
  (cur = String_ <$> v0 -> unwritten c0 v0 now ph -> unwritten c0 v0 now ph') ->
  (rloser c0 ttl ph -> rloser c0 ttl ph') ->
  (rwinner now ph -> rwinner now ph') ->
  steal_inv c0 ttl v0 (<[i := ph']> phs) cur now.
Proof.
  intros [Hc [[Hv U] | (E & wi & -> & HE & (pw & Pw & W) & Others)]] Pi HU HL HW.
  - split; [assumption|]. left. split; [assumption|].
    apply Forall_insert; [assumption|]. apply HU; [assumption|].
    exact (Forall_lookup_1 _ _ _ _ U Pi).
  - split; [assumption|]. right. exists E, wi.
    split; [reflexivity|]. split; [assumption|].
    pose proof (lookup_lt_Some _ _ _ Pi) as Li.
    destruct (decide (i = wi)) as [->|Hne].
    + rewrite Pi in Pw. injection Pw as <-. split.
      * exists ph'. split; [now apply list_lookup_insert_eq|now apply HW].
      * intros j pj Hj Pj. rewrite list_lookup_insert_ne in Pj by congruence.
        now apply (Others j).
    + split.
      * exists pw. split; [|assumption]. now rewrite list_lookup_insert_ne.
      * intros j pj Hj Pj. destruct (decide (j = i)) as [->|Hji].
        -- rewrite list_lookup_insert_eq in Pj by assumption. injection Pj as <-.
           apply HL. now apply (Others i).
        -- rewrite list_lookup_insert_ne in Pj by congruence. now apply (Others j).
Qed.

(** The first write takes the lock. *)
Lemma steal_inv_take (phs : list rphase) (now : Z) (i : nat) (ph ph' : rphase) (E : Z) :
  c0 <= now ->
  Forall (unwritten c0 v0 now) phs ->
  phs !! i = Some ph ->
  rwinner now ph' ->
  c0 + ttl <= E ->
  steal_inv c0 ttl v0 (<[i := ph']> phs) (Some (String_ E)) now.
Proof.
  intros Hc U Pi W HE. split; [assumption|]. right. exists E, i.
  split; [reflexivity|]. split; [assumption|]. split.
  - exists ph'. split; [|assumption].
    apply list_lookup_insert_eq. now apply lookup_lt_Some in Pi.
  - intros j pj Hj Pj. rewrite list_lookup_insert_ne in Pj by congruence.
    apply (unwritten_loser now). exact (Forall_lookup_1 _ _ _ _ U Pj).
Qed.

(** A later [GETSET] replaces the expiry by another one that is not before
    [c0 + ttl], and its caller has lost. *)
Lemma steal_inv_overwrite (phs : list rphase) (now : Z) (i : nat) (now2 E E' : Z) :
  c0 <= now ->
  phs !! i = Some (RGetset now2) ->
  c0 + ttl <= E' ->
  (∃ wi : nat,
      c0 + ttl <= E
      ∧ (∃ ph, phs !! wi = Some ph ∧ rwinner now ph)
      ∧ ∀ j ph, j ≠ wi → phs !! j = Some ph → rloser c0 ttl ph) ->
  steal_inv c0 ttl v0 (<[i := RCheck2 E]> phs) (Some (String_ E')) now.
Proof.
  intros Hc Pi HE' (wi & HE & (pw & Pw & W) & Others).
  split; [assumption|]. right. exists E', wi.
  split; [reflexivity|]. split; [assumption|].
  pose proof (lookup_lt_Some _ _ _ Pi) as Li.
  assert (i <> wi) by (intros ->; rewrite Pi in Pw; now injection Pw as <-).
  split.
  - exists pw. split; [|assumption]. now rewrite list_lookup_insert_ne.
  - intros j pj Hj Pj. destruct (decide (j = i)) as [->|Hji].
    + rewrite list_lookup_insert_eq in Pj by assumption. now injection Pj as <-.
    + rewrite list_lookup_insert_ne in Pj by congruence. now apply (Others j).
Qed.
End StealRace.
Section StealSteps.
Variables (lk : string) (c0 ttl : Z) (v0 : option Z).

Lemma db_write_eq (k v : string) (s : redis) : db (write k v s) !! k = Some v.
Proof. unfold write, touch. cbn [db]. apply lookup_insert_eq. Qed.

Lemma steal_step (ts : list thread) (phs : list rphase) (s : redis) (i : nat)
    (ts' : list thread) (s' : redis) :
  Forall2 (at_rphase lk ttl) ts phs ->
  steal_inv c0 ttl v0 phs (db s !! lk) (clock s) ->
  clock s <= c0 + ttl ->
  pool_step (Go i) ts s = (ts', s') ->
  exists phs',
    Forall2 (at_rphase lk ttl) ts' phs'
    /\ steal_inv c0 ttl v0 phs' (db s' !! lk) (clock s')
    /\ clock s' = clock s /\ length phs' = length phs.
Proof.
  intros F I Hc. unfold pool_step.
  destruct (ts !! i) as [t|] eqn:Ti; [|intros [= <- <-]; now exists phs].
  destruct (Forall2_lookup_l _ _ _ _ _ F Ti) as (ph & Pi & A).
  unfold at_rphase in A. rewrite A.
  assert (Upd : forall p l ph', p = rphase_prog lk ttl ph' ->
            Forall2 (at_rphase lk ttl)
              (<[i := {| code := p; seen := l |}]> ts) (<[i := ph']> phs)).
  { intros p l ph' ->. now apply Forall2_insert. }
  assert (Len : forall ph', length (<[i := ph']> phs) = length phs)
    by (intros ph'; apply length_insert).
  pose proof (proj1 I) as Hc0.
  assert (Fin : forall ph' p l s1,
            p = rphase_prog lk ttl ph' ->
            steal_inv c0 ttl v0 (<[i := ph']> phs) (db s1 !! lk) (clock s1) ->
            clock s1 = clock s ->
            exists phs',
              Forall2 (at_rphase lk ttl) (<[i := {| code := p; seen := l |}]> ts) phs'
              /\ steal_inv c0 ttl v0 phs' (db s1 !! lk) (clock s1)
              /\ clock s1 = clock s /\ length phs' = length phs).
  { intros ph' p l s1 Hp Hi Hcl. exists (<[i := ph']> phs). auto. }
  destruct ph as [|now0| |cur| |now2|prev| |v].
  - rewrite rstep_start. intros [= <- <-]. apply (Fin (RSetnx (clock s))); auto.
    apply (steal_inv_move c0 ttl v0 phs _ _ i RStart); simpl; try tauto; try lia; auto.
  - destruct (db s !! lk) as [v|] eqn:L.
    + rewrite (rstep_setnx_taken lk ttl i s now0 v L). intros [= <- <-].
      apply (Fin RGet); auto. rewrite L.
      apply (steal_inv_move c0 ttl v0 phs _ _ i (RSetnx now0)); simpl; try tauto; try lia; auto.
      intros Hv _. destruct v0; [eauto|discriminate].
    + rewrite (rstep_setnx_free lk ttl i s now0 L). intros [= <- <-].
      apply (Fin RWatch); auto. rewrite db_write_eq.
      destruct I as [_ [[_ U] | (E & wi & [=] & _)]].
      pose proof (Forall_lookup_1 _ _ _ _ U Pi) as Hn. simpl in Hn.
      apply (steal_inv_take c0 ttl v0 phs _ i (RSetnx now0)); simpl; auto. lia.
  - assert (X : exists X, db s !! lk = Some (String_ X)).
    { destruct I as [_ [[Hv U] | (E & wi & HE & _)]]; [|eauto].
      pose proof (Forall_lookup_1 _ _ _ _ U Pi) as [E0 H0]. simpl in H0.
      exists E0. now rewrite Hv, H0. }
    destruct X as [X L]. rewrite (rstep_get lk ttl i s X L). intros [= <- <-].
    apply (Fin (RCheck X)); auto.
    apply (steal_inv_move c0 ttl v0 phs _ _ i RGet); simpl; try tauto; try lia; auto.
    intros Hv _. rewrite L in Hv. destruct v0 as [E0|]; [|discriminate].
    injection Hv as Hv. apply String_inj in Hv. now subst.
  - rewrite rstep_check. intros [= <- <-].
    destruct (clock s <=? cur) eqn:Le.
    + apply (Fin (RDone 0)); auto.
      apply (steal_inv_move c0 ttl v0 phs _ _ i (RCheck cur)); simpl; try tauto; try lia; auto.
      intros _ ->. split; [reflexivity|]. exists cur. split; [reflexivity|lia].
    + apply (Fin RSteal); auto.
      apply (steal_inv_move c0 ttl v0 phs _ _ i (RCheck cur)); simpl; try tauto; try lia; auto.
      intros _ ->. exists cur. split; [reflexivity|lia].
  - rewrite rstep_steal. intros [= <- <-]. apply (Fin (RGetset (clock s))); auto.
    apply (steal_inv_move c0 ttl v0 phs _ _ i RSteal); simpl; try tauto; try lia; auto.
  - destruct I as [_ [[Hv U] | (E & wi & HE & HB & (pw & Pw & W) & Others)]].
    + pose proof (Forall_lookup_1 _ _ _ _ U Pi) as [Hn (E0 & H0 & Lt)].
      assert (L : db s !! lk = Some (String_ E0)) by now rewrite Hv, H0.
      rewrite (rstep_getset lk ttl i s now2 E0 L). intros [= <- <-].
      apply (Fin (RCheck2 E0)); auto. rewrite db_write_eq.
      apply (steal_inv_take c0 ttl v0 phs _ i (RGetset now2)); simpl; auto. lia.
    + rewrite (rstep_getset lk ttl i s now2 E HE). intros [= <- <-].
      apply (Fin (RCheck2 E)); auto. rewrite db_write_eq.
      assert (i <> wi) by (intros ->; rewrite Pi in Pw; now injection Pw as <-).
      pose proof (Others i _ ltac:(assumption) Pi) as Hn. simpl in Hn.
      apply (steal_inv_overwrite c0 ttl v0 phs _ i now2 E); auto; [lia|].
      exists wi. split; [assumption|]. split; [now exists pw|assumption].
  - rewrite rstep_check2. intros [= <- <-].
    destruct (clock s <=? prev) eqn:Le.
    + apply (Fin (RDone 0)); auto.
      apply (steal_inv_move c0 ttl v0 phs _ _ i (RCheck2 prev)); simpl; try tauto; try lia; auto.
    + apply (Fin RWatch); auto.
      apply (steal_inv_move c0 ttl v0 phs _ _ i (RCheck2 prev)); simpl; try tauto; try lia; auto.
  - rewrite rstep_watch. intros [= <- <-]. apply (Fin (RDone 1)); auto.
    change (db (redis_watch i lk s) !! lk) with (db s !! lk).
    change (clock (redis_watch i lk s)) with (clock s).
    apply (steal_inv_move c0 ttl v0 phs _ _ i RWatch); simpl; try tauto; try lia; auto.
  - rewrite rstep_done. intros [= <- <-]. exists phs.
    split; [|split; [exact I|split; reflexivity]].
    rewrite <- (list_insert_id phs i (RDone v) Pi). apply Upd. reflexivity.
Qed.

Lemma steal_run (sc : list sched) :
  forall (ts : list thread) (phs : list rphase) (s : redis)
         (ts' : list thread) (s' : redis),
    Forall2 (at_rphase lk ttl) ts phs ->
    steal_inv c0 ttl v0 phs (db s !! lk) (clock s) ->
    clock s + elapsed sc <= c0 + ttl ->
    pool_run sc ts s = (ts', s') ->
    exists phs',
      Forall2 (at_rphase lk ttl) ts' phs'
      /\ steal_inv c0 ttl v0 phs' (db s' !! lk) (clock s')
      /\ length phs' = length phs.
Proof.
  induction sc as [|e sc IH]; intros ts phs s ts' s' F I Hc R.
  - injection R as <- <-. now exists phs.
  - cbn [pool_run] in R. pose proof (elapsed_nonneg sc) as Hpos.
    destruct e as [i|d]; cbn [elapsed] in Hc.
    + destruct (pool_step (Go i) ts s) as [ts1 s1] eqn:St.
      destruct (steal_step ts phs s i ts1 s1 F I ltac:(lia) St)
        as (phs1 & F1 & I1 & C1 & L1).
      destruct (IH ts1 phs1 s1 ts' s' F1 I1 ltac:(lia) R) as (phs' & F' & I' & L').
      exists phs'. split; [assumption|]. split; [assumption|]. lia.
    + cbn [pool_step] in R.
      apply (IH ts phs (advance d s) ts' s' F); [| |exact R].
      * apply (steal_inv_later c0 ttl v0 phs _ (clock s)); [|exact I].
        unfold advance. cbn [clock]. lia.
      * unfold advance. cbn [clock]. lia.
Qed.

Lemma finished_rphase (t : thread) (ph : rphase) :
  at_rphase lk ttl t ph -> is_Some (result_of t) ->
  exists v, ph = RDone v /\ result_of t = Some (Resolved (JNum v)).
Proof.
  unfold at_rphase, result_of. intros -> [o Ho].
  destruct ph as [|now0| |cur| |now2|prev| |v]; try discriminate Ho.
  - cbn [rphase_prog] in Ho. unfold lock_check, still_valid in Ho.
    rewrite truthy_String in Ho. discriminate Ho.
  - cbn [rphase_prog] in Ho. unfold lock_check2, still_valid in Ho.
    rewrite truthy_String in Ho. discriminate Ho.
  - now exists v.
Qed.
End StealSteps.
(** X17.  Stealing is exclusive.  Any number of callers start [lock(K, ttl)]
    on the store model, each on its own connection, with the lock key in any
    state the protocol leaves it in (absent, expired, or live); their commands
    reach the store in any order, and the time that passes does not exceed
    [ttl] in all.  Once all calls have resolved, each has resolved 0 or 1, at
    most one has resolved acquired, and when the lock was free at the start
    (absent or expired) exactly one has. *)
Theorem lock_steal_race_exclusive (k : string) (ttl : Z) (n : nat) (s0 : redis)
    (v0 : option Z) (sc : list sched) (ts : list thread) (s : redis) :
  db s0 !! _makeKey k = String_ <$> v0 ->
  elapsed sc <= ttl ->
  pool_run sc (replicate n (spawn (lock (JStr k) (Some ttl)))) s0 = (ts, s) ->
  Forall (fun t => is_Some (result_of t)) ts ->
  (forall i : nat,
      (i < n)%nat ->
      result_of <$> ts !! i = Some (Some (Resolved (JNum 1)))
      \/ result_of <$> ts !! i = Some (Some (Resolved (JNum 0))))
  /\ (forall i j : nat,
         result_of <$> ts !! i = Some (Some (Resolved (JNum 1))) ->
         result_of <$> ts !! j = Some (Some (Resolved (JNum 1))) ->
         i = j)
  /\ (free_or_expired s0 (_makeKey k) -> (0 < n)%nat ->
      exists i : nat,
        (i < n)%nat /\ result_of <$> ts !! i = Some (Some (Resolved (JNum 1)))).
Proof.
  intros Init Ht R Fin. set (lk := _makeKey k) in *.
  assert (F0 : Forall2 (at_rphase lk ttl)
                 (replicate n (spawn (lock (JStr k) (Some ttl)))) (replicate n RStart)).
  { clear. induction n; constructor; [reflexivity|assumption]. }
  assert (I0 : steal_inv (clock s0) ttl v0 (replicate n RStart) (db s0 !! lk) (clock s0)).
  { split; [lia|]. left. split; [assumption|]. apply Forall_replicate. exact I. }
  destruct (steal_run lk (clock s0) ttl v0 sc _ _ s0 ts s F0 I0 ltac:(lia) R)
    as (phs & F & [Hc Inv] & Len).
  rewrite length_replicate in Len.
  assert (Lts : length ts = n) by (apply Forall2_length in F; lia).
  assert (Done : forall j ph, phs !! j = Some ph ->
            exists v, ph = RDone v
                      /\ result_of <$> ts !! j = Some (Some (Resolved (JNum v)))).
  { intros j ph Pj.
    destruct (Forall2_lookup_r _ _ _ _ _ F Pj) as (t & Tj & A).
    destruct (finished_rphase lk ttl t ph A) as (v & -> & Rv).
    - exact (Forall_lookup_1 _ _ _ _ Fin Tj).
    - exists v. split; [reflexivity|]. rewrite Tj. cbn. now rewrite Rv. }
  assert (Res : forall j v, result_of <$> ts !! j = Some (Some (Resolved (JNum v))) ->
            exists ph, phs !! j = Some ph /\ ph = RDone v).
  { intros j v Rj.
    assert (Lj : (j < length phs)%nat).
    { rewrite Len, <- Lts. apply lookup_lt_is_Some.
      destruct (ts !! j); [eauto|discriminate]. }
    destruct (lookup_lt_is_Some_2 phs j Lj) as [pj Pj].
    destruct (Done j pj Pj) as (v' & -> & Rv). exists (RDone v'). split; [assumption|].
    rewrite Rv in Rj. now injection Rj as ->. }
  destruct Inv as [[Hv U] | (E & wi & HE & HB & (pw & Pw & W) & Others)].
  - (* nobody has written: every caller saw the initial expiry live *)
    assert (Zero : forall j ph, phs !! j = Some ph ->
              result_of <$> ts !! j = Some (Some (Resolved (JNum 0)))
              /\ exists E0, v0 = Some E0 /\ clock s0 <= E0).
    { intros j ph Pj. destruct (Done j ph Pj) as (v & -> & Rv).
      pose proof (Forall_lookup_1 _ _ _ _ U Pj) as [-> HE0]. now split. }
    split; [|split].
    + intros i Hi. destruct (lookup_lt_is_Some_2 phs i ltac:(lia)) as [pi Pi].
      right. exact (proj1 (Zero i pi Pi)).
    + intros i j Ri _. destruct (Res i 1 Ri) as (pi & Pi & ->).
      destruct (Zero i _ Pi) as [Z0 _]. rewrite Z0 in Ri. discriminate Ri.
    + intros Free Hn. exfalso.
      destruct (lookup_lt_is_Some_2 phs 0%nat ltac:(lia)) as [p0 P0].
      destruct (Zero 0%nat p0 P0) as [_ (E0 & H0 & Le)].
      rewrite H0 in Init. cbn in Init.
      destruct Free as [Fr | (E1 & L1 & Lt)]; rewrite Init in *; [discriminate|].
      injection L1 as L1. apply String_inj in L1. lia.
  - (* the lock was taken once *)
    assert (Win : result_of <$> ts !! wi = Some (Some (Resolved (JNum 1)))).
    { destruct (Done wi pw Pw) as (v & -> & Rv). simpl in W. now subst v. }
    assert (Lose : forall j, (j < n)%nat -> j <> wi ->
              result_of <$> ts !! j = Some (Some (Resolved (JNum 0)))).
    { intros j Hj Hne. destruct (lookup_lt_is_Some_2 phs j ltac:(lia)) as [pj Pj].
      destruct (Done j pj Pj) as (v & -> & Rv).
      pose proof (Others j _ Hne Pj) as Hv. simpl in Hv. now subst v. }
    assert (Only : forall j, result_of <$> ts !! j = Some (Some (Resolved (JNum 1))) ->
              j = wi).
    { intros j Rj. destruct (decide (j = wi)) as [|Hne]; [assumption|exfalso].
      destruct (Res j 1 Rj) as (pj & Pj & ->).
      pose proof (Others j _ Hne Pj) as Hv. simpl in Hv. discriminate Hv. }
    split; [|split].
    + intros i Hi. destruct (decide (i = wi)) as [->|Hne]; [now left|right; auto].
    + intros i j Ri Rj. rewrite (Only i Ri), (Only j Rj). reflexivity.
    + intros _ _. exists wi. split; [apply lookup_lt_Some in Pw; lia|exact Win].
Qed.

Lemma lock_steal_race_exclusive_witness :
  let ts := (pool_run steal_race (replicate 3 (spawn (lock (JStr "a") (Some 300))))
               stale_store).1 in
  (forall i : nat,
      (i < 3)%nat ->
      result_of <$> ts !! i = Some (Some (Resolved (JNum 1)))
      \/ result_of <$> ts !! i = Some (Some (Resolved (JNum 0))))
  /\ (forall i j : nat,
         result_of <$> ts !! i = Some (Some (Resolved (JNum 1))) ->
         result_of <$> ts !! j = Some (Some (Resolved (JNum 1))) ->
         i = j)
  /\ (free_or_expired stale_store (_makeKey "a") -> (0 < 3)%nat ->
      exists i : nat,
        (i < 3)%nat /\ result_of <$> ts !! i = Some (Some (Resolved (JNum 1)))).
Proof.
  intros ts.
  apply (lock_steal_race_exclusive "a" 300 3 stale_store (Some 1200) steal_race ts
           (pool_run steal_race (replicate 3 (spawn (lock (JStr "a") (Some 300))))
              stale_store).2).
  - reflexivity.
  - vm_compute. discriminate.
  - subst ts. apply surjective_pairing.
  - subst ts. vm_compute. repeat econstructor.
Defined.
(** ** The watch, across calls and connections *)

Lemma acquired_state (c : nat) (s : redis) (k : string) (ttl : Z) :
  free_or_expired s (_makeKey k) ->
  (run (redis_conn c) (lock (JStr k) (Some ttl)) s).1
  = (Resolved (JNum 1),
     redis_watch c (_makeKey k) (write (_makeKey k) (String_ (clock s + ttl)) s)).
Proof.
  intros F. destruct (lock_acquires_free_or_expired c s k ttl F) as [tr ->]. reflexivity.
Qed.

Lemma watchers_after_lock (c c' : nat) (k : string) (v : string) (s : redis) :
  c' ∈ watchers k (redis_watch c k (write k v s)) <-> c' = c \/ c' ∈ watchers k s.
Proof.
  rewrite !elem_of_watchers. unfold redis_watch, write, touch. cbn [watching].
  destruct (decide (c' = c)) as [->|Hne].
  - rewrite lookup_insert_eq. split; [now left|]. intros _. eexists. split; [reflexivity|].
    apply elem_of_union_l. now apply elem_of_singleton.
  - rewrite lookup_insert_ne by congruence. split; [now right|].
    now intros [?|?].
Qed.

Lemma expired_after (s : redis) (k : string) (E d : Z) (c : nat) :
  E < clock s + Z.max 0 d ->
  free_or_expired (advance d (redis_watch c k (write k (String_ E) s))) k.
Proof.
  intros Lt. right. exists E. split; [apply db_write_eq|].
  unfold advance, redis_watch, write, touch. cbn [clock]. lia.
Qed.

(** X18.  The holder whose lock was stolen cannot release it.  On the store
    model, connection [c1] acquires the lock, more than [ttl1] passes, and
    another connection [c2] calls [lock]: it acquires, by stealing, and this
    write marks [c1], which watches the key.  The [unlock] of [c1] that
    follows aborts and resolves 0, and the lock of [c2] stays in place with
    its expiry. *)
Theorem unlock_after_steal_resolves_zero (c1 c2 : nat) (s : redis) (k : string)
    (ttl1 ttl2 d : Z) :
  c1 <> c2 ->
  free_or_expired s (_makeKey k) ->
  0 <= d -> ttl1 < d ->
  let s1 := (run (redis_conn c1) (lock (JStr k) (Some ttl1)) s).1.2 in
  let r2 := run (redis_conn c2) (lock (JStr k) (Some ttl2)) (advance d s1) in
  let r3 := run (redis_conn c1) (unlock (JStr k)) r2.1.2 in
  r2.1.1 = Resolved (JNum 1)
  /\ r3.1.1 = Resolved (JNum 0)
  /\ db r3.1.2 !! _makeKey k = Some (String_ (clock s + d + ttl2)).
Proof.
  intros Hne F Hd Ht s1 r2 r3. set (lk := _makeKey k) in *.
  assert (S1 : s1 = redis_watch c1 lk (write lk (String_ (clock s + ttl1)) s))
    by (unfold s1; now rewrite acquired_state).
  assert (F1 : free_or_expired (advance d s1) lk).
  { rewrite S1. apply expired_after. lia. }
  assert (R2 : r2.1 = (Resolved (JNum 1),
                       redis_watch c2 lk
                         (write lk (String_ (clock (advance d s1) + ttl2)) (advance d s1))))
    by (unfold r2; now rewrite acquired_state).
  assert (C1 : clock (advance d s1) = clock s + d).
  { rewrite S1. unfold advance, redis_watch, write, touch. cbn [clock]. lia. }
  assert (D1 : c1 ∈ dirty r2.1.2).
  { rewrite R2. cbn [snd]. rewrite dirty_after_lock. apply elem_of_union_r.
    change (watchers lk (advance d s1)) with (watchers lk s1).
    rewrite S1. apply watchers_after_lock. now left. }
  split; [now rewrite R2|].
  pose proof (unlock_on_store c1 r2.1.2 k) as U. fold r3 in U.
  destruct (decide (c1 ∈ dirty r2.1.2)); [|contradiction].
  rewrite (surjective_pairing r3.1) in U. injection U as -> ->.
  split; [reflexivity|].
  change (db (unwatch c1 r2.1.2)) with (db r2.1.2). rewrite R2. cbn [snd].
  change (db (redis_watch c2 lk ?x)) with (db x).
  rewrite C1. apply db_write_eq.
Qed.

Lemma unlock_after_steal_resolves_zero_witness :
  let s1 := (run (redis_conn 0) (lock (JStr "a") (Some 300)) (empty_redis 1000)).1.2 in
  let r2 := run (redis_conn 1) (lock (JStr "a") (Some 500)) (advance 400 s1) in
  let r3 := run (redis_conn 0) (unlock (JStr "a")) r2.1.2 in
  r2.1.1 = Resolved (JNum 1)
  /\ r3.1.1 = Resolved (JNum 0)
  /\ db r3.1.2 !! _makeKey "a" = Some (String_ (clock (empty_redis 1000) + 400 + 500)).
Proof.
  apply (unlock_after_steal_resolves_zero 0 1 (empty_redis 1000) "a" 300 500 400).
  - discriminate.
  - left. reflexivity.
  - lia.
  - lia.
Defined.
(** X19.  What the watch is for.  On the store model, connection [c] acquires
    the lock and lets it expire.  If nothing else happens, [readWithLock] on
    [c] resolves with the value stored at the key.  If another connection
    [c2] has meanwhile taken the lock and released it, the lock key is absent
    again and the value is the same, but the transaction of [c] aborts and
    [readWithLock] fails with the contended outcome; the read after that one
    is no longer aborted and resolves with the value. *)
Theorem read_detects_lock_cycle (c c2 : nat) (s : redis) (k : string) (ttl ttl2 d : Z) :
  c <> c2 ->
  free_or_expired s (_makeKey k) ->
  c ∉ dirty s -> c ∉ watchers (_makeKey k) s ->
  c2 ∉ dirty s -> c2 ∉ watchers (_makeKey k) s ->
  0 <= d -> ttl < d ->
  let s1 := advance d (run (redis_conn c) (lock (JStr k) (Some ttl)) s).1.2 in
  let s2 := (run (redis_conn c2)
               (bind (lock (JStr k) (Some ttl2)) (fun _ => unlock (JStr k))) s1).1.2 in
  let r3 := run (redis_conn c) (readWithLock (JStr k)) s2 in
  (run (redis_conn c) (readWithLock (JStr k)) s1).1.1 = Resolved (bulk (db s !! k))
  /\ db s2 !! _makeKey k = None
  /\ db s2 !! k = db s !! k
  /\ r3.1.1 = Rejected (JNum 0)
  /\ (run (redis_conn c) (readWithLock (JStr k)) r3.1.2).1.1
     = Resolved (bulk (db s !! k)).
Proof.
  intros Hne F Hd Hw Hd2 Hw2 Hpos Ht s1 s2 r3. set (lk := _makeKey k) in *.
  set (sa := redis_watch c lk (write lk (String_ (clock s + ttl)) s)).
  assert (S1 : s1 = advance d sa) by (unfold s1; now rewrite acquired_state).
  assert (F1 : free_or_expired s1 lk) by (rewrite S1; apply expired_after; lia).
  assert (K1 : db s1 !! k = db s !! k).
  { rewrite S1. unfold advance, sa, redis_watch, write, touch. cbn [db].
    apply lookup_insert_ne. apply makeKey_ne. }
  assert (L1 : db s1 !! lk = Some (String_ (clock s + ttl)))
    by (rewrite S1; apply db_write_eq).
  assert (C1 : clock s1 = clock s + d).
  { rewrite S1. unfold advance, sa, redis_watch, write, touch. cbn [clock]. lia. }
  assert (D1 : c ∉ dirty s1).
  { rewrite S1. change (dirty (advance d sa)) with (dirty sa).
    unfold sa. rewrite dirty_after_lock. intros D.
    apply elem_of_union in D as [D|D]; contradiction. }
  assert (D12 : c2 ∉ dirty s1).
  { rewrite S1. change (dirty (advance d sa)) with (dirty sa).
    unfold sa. rewrite dirty_after_lock. intros D.
    apply elem_of_union in D as [D|D]; contradiction. }
  assert (W1 : c ∈ watchers lk s1).
  { rewrite S1. change (watchers lk (advance d sa)) with (watchers lk sa).
    apply watchers_after_lock. now left. }
  assert (W12 : c2 ∉ watchers lk s1).
  { rewrite S1. change (watchers lk (advance d sa)) with (watchers lk sa).
    intros H. apply watchers_after_lock in H as [H|H]; [congruence|contradiction]. }
  (* the read when nobody intervenes *)
  assert (Read : forall s', c ∉ dirty s' -> db s' !! k = db s !! k ->
            (db s' !! lk = None
             \/ exists E, db s' !! lk = Some (String_ E) /\ E < clock s') ->
            (run (redis_conn c) (readWithLock (JStr k)) s').1.1
            = Resolved (bulk (db s !! k))).
  { intros s' D' K' L'. rewrite readWithLock_on_store. cbn [fst]. fold lk.
    destruct (decide (c ∈ dirty s')); [contradiction|]. rewrite K'.
    destruct L' as [-> | (E & -> & Lt)]; [reflexivity|].
    cbn [bulk]. rewrite valid_at_String. now replace (clock s' <=? E) with false by lia. }
  split.
  { apply Read; [assumption..|]. right. eexists. split; [exact L1|lia]. }
  (* the other connection's lock and unlock *)
  set (sb := redis_watch c2 lk (write lk (String_ (clock s1 + ttl2)) s1)).
  assert (S2 : s2 = unwatch c2 (remove lk sb)).
  { unfold s2. rewrite run_bind.
    destruct (lock_acquires_free_or_expired c2 s1 k ttl2 F1) as [t1 ->]. fold lk sb.
    pose proof (unlock_on_store c2 sb k) as U.
    destruct (run (redis_conn c2) (unlock (JStr k)) sb) as [[o s'] t']. cbn [fst snd] in *.
    destruct (decide (c2 ∈ dirty sb)) as [D|_].
    { exfalso. unfold sb in D. rewrite dirty_after_lock in D.
      apply elem_of_union in D as [D|D]; contradiction. }
    assert (Lb : db sb !! lk = Some (String_ (clock s1 + ttl2)))
      by (unfold sb; apply db_write_eq).
    fold lk in U. rewrite Lb in U. now injection U. }
  assert (D2 : c ∈ dirty s2).
  { rewrite S2. unfold unwatch, remove, touch. cbn [dirty watching].
    apply elem_of_difference. split.
    - apply elem_of_union_l. unfold sb. rewrite dirty_after_lock.
      now apply elem_of_union_r.
    - intros E. apply elem_of_singleton in E. contradiction. }
  assert (L2 : db s2 !! lk = None).
  { rewrite S2. unfold unwatch, remove, touch. cbn [db]. apply lookup_delete_eq. }
  assert (K2 : db s2 !! k = db s !! k).
  { rewrite S2. unfold unwatch, remove, touch, sb, redis_watch, write, touch. cbn [db].
    rewrite lookup_delete_ne by apply makeKey_ne.
    rewrite lookup_insert_ne by apply makeKey_ne. exact K1. }
  split; [exact L2|]. split; [exact K2|].
  pose proof (readWithLock_on_store c s2 k) as R3. fold r3 in R3.
  destruct (decide (c ∈ dirty s2)); [|contradiction].
  rewrite (surjective_pairing r3.1) in R3. injection R3 as -> ->.
  split; [reflexivity|].
  apply Read.
  - unfold unwatch. cbn [dirty]. apply not_elem_of_difference. right.
    now apply elem_of_singleton.
  - exact K2.
  - left. exact L2.
Qed.

Lemma read_detects_lock_cycle_witness :
  let s := {| db := {[ "a" := "hello" ]}; clock := 1000; watching := ∅; dirty := ∅ |} in
  let s1 := advance 400 (run (redis_conn 0) (lock (JStr "a") (Some 300)) s).1.2 in
  let s2 := (run (redis_conn 1)
               (bind (lock (JStr "a") (Some 300)) (fun _ => unlock (JStr "a"))) s1).1.2 in
  let r3 := run (redis_conn 0) (readWithLock (JStr "a")) s2 in
  (run (redis_conn 0) (readWithLock (JStr "a")) s1).1.1 = Resolved (bulk (db s !! "a"))
  /\ db s2 !! _makeKey "a" = None
  /\ db s2 !! "a" = db s !! "a"
  /\ r3.1.1 = Rejected (JNum 0)
  /\ (run (redis_conn 0) (readWithLock (JStr "a")) r3.1.2).1.1
     = Resolved (bulk (db s !! "a")).
Proof.
  intros s.
  apply (read_detects_lock_cycle 0 1 s "a" 300 300 400).
  - discriminate.
  - left. reflexivity.
  - apply not_elem_of_empty.
  - rewrite elem_of_watchers. intros (ks & H & _). discriminate H.
  - apply not_elem_of_empty.
  - rewrite elem_of_watchers. intros (ks & H & _). discriminate H.
  - lia.
  - lia.
Defined.
